(** * scan_module_deps: module-dependency scanner and BUILD synchroniser

    A shallow embedding of [src/tools/scan_module_deps.cpp].  The C++ class
    [ModuleScanner] owns three tables ([modules], [module_deps],
    [build_targets]); here they are finite maps keyed by strings and every
    member function receives and returns the tables it touches.  The file
    system the tool reads is an explicit snapshot (a tree of directories and
    files) and the one file the tool rewrites is updated in that snapshot.

    The tool has no [try] block.  A member function is therefore described
    by two definitions where it can be left by an exception: the function
    of its name gives what a call computes when it returns, and a boolean
    function ending in [_throws] tells the calls an exception leaves;
    [main] asks the second before it uses the first. *)

From Stdlib Require Import String Ascii NArith ZArith Lia Permutation.
From stdpp Require Import gmap strings list fin_maps sorting.
#[local] Set Warnings "-clear-no-such-hyp".
Local Open Scope string_scope.

(** ** [std::string] operations used by the tool *)
Module Str.

(** [s.find(c)]: position of the first occurrence of a character. *)
Fixpoint find_char (c : ascii) (s : string) : option nat :=
  match s with
  | EmptyString => None
  | String a s' => if Ascii.eqb a c then Some 0 else S <$> find_char c s'
  end.

(** [s.starts_with(p)]. *)
Fixpoint starts_with (s p : string) : bool :=
  match p, s with
  | EmptyString, _ => true
  | String _ _, EmptyString => false
  | String b p', String a s' => Ascii.eqb a b && starts_with s' p'
  end.

(** The suffix of [s] from position [n] on (empty past the end). *)
Fixpoint drop (n : nat) (s : string) : string :=
  match n, s with
  | 0, _ => s
  | S _, EmptyString => EmptyString
  | S k, String _ s' => drop k s'
  end.

(** The first [n] characters of [s]. *)
Fixpoint take (n : nat) (s : string) : string :=
  match n, s with
  | 0, _ => EmptyString
  | S _, EmptyString => EmptyString
  | S k, String a s' => String a (take k s')
  end.

(** [s.substr(pos, len)]; every call of the tool has [pos <= s.length()]. *)
Definition substr (s : string) (pos len : nat) : string := take len (drop pos s).

(** [s.ends_with(p)]. *)
Definition ends_with (s p : string) : bool :=
  (String.length p <=? String.length s)%nat
  && String.eqb (drop (String.length s - String.length p) s) p.

(** [s.find(p)] for a string [p]: first position at which [p] occurs. *)
Fixpoint find_str (p s : string) : option nat :=
  if starts_with s p then Some 0
  else match s with
       | EmptyString => None
       | String _ s' => S <$> find_str p s'
       end.

(** [s.find(c, from)]. *)
Definition find_char_from (c : ascii) (from : nat) (s : string) : option nat :=
  (fun i => from + i) <$> find_char c (drop from s).

(** [s.replace(pos, len, r)]. *)
Definition replace (s : string) (pos len : nat) (r : string) : string :=
  take pos s ++ r ++ drop (pos + len) s.

(** [std::replace(s.begin(), s.end(), a, b)]. *)
Fixpoint replace_char (a b : ascii) (s : string) : string :=
  match s with
  | EmptyString => EmptyString
  | String c s' => String (if Ascii.eqb c a then b else c) (replace_char a b s')
  end.

(** [operator<=] on [std::string]: lexicographic on unsigned bytes. *)
Definition le (x y : string) : Prop := String.leb x y = true.

#[export] Instance le_dec : RelDecision le.
Proof. intros x y. unfold le. apply _. Defined.

(** [operator<] on [std::string]. *)
Definition lt (x y : string) : Prop := String.ltb x y = true.

(** [std::sort(v.begin(), v.end())] on a vector of strings. *)
Definition sort (l : list string) : list string := merge_sort le l.

(** [v.erase(std::unique(v.begin(), v.end()), v.end())]: one element is
    kept of every run of equal neighbours. *)
Fixpoint unique (l : list string) : list string :=
  match l with
  | [] => []
  | x :: l' =>
      match l' with
      | [] => [x]
      | y :: _ => if String.eqb x y then unique l' else x :: unique l'
      end
  end.

Definition sort_unique (l : list string) : list string := unique (sort l).

(** Concatenation of the strings of [l], separated by [sep]. *)
Fixpoint join (sep : string) (l : list string) : string :=
  match l with
  | [] => ""
  | [x] => x
  | x :: l' => x ++ sep ++ join sep l'
  end.

End Str.

(** ** The data model *)

Module ModuleInfo.
Record t : Type := mk {
  name : string;
  imports : list string;
  file_path : string;
  filename_valid : bool;
  expected_filename : string
}.
End ModuleInfo.

Module BuildTarget.
Record t : Type := mk {
  name : string;
  type : string;   (* cc_module_library or cc_module_binary *)
  module_interfaces : list string;
  module_dependencies : gmap string (list string)
}.
End BuildTarget.

(** ** Dependency resolution *)

(** The name of the main module of [module_name]: what precedes its first
    [':'], or the whole name. *)
Definition main_module (module_name : string) : string :=
  match Str.find_char ":" module_name with
  | Some colon_pos => Str.substr module_name 0 colon_pos
  | None => module_name
  end.

(** The body of the loop over [module_info.imports]: what one import adds to
    [clean_imports]. *)
Definition clean_import (module_name import : string) : list string :=
  if negb (String.eqb import "") && negb (String.eqb import module_name) then
    if Str.starts_with import ":" then [main_module module_name ++ import]
    else [import]
  else [].

(** The partitions a main module gets as dependencies: the names of the
    table that start with [module_name + ":"]. *)
Definition partitions_of (modules : gmap string ModuleInfo.t) (module_name : string)
  : list string :=
  match Str.find_char ":" module_name with
  | None =>
      List.filter (fun other_name => Str.starts_with other_name (module_name ++ ":"))
                  (fst <$> map_to_list modules)
  | Some _ => []
  end.

(** [clean_imports] as it stands before the sort. *)
Definition clean_imports (modules : gmap string ModuleInfo.t)
    (module_name : string) (module_info : ModuleInfo.t) : list string :=
  (List.flat_map (clean_import module_name) (ModuleInfo.imports module_info)
   ++ partitions_of modules module_name)%list.

(** One iteration of the loop of [processModuleDependencies]. *)
Definition process_module (modules : gmap string ModuleInfo.t)
    (module_deps : gmap string (list string)) (entry : string * ModuleInfo.t)
  : gmap string (list string) :=
  let ci := clean_imports modules entry.1 entry.2 in
  match ci with
  | [] => module_deps
  | _ :: _ => <[entry.1 := Str.sort_unique ci]> module_deps
  end.

Definition processModuleDependencies (modules : gmap string ModuleInfo.t)
    (module_deps : gmap string (list string)) : gmap string (list string) :=
  foldl (process_module modules) module_deps (map_to_list modules).

(** ** The file system

    [std::filesystem] paths are strings, as in the source.  A snapshot is a
    tree; the order of the entries of a directory is the order in which
    [directory_iterator] enumerates them.  There are no symbolic links, and a
    relative path is taken from the root of the snapshot, which plays the
    current directory.  Regular files carry their read and write
    permissions; every directory can be searched and listed, and every name
    is within the limits of the operating system, so that looking up a path
    never fails for another reason than a missing name or a regular file in
    the place of a directory. *)
Module Fs.

#[local] Unset Elimination Schemes.
Inductive node : Type :=
| File (name : string) (readable writable : bool) (content : string)
| Dir (name : string) (entries : list node).
#[local] Set Elimination Schemes.

Definition node_name (n : node) : string :=
  match n with File name _ _ _ => name | Dir name _ => name end.

Definition is_regular_file (n : node) : bool :=
  match n with File _ _ _ _ => true | Dir _ _ => false end.

(** A name a directory entry can have: not empty, not [.] or [..], without
    a slash. *)
Definition proper_name (c : string) : bool :=
  negb (String.eqb c "") && negb (String.eqb c ".") && negb (String.eqb c "..")
  && match Str.find_char "/" c with Some _ => false | None => true end.

(** A path component: a string without slash. *)
Definition slash_free (c : string) : Prop := Str.find_char "/" c = None.

(** A path made of proper names. *)
Definition normal (p : list string) : Prop := Forall (fun c => proper_name c = true) p.

(** Well-formed snapshots: in every directory the entries have proper names
    and no two entries have the same name. *)
Fixpoint wf (n : node) : bool :=
  match n with
  | File _ _ _ _ => true
  | Dir _ entries =>
      forallb (fun e => proper_name (node_name e)) entries
      && bool_decide (NoDup (node_name <$> entries))
      && forallb wf entries
  end.

(** Two snapshots of the same tree: they differ at most in the order in
    which the entries of the directories are enumerated. *)
#[local] Unset Elimination Schemes.
Inductive reordered : node -> node -> Prop :=
| reordered_file name readable writable content :
    reordered (File name readable writable content) (File name readable writable content)
| reordered_dir name entries entries' entries'' :
    Forall2 reordered entries entries' ->
    Permutation entries' entries'' ->
    reordered (Dir name entries) (Dir name entries'').
#[local] Set Elimination Schemes.

(** A canonical absolute path: the names from the root down. *)
Definition cpath : Type := list string.

Definition child (c : string) (entries : list node) : option node :=
  List.find (fun e => String.eqb (node_name e) c) entries.

Fixpoint lookup (p : cpath) (n : node) : option node :=
  match p with
  | [] => Some n
  | c :: p' =>
      match n with
      | Dir _ entries => e ← child c entries; lookup p' e
      | File _ _ _ _ => None
      end
  end.

(** The components of a path string, split at ['/']. *)
Fixpoint split_path_aux (cur : string) (s : string) : list string :=
  match s with
  | EmptyString => [cur]
  | String a s' =>
      if Ascii.eqb a "/" then cur :: split_path_aux "" s'
      else split_path_aux (cur ++ String a "") s'
  end.

Definition split_path (s : string) : list string := split_path_aux "" s.

(** One step of path resolution from the canonical directory [cur]. *)
Definition step (cur : cpath) (c : string) : cpath :=
  if String.eqb c "" || String.eqb c "." then cur
  else if String.eqb c ".." then removelast cur
  else (cur ++ [c])%list.

(** The operating system's resolution of a path: every component is
    looked up in the directory reached so far. *)
Fixpoint resolve_from (root : node) (cur : cpath) (cs : list string) : option cpath :=
  match cs with
  | [] => Some cur
  | c :: cs' =>
      match lookup cur root with
      | Some (Dir _ _) =>
          let next := step cur c in
          match lookup next root with
          | Some _ => resolve_from root next cs'
          | None => None
          end
      | _ => None
      end
  end.

Definition resolve (root : node) (p : string) : option cpath :=
  if String.eqb p "" then None else resolve_from root [] (split_path p).

(** [fs::exists(p)]. *)
Definition exists_ (root : node) (p : string) : bool :=
  match resolve root p with Some _ => true | None => false end.

Definition node_at (root : node) (p : string) : option node :=
  c ← resolve root p; lookup c root.

(** [fs::is_directory(p)]. *)
Definition is_directory (root : node) (p : string) : bool :=
  match node_at root p with
  | Some (Dir _ _) => true
  | _ => false
  end.

(** [p / q]. *)
Definition append (p q : string) : string :=
  if Str.starts_with q "/" then q
  else if String.eqb p "" || Str.ends_with p "/" then p ++ q
  else p ++ "/" ++ q.

(** Position of the last occurrence of a character. *)
Fixpoint rfind_char (c : ascii) (s : string) : option nat :=
  match s with
  | EmptyString => None
  | String a s' =>
      match rfind_char c s' with
      | Some i => Some (S i)
      | None => if Ascii.eqb a c then Some 0 else None
      end
  end.

(** [p.filename()]: what follows the last ['/']. *)
Definition filename (p : string) : string :=
  match rfind_char "/" p with
  | Some i => Str.drop (S i) p
  | None => p
  end.

(** [p.extension()]: from the last ['.'] of the file name on, unless the
    file name is [.] or [..] or that dot is its first character. *)
Definition extension (p : string) : string :=
  let f := filename p in
  if String.eqb f "." || String.eqb f ".." then ""
  else match rfind_char "." f with
       | Some (S i) => Str.drop (S i) f
       | _ => ""
       end.

(** A string without the slashes it ends with. *)
Fixpoint strip_trailing_slashes (s : string) : string :=
  match s with
  | EmptyString => ""
  | String a s' =>
      let t := strip_trailing_slashes s' in
      if Ascii.eqb a "/" && String.eqb t "" then "" else String a t
  end.

(** A run of slashes. *)
Fixpoint slashes (k : nat) : string :=
  match k with
  | 0 => ""
  | S k' => String "/" (slashes k')
  end.

(** [p.parent_path()]. *)
Definition parent_path (p : string) : string :=
  match rfind_char "/" p with
  | None => ""
  | Some i =>
      let stripped := strip_trailing_slashes (Str.take i p) in
      if String.eqb stripped "" then "/" else stripped
  end.

(** [fs::weakly_canonical(p)]: without symbolic links, the lexically
    normal absolute path. *)
Definition weakly_canonical (p : string) : cpath :=
  foldl step [] (split_path p).

(** [p.lexically_relative(base)] on canonical paths. *)
Fixpoint lexically_relative (p base : cpath) : list string :=
  match p, base with
  | a :: p', b :: base' =>
      if String.eqb a b then lexically_relative p' base'
      else (List.repeat ".." (List.length base) ++ p)%list
  | _, _ => (List.repeat ".." (List.length base) ++ p)%list
  end.

(** [fs::relative(p, base).string()]. *)
Definition relative (p base : string) : string :=
  match lexically_relative (weakly_canonical p) (weakly_canonical base) with
  | [] => "."
  | cs => Str.join "/" cs
  end.

(** What a directory iterator hands out for one entry. *)
Record directory_entry : Type := mk_entry {
  path : string;
  regular : bool
}.

Definition entry_of (dir : string) (n : node) : directory_entry :=
  mk_entry (append dir (node_name n)) (is_regular_file n).

(** The entries below [n], [n] included, in pre-order. *)
Fixpoint walk (dir : string) (n : node) : list directory_entry :=
  match n with
  | File _ _ _ _ => [entry_of dir n]
  | Dir name entries =>
      entry_of dir n :: List.flat_map (walk (append dir name)) entries
  end.

(** The constructors of [fs::directory_iterator] and of
    [fs::recursive_directory_iterator] throw [fs::filesystem_error] for a
    path that is not a directory: a missing path, and also a regular
    file. *)
Definition iterator_throws (root : node) (p : string) : bool :=
  negb (is_directory root p).

(** [fs::directory_iterator(p)]: the entries of the directory [p], in the
    order of the snapshot.  No entry is handed out when the constructor
    throws ([iterator_throws]). *)
Definition directory_iterator (root : node) (p : string) : list directory_entry :=
  match node_at root p with
  | Some (Dir _ entries) => entry_of p <$> entries
  | _ => []
  end.

(** [fs::recursive_directory_iterator(p)]: what is below the directory
    [p], in pre-order.  No entry is handed out when the constructor throws
    ([iterator_throws]). *)
Definition recursive_directory_iterator (root : node) (p : string)
  : list directory_entry :=
  match node_at root p with
  | Some (Dir _ entries) => List.flat_map (walk p) entries
  | _ => []
  end.

(** [std::ifstream file(p)]: whether [file.is_open()].  The stream opens
    on a regular file that may be read, and on a directory as well: the
    operating system opens a directory for reading and refuses to read
    from it. *)
Definition is_open (root : node) (p : string) : bool :=
  match node_at root p with
  | Some (File _ readable _ _) => readable
  | Some (Dir _ _) => true
  | None => false
  end.

(** The stream [std::ifstream file(p)] is open and no character can be
    read from it: [p] is a directory.  [file.read] then reads nothing and
    sets the error state of the stream; a [std::istreambuf_iterator] reads
    from the stream buffer, whose [std::ios_base::failure] nothing
    catches. *)
Definition read_fails (root : node) (p : string) : bool :=
  is_directory root p.

(** [std::ifstream file(p)] followed by reading everything: the characters
    of a regular file that may be read.  [None] when nothing is read:
    the stream is not open ([is_open]), or it is open on a directory and
    the read fails ([read_fails]). *)
Definition read (root : node) (p : string) : option string :=
  match node_at root p with
  | Some (File _ true _ content) => Some content
  | _ => None
  end.

(** [std::ofstream out(p)]: whether the stream opens. *)
Definition can_write (root : node) (p : string) : bool :=
  match node_at root p with
  | Some (File _ _ true _) => true
  | _ => false
  end.

Fixpoint update_child (c : string) (f : node -> node) (entries : list node) : list node :=
  match entries with
  | [] => []
  | e :: es => if String.eqb (node_name e) c then f e :: es else e :: update_child c f es
  end.

Fixpoint write_at (p : cpath) (content : string) (n : node) : node :=
  match p with
  | [] =>
      match n with
      | File name r w _ => File name r w content
      | Dir _ _ => n
      end
  | c :: p' =>
      match n with
      | Dir name entries => Dir name (update_child c (write_at p' content) entries)
      | File _ _ _ _ => n
      end
  end.

(** [out << content] on an open [std::ofstream] for [p]. *)
Definition write (root : node) (p : string) (content : string) : node :=
  match resolve root p with
  | Some c => write_at c content root
  | None => root
  end.

End Fs.

(** ** The regular expressions of the tool

    Each [std::regex] of the source is written out as the matcher it
    denotes.  In all of them but two, every repeated character class is
    followed by a character outside the class, so the backtracking matcher
    has one way to match and reading the longest run of the class is exact;
    the two exceptions ([glob_pattern] and [file_pattern]) say how they
    backtrack.  A matcher is applied at the start of a string and answers the
    capture groups and what is left after the match. *)
Module Regex.

Definition matcher : Type := string -> option (list string * string).

(** White space, as the class s of the expressions has it. *)
Definition is_space (c : ascii) : bool :=
  let n := N_of_ascii c in (n =? 32)%N || ((9 <=? n)%N && (n <=? 13)%N).

Definition is_upper (c : ascii) : bool :=
  let n := N_of_ascii c in (65 <=? n)%N && (n <=? 90)%N.
Definition is_lower (c : ascii) : bool :=
  let n := N_of_ascii c in (97 <=? n)%N && (n <=? 122)%N.
Definition is_digit (c : ascii) : bool :=
  let n := N_of_ascii c in (48 <=? n)%N && (n <=? 57)%N.

(** [[a-zA-Z_]] *)
Definition is_name_start (c : ascii) : bool :=
  is_lower c || is_upper c || Ascii.eqb c "_".
(** [[a-zA-Z_:]] *)
Definition is_import_start (c : ascii) : bool :=
  is_name_start c || Ascii.eqb c ":".
(** [[a-zA-Z0-9_.:]] *)
Definition is_name_char (c : ascii) : bool :=
  is_lower c || is_upper c || is_digit c
  || Ascii.eqb c "_" || Ascii.eqb c "." || Ascii.eqb c ":".

Definition is_not (x : ascii) (c : ascii) : bool := negb (Ascii.eqb c x).

(** The double quote, as a character and as a string. *)
Definition dquote : ascii := Ascii false true false false false true false false.
Definition DQ : string := String dquote "".

(** The longest prefix of [s] made of characters of [cls], and the rest. *)
Fixpoint span (cls : ascii -> bool) (s : string) : string * string :=
  match s with
  | EmptyString => ("", "")
  | String a s' =>
      if cls a then let '(x, r) := span cls s' in (String a x, r)
      else ("", s)
  end.

(** A literal. *)
Definition lit (p s : string) : option string :=
  if Str.starts_with s p then Some (Str.drop (String.length p) s) else None.

(** [cls*] and [cls+], when what follows is outside [cls]. *)
Definition star (cls : ascii -> bool) (s : string) : string := (span cls s).2.
Definition plus (cls : ascii -> bool) (s : string) : option (string * string) :=
  match span cls s with
  | (EmptyString, _) => None
  | r => Some r
  end.

(** One character of [cls]. *)
Definition one (cls : ascii -> bool) (s : string) : option (ascii * string) :=
  match s with
  | String a s' => if cls a then Some (a, s') else None
  | EmptyString => None
  end.

(** [export_module_regex]: the word export, white space, the word module,
    white space, a name (group 1: a letter or underscore, then letters,
    digits, underscores, dots and colons), optional white space and a
    semicolon. *)
Definition export_module_regex : matcher := fun s =>
  s ← lit "export" s; r ← plus is_space s;
  s ← lit "module" r.2; r ← plus is_space s;
  h ← one is_name_start r.2;
  let t := span is_name_char h.2 in
  s ← lit ";" (star is_space t.2);
  Some ([String h.1 t.1], s).

(** The end of both import expressions: a name that may also start with a
    colon (group 1), optional white space and a semicolon. *)
Definition import_tail (s : string) : option (list string * string) :=
  h ← one is_import_start s;
  let t := span is_name_char h.2 in
  s ← lit ";" (star is_space t.2);
  Some ([String h.1 t.1], s).

(** [import_module_regex]: the word import, white space, the name. *)
Definition import_module_regex : matcher := fun s =>
  s ← lit "import" s; r ← plus is_space s;
  import_tail r.2.

(** [export_import_regex]: export, white space, import, white space, the
    name. *)
Definition export_import_regex : matcher := fun s =>
  s ← lit "export" s; r ← plus is_space s;
  s ← lit "import" r.2; r ← plus is_space s;
  import_tail r.2.

(** An opening parenthesis, the word name, an equals sign and a double
    quote, each after optional white space. *)
Definition name_field (s : string) : option string :=
  s ← lit "(" (star is_space s);
  s ← lit "name" (star is_space s);
  s ← lit "=" (star is_space s);
  lit DQ (star is_space s).

(** [build_target_regex]: one of the two rule names (group 1), the name
    field up to its quote, the target name (group 2: one or more
    characters other than a double quote) and the closing quote. *)
Definition build_target_regex : matcher := fun s =>
  k ← match lit "cc_module_library" s with
      | Some r => Some ("cc_module_library", r)
      | None => r ← lit "cc_module_binary" s; Some ("cc_module_binary", r)
      end;
  s ← name_field k.2;
  n ← plus (is_not dquote) s;
  s ← lit DQ n.2;
  Some ([k.1; n.1], s).

(** The value of the field: a bracketed list without a closing bracket
    inside, or else glob, an opening parenthesis, anything but a closing
    parenthesis, and a closing parenthesis. *)
Definition interfaces_value (s : string) : option (string * string) :=
  match lit "[" s with
  | Some r =>
      let b := span (is_not "]") r in
      s' ← lit "]" b.2; Some ("[" ++ b.1 ++ "]", s')
  | None =>
      r ← lit "glob(" s;
      let b := span (is_not ")") r in
      s' ← lit ")" b.2; Some ("glob(" ++ b.1 ++ ")", s')
  end.

(** [module_interfaces_regex]: the field name, an equals sign and the
    value (group 1), with optional white space between them. *)
Definition module_interfaces_regex : matcher := fun s =>
  s ← lit "module_interfaces" s;
  s ← lit "=" (star is_space s);
  v ← interfaces_value (star is_space s);
  Some ([v.1], v.2).

(** The last character of a string, as a string. *)
Fixpoint last_char (s : string) : string :=
  match s with
  | EmptyString => ""
  | String a EmptyString => s
  | String _ s' => last_char s'
  end.

(** [glob_pattern]: glob, an opening parenthesis, an opening bracket, the
    group (one or more characters other than a closing bracket), a closing
    bracket and a closing parenthesis, with optional white space before
    each but the first.  The group is the run up to the
    first [']'] without its leading white space; when that run is white
    space only, the white space before the group gives back its last character,
    which becomes the group.  The white space after the group matches nothing:
    the group has already taken every character before [']']. *)
Definition glob_pattern : matcher := fun s =>
  s ← lit "glob(" s;
  s ← lit "[" (star is_space s);
  let run := span (is_not "]") s in
  let ws := span is_space run.1 in
  g ← match ws.2, ws.1 with
      | String _ _, _ => Some ws.2
      | EmptyString, String _ _ => Some (last_char ws.1)
      | EmptyString, EmptyString => None
      end;
  s ← lit "]" run.2;
  s ← lit ")" (star is_space s);
  Some ([g], s).

(** [glob_expr_pattern]: one or more characters other than a double quote
    (group 1) between double quotes. *)
Definition glob_expr_pattern : matcher := fun s =>
  s ← lit DQ s;
  n ← plus (is_not dquote) s;
  s ← lit DQ n.2;
  Some ([n.1], s).

(** [file_pattern]: between double quotes, one or more characters other
    than a double quote followed by [.ixx] (group 1).  The class takes the whole run up to the next
    quote and gives back its last four characters, which have to be
    [.ixx], with at least one character left before them. *)
Definition file_pattern : matcher := fun s =>
  s ← lit DQ s;
  let n := span (is_not dquote) s in
  s ← lit DQ n.2;
  if Str.ends_with n.1 ".ixx" && (5 <=? String.length n.1)%nat
  then Some ([n.1], s) else None.

(** [existing_deps_regex]: the field name, an equals sign, an opening
    brace, anything but a closing brace, a closing brace and a comma if
    there is one. *)
Definition existing_deps_regex : matcher := fun s =>
  s ← lit "module_dependencies" s;
  s ← lit "=" (star is_space s);
  s ← lit "{" (star is_space s);
  s ← lit "}" (star (is_not "}") s);
  Some ([], match lit "," s with Some r => r | None => s end).

(** The characters with a meaning of their own in the pattern of a
    [std::regex]. *)
Definition special (c : ascii) : bool :=
  match Str.find_char c "^$\.*+?()[]{}|" with Some _ => true | None => false end.

(** A string that, taken as a pattern, stands for itself. *)
Fixpoint literal (s : string) : bool :=
  match s with
  | EmptyString => true
  | String c s' => negb (special c) && literal s'
  end.

(** [target_pattern]: the type, the name field up to its quote, the name
    and the closing quote, for a type
    and a name that contain no character special to regular expressions:
    both then stand for themselves.  The type is one of the two rule names
    and is [literal]; for a name that is not, the pattern of the source is
    another one, or none at all (the constructor of [std::regex] throws
    [std::regex_error]), and this definition does not describe it. *)
Definition target_regex (type name : string) : matcher := fun s =>
  s ← lit type s;
  s ← name_field s;
  s ← lit name s;
  s ← lit DQ s;
  Some ([type], s).

(** A match: where it starts, its length and its groups ([str] is group
    0, the groups of the expression follow). *)
Record smatch : Type := mk_smatch {
  position : nat;
  length : nat;
  groups : list string
}.

(** [m.str(i)] for [i >= 1]. *)
Definition str (m : smatch) (i : nat) : string := nth (pred i) (groups m) "".

Definition match_at (r : matcher) (pos : nat) (s : string) : option smatch :=
  res ← r s;
  Some (mk_smatch pos (String.length s - String.length res.2) res.1).

(** [std::regex_search]: the leftmost match. *)
Fixpoint search_from (r : matcher) (pos : nat) (s : string) : option smatch :=
  match match_at r pos s with
  | Some m => Some m
  | None =>
      match s with
      | EmptyString => None
      | String _ s' => search_from r (S pos) s'
      end
  end.

Definition regex_search (r : matcher) (s : string) : option smatch :=
  search_from r 0 s.

(** [std::sregex_iterator]: the successive matches, each search starting
    where the previous match ended ([skip] characters are still to be
    passed over).  No expression of the tool matches the empty string. *)
Fixpoint iterate_from (r : matcher) (skip pos : nat) (s : string) : list smatch :=
  match skip with
  | S k =>
      match s with
      | EmptyString => []
      | String _ s' => iterate_from r k (S pos) s'
      end
  | 0 =>
      match match_at r pos s with
      | Some m =>
          m :: match s with
               | EmptyString => []
               | String _ s' => iterate_from r (pred (length m)) (S pos) s'
               end
      | None =>
          match s with
          | EmptyString => []
          | String _ s' => iterate_from r 0 (S pos) s'
          end
      end
  end.

Definition sregex_iterator (r : matcher) (s : string) : list smatch :=
  iterate_from r 0 0 s.

(** [std::regex_replace(s, r, fmt)] for a [fmt] without a dollar sign: every
    match is replaced by [fmt]. *)
Fixpoint replace_from (r : matcher) (fmt : string) (skip : nat) (s : string) : string :=
  match skip with
  | S k =>
      match s with
      | EmptyString => ""
      | String _ s' => replace_from r fmt k s'
      end
  | 0 =>
      match match_at r 0 s with
      | Some m =>
          fmt ++ match s with
                 | EmptyString => ""
                 | String _ s' => replace_from r fmt (pred (length m)) s'
                 end
      | None =>
          match s with
          | EmptyString => ""
          | String a s' => String a (replace_from r fmt 0 s')
          end
      end
  end.

Definition regex_replace (s : string) (r : matcher) (fmt : string) : string :=
  replace_from r fmt 0 s.

End Regex.


(** ** The scanner *)

(** The line feed and the double quote of the string literals. *)
Definition NL : string := String (Ascii false true false true false false false false) "".
Definition DQ : string := Regex.DQ.

Definition MAX_READ_SIZE : N := 8192.

(** [file.read(content.data(), n)]: at most the first [n] bytes. *)
Fixpoint read_prefix (n : N) (s : string) : string :=
  match s with
  | EmptyString => ""
  | String a s' => if (n =? 0)%N then "" else String a (read_prefix (N.pred n) s')
  end.

(** [validateFilenameModuleName]: the answer and [expected_filename]. *)
Definition validateFilenameModuleName (filename module_name : string) : bool * string :=
  let base_name :=
    if Str.ends_with filename ".ixx"
    then Str.substr filename 0 (String.length filename - 4)
    else filename in
  let expected_filename := Str.replace_char ":" "-" module_name ++ ".ixx" in
  (String.eqb base_name
     (Str.substr expected_filename 0 (String.length expected_filename - 4)),
   expected_filename).

(** The test both import loops apply to a captured name. *)
Definition is_module_import (import_name : string) : bool :=
  negb (String.eqb import_name "")
  && negb (Str.ends_with import_name ".h")
  && negb (Str.ends_with import_name ".hpp").

Definition imports_by (r : Regex.matcher) (content : string) : list string :=
  List.filter is_module_import ((fun m => Regex.str m 1) <$> Regex.sregex_iterator r content).

(** [extractModuleInfo].  The record is the initial one when the stream
    is not open, and also when it is open on a directory: [file.read] then
    reads no character, and nothing is found in the empty text. *)
Definition extractModuleInfo (root : Fs.node) (file_path : string) : ModuleInfo.t :=
  match Fs.read root file_path with
  | None => ModuleInfo.mk "" [] file_path true ""
  | Some bytes =>
      let content := read_prefix MAX_READ_SIZE bytes in
      let imports :=
        Str.sort_unique (imports_by Regex.import_module_regex content
                         ++ imports_by Regex.export_import_regex content)%list in
      match Regex.regex_search Regex.export_module_regex content with
      | Some m =>
          let name := Regex.str m 1 in
          let v := validateFilenameModuleName (Fs.filename file_path) name in
          ModuleInfo.mk name imports file_path v.1 v.2
      | None => ModuleInfo.mk "" imports file_path true ""
      end
  end.

(** The [.ixx] files the scan collects under the project root. *)
Definition collect_ixx_files (root : Fs.node) (project_root : string) : list string :=
  Fs.path <$>
    List.filter (fun entry => Fs.regular entry && String.eqb (Fs.extension (Fs.path entry)) ".ixx")
                (Fs.recursive_directory_iterator root project_root).

(** The task one worker runs on [ixx_files[start .. end)]. *)
Definition worker (root : Fs.node) (ixx_files : list string) (start end_ : N)
  : list ModuleInfo.t :=
  List.filter (fun info => negb (String.eqb (ModuleInfo.name info) ""))
    (extractModuleInfo root <$>
       take (N.to_nat (end_ - start)) (drop (N.to_nat start) ixx_files)).

(** The loop that starts the workers: [todo] iterations are left, the next
    one has index [i] and begins at [start]. *)
Fixpoint spawn (root : Fs.node) (ixx_files : list string) (chunk_size remainder : N)
    (todo : nat) (i start : N) : list (list ModuleInfo.t) :=
  match todo with
  | 0 => []
  | S todo' =>
      let end_ := (start + chunk_size + (if (i <? remainder)%N then 1 else 0))%N in
      worker root ixx_files start end_
      :: spawn root ixx_files chunk_size remainder todo' (i + 1)%N end_
  end.

(** Where the loop of [spawn] stops: [todo] chunks further, of which those
    with an index below [remainder] have one file more. *)
Definition last_end (chunk_size remainder : N) (todo : nat) (i start : N) : N :=
  (start + N.of_nat todo * chunk_size
   + (N.min (i + N.of_nat todo) remainder - N.min i remainder))%N.

(** The loop that collects the results, future by future. *)
Definition merge_results (modules : gmap string ModuleInfo.t)
    (futures : list (list ModuleInfo.t)) : gmap string ModuleInfo.t :=
  foldl (fun modules results =>
           foldl (fun modules info => <[ModuleInfo.name info := info]> modules)
                 modules results)
        modules futures.

(** The scan of a file list with [num_threads] workers; dividing by zero
    workers has no defined result. *)
Definition scan_files (root : Fs.node) (num_threads : N) (ixx_files : list string)
    (modules : gmap string ModuleInfo.t) : option (gmap string ModuleInfo.t) :=
  if (num_threads =? 0)%N then None
  else
    let size := N.of_nat (List.length ixx_files) in
    let chunk_size := (size / num_threads)%N in
    let remainder := (size mod num_threads)%N in
    Some (merge_results modules
            (spawn root ixx_files chunk_size remainder (N.to_nat num_threads) 0 0)).

(** The reference the parallel scan is compared with: the files are parsed
    one after the other, in the order of the list, and each informative
    result is stored as soon as it is there. *)
Definition scan_sequential (root : Fs.node) (ixx_files : list string)
    (modules : gmap string ModuleInfo.t) : gmap string ModuleInfo.t :=
  foldl (fun modules file =>
           let info := extractModuleInfo root file in
           if negb (String.eqb (ModuleInfo.name info) "") then
             <[ModuleInfo.name info := info]> modules
           else modules)
        modules ixx_files.

(** [std::min(hardware_concurrency(), static_cast<unsigned int>(size))]. *)
Definition worker_count (hardware_concurrency : N) (ixx_files : list string) : N :=
  N.min hardware_concurrency (N.of_nat (List.length ixx_files) mod 2 ^ 32).

(** [scanProjectModules]: the two tables it fills. *)
Definition scanProjectModules (hardware_concurrency : N) (root : Fs.node)
    (project_root : string)
    (modules : gmap string ModuleInfo.t) (module_deps : gmap string (list string))
  : option (gmap string ModuleInfo.t * gmap string (list string)) :=
  let ixx_files := collect_ixx_files root project_root in
  modules' ← scan_files root (worker_count hardware_concurrency ixx_files) ixx_files modules;
  Some (modules', processModuleDependencies modules' module_deps).

(** The loop of [scanProjectModules] that collects the files is left by
    the exception of the iterator when the project root is not a
    directory. *)
Definition scanProjectModules_throws (root : Fs.node) (project_root : string) : bool :=
  Fs.iterator_throws root project_root.

(** ** The descriptor reader *)

(** The loop that looks for the parenthesis closing a target: the position
    it stops at and [paren_count] there. *)
Fixpoint scan_parens (s : string) (pos : nat) (paren_count : Z) (found_open : bool)
  : nat * Z :=
  match s with
  | EmptyString => (pos, paren_count)
  | String c s' =>
      if Ascii.eqb c "(" then scan_parens s' (S pos) (paren_count + 1)%Z true
      else if Ascii.eqb c ")" then
        if found_open && (paren_count - 1 =? 0)%Z then (pos, (paren_count - 1)%Z)
        else scan_parens s' (S pos) (paren_count - 1)%Z found_open
      else scan_parens s' (S pos) paren_count found_open
  end.

(** The text of the target that starts at [start_pos], when its
    parentheses balance. *)
Definition target_extent (content : string) (start_pos : nat) : option (nat * string) :=
  let '(pos, paren_count) := scan_parens (Str.drop start_pos content) start_pos 0 false in
  if (paren_count =? 0)%Z
  then Some (pos, Str.substr content start_pos (pos - start_pos + 1))
  else None.

Definition add_interface (target : BuildTarget.t) (file : string) : BuildTarget.t :=
  BuildTarget.mk (BuildTarget.name target) (BuildTarget.type target)
    (BuildTarget.module_interfaces target ++ [file])%list
    (BuildTarget.module_dependencies target).

Definition suffix : string := "*.ixx".
Definition suffix_recursive : string := "**/*.ixx".

(** The directory a glob expression names: the expression without its
    wildcard suffix and without one trailing slash. *)
Definition glob_dir (glob_expr wildcard : string) : string :=
  let dir_path := Str.substr glob_expr 0 (String.length glob_expr - String.length wildcard) in
  if Str.ends_with dir_path "/"
  then Str.substr dir_path 0 (String.length dir_path - 1)
  else dir_path.

Definition processGlobExpression (root : Fs.node) (glob_expr : string)
    (target : BuildTarget.t) (project_root : string) : BuildTarget.t :=
  if Str.ends_with glob_expr suffix_recursive then
    let full_dir_path := Fs.append project_root (glob_dir glob_expr suffix_recursive) in
    if Fs.exists_ root full_dir_path then
      foldl (fun target entry =>
               if Fs.regular entry && String.eqb (Fs.extension (Fs.path entry)) ".ixx"
               then add_interface target (Fs.relative (Fs.path entry) project_root)
               else target)
            target (Fs.recursive_directory_iterator root full_dir_path)
    else target
  else if Str.ends_with glob_expr suffix then
    let full_dir_path := Fs.append project_root (glob_dir glob_expr suffix) in
    if Fs.exists_ root full_dir_path then
      foldl (fun target entry =>
               if String.eqb (Fs.extension (Fs.path entry)) ".ixx"
               then add_interface target (Fs.relative (Fs.path entry) project_root)
               else target)
            target (Fs.directory_iterator root full_dir_path)
    else target
  else target.

(** The paths one expansion adds for the entries a directory iterator has
    handed out: the recursive expansion keeps regular files only. *)
Definition expansion (entries : list Fs.directory_entry) (regular_only : bool)
    (project_root : string) : list string :=
  (fun entry => Fs.relative (Fs.path entry) project_root) <$>
    List.filter (fun entry =>
                   (if regular_only then Fs.regular entry else true)
                   && String.eqb (Fs.extension (Fs.path entry)) ".ixx")
                entries.

(** The paths [processGlobExpression] adds to the interfaces of a target. *)
Definition glob_expansion (root : Fs.node) (glob_expr project_root : string) : list string :=
  if Str.ends_with glob_expr suffix_recursive then
    let full_dir_path := Fs.append project_root (glob_dir glob_expr suffix_recursive) in
    if Fs.exists_ root full_dir_path
    then expansion (Fs.recursive_directory_iterator root full_dir_path) true project_root
    else []
  else if Str.ends_with glob_expr suffix then
    let full_dir_path := Fs.append project_root (glob_dir glob_expr suffix) in
    if Fs.exists_ root full_dir_path
    then expansion (Fs.directory_iterator root full_dir_path) false project_root
    else []
  else [].

Definition parseModuleInterfaces (root : Fs.node) (interfaces_str : string)
    (target : BuildTarget.t) (project_root : string) : BuildTarget.t :=
  match Str.find_str "glob(" interfaces_str with
  | Some _ =>
      match Regex.regex_search Regex.glob_pattern interfaces_str with
      | Some glob_match =>
          let glob_content := Regex.str glob_match 1 in
          foldl (fun target m => processGlobExpression root (Regex.str m 1) target project_root)
                target (Regex.sregex_iterator Regex.glob_expr_pattern glob_content)
      | None => target
      end
  | None =>
      foldl (fun target m => add_interface target (Regex.str m 1))
            target (Regex.sregex_iterator Regex.file_pattern interfaces_str)
  end.

(** The body of the loop of [parseBuildFile] for one match of
    [build_target_regex]. *)
Definition parse_target (root : Fs.node) (build_file_path content : string)
    (build_targets : gmap string BuildTarget.t) (m : Regex.smatch)
  : gmap string BuildTarget.t :=
  let target_type := Regex.str m 1 in
  let target_name := Regex.str m 2 in
  let target := BuildTarget.mk target_name target_type [] ∅ in
  match target_extent content (Regex.position m) with
  | Some (_, target_content) =>
      let target :=
        match Regex.regex_search Regex.module_interfaces_regex target_content with
        | Some interfaces_match =>
            parseModuleInterfaces root (Regex.str interfaces_match 1) target
              (Fs.parent_path build_file_path)
        | None => target
        end in
      <[target_name := target]> build_targets
  | None => build_targets
  end.

Definition parseBuildFile (root : Fs.node) (build_file_path : string)
    (build_targets : gmap string BuildTarget.t) : gmap string BuildTarget.t :=
  match Fs.read root build_file_path with
  | None => build_targets
  | Some content =>
      foldl (parse_target root build_file_path content) build_targets
            (Regex.sregex_iterator Regex.build_target_regex content)
  end.

(** *** The calls of the reader that an exception leaves *)

(** [processGlobExpression] constructs an iterator once [fs::exists] has
    answered yes: the constructor throws when the path of the pattern is
    there and is not a directory. *)
Definition processGlobExpression_throws (root : Fs.node)
    (glob_expr project_root : string) : bool :=
  if Str.ends_with glob_expr suffix_recursive then
    let full_dir_path := Fs.append project_root (glob_dir glob_expr suffix_recursive) in
    Fs.exists_ root full_dir_path && Fs.iterator_throws root full_dir_path
  else if Str.ends_with glob_expr suffix then
    let full_dir_path := Fs.append project_root (glob_dir glob_expr suffix) in
    Fs.exists_ root full_dir_path && Fs.iterator_throws root full_dir_path
  else false.

(** [parseModuleInterfaces] is left by the exception of one of the
    patterns of its glob group. *)
Definition parseModuleInterfaces_throws (root : Fs.node)
    (interfaces_str project_root : string) : bool :=
  match Str.find_str "glob(" interfaces_str with
  | Some _ =>
      match Regex.regex_search Regex.glob_pattern interfaces_str with
      | Some glob_match =>
          existsb (fun m => processGlobExpression_throws root (Regex.str m 1) project_root)
                  (Regex.sregex_iterator Regex.glob_expr_pattern (Regex.str glob_match 1))
      | None => false
      end
  | None => false
  end.

(** The body of the loop of [parseBuildFile] for one match: whether an
    exception leaves it. *)
Definition parse_target_throws (root : Fs.node) (build_file_path content : string)
    (m : Regex.smatch) : bool :=
  match target_extent content (Regex.position m) with
  | Some (_, target_content) =>
      match Regex.regex_search Regex.module_interfaces_regex target_content with
      | Some interfaces_match =>
          parseModuleInterfaces_throws root (Regex.str interfaces_match 1)
            (Fs.parent_path build_file_path)
      | None => false
      end
  | None => false
  end.

(** [parseBuildFile] is left by an exception when the descriptor is a
    directory (the stream is open and the read through
    [std::istreambuf_iterator] fails) and when the field of one of its
    targets makes [parseModuleInterfaces] throw. *)
Definition parseBuildFile_throws (root : Fs.node) (build_file_path : string) : bool :=
  Fs.read_fails root build_file_path
  || match Fs.read root build_file_path with
     | Some content =>
         existsb (parse_target_throws root build_file_path content)
                 (Regex.sregex_iterator Regex.build_target_regex content)
     | None => false
     end.

(** ** The target-dependency calculator *)

Definition set_dependency (target : BuildTarget.t) (module_name : string)
    (deps : list string) : BuildTarget.t :=
  BuildTarget.mk (BuildTarget.name target) (BuildTarget.type target)
    (BuildTarget.module_interfaces target)
    (<[module_name := deps]> (BuildTarget.module_dependencies target)).

Definition target_dependencies (root : Fs.node) (project_root : string)
    (module_deps : gmap string (list string)) (target : BuildTarget.t) : BuildTarget.t :=
  foldl (fun target interface_file =>
           let file_path := Fs.append (Fs.append project_root "src") interface_file in
           if Fs.exists_ root file_path then
             let info := extractModuleInfo root file_path in
             if negb (String.eqb (ModuleInfo.name info) "") then
               match module_deps !! ModuleInfo.name info with
               | Some deps => set_dependency target (ModuleInfo.name info) deps
               | None => target
               end
             else target
           else target)
        target (BuildTarget.module_interfaces target).

Definition calculateTargetDependencies (root : Fs.node) (project_root : string)
    (module_deps : gmap string (list string))
    (build_targets : gmap string BuildTarget.t) : gmap string BuildTarget.t :=
  target_dependencies root project_root module_deps <$> build_targets.

(** ** The descriptor patcher *)

(** [s] between double quotes. *)
Definition quoted (s : string) : string := DQ ++ s ++ DQ.

(** One line of the block: a module and the list of its dependencies. *)
Definition deps_line (entry : string * list string) : string :=
  "        " ++ quoted entry.1 ++ ": [" ++ Str.join ", " (quoted <$> entry.2) ++ "]," ++ NL.

(** The modules of a target whose file name is not the expected one, as
    the warning names them. *)
Definition invalid_modules (modules : gmap string ModuleInfo.t)
    (target : BuildTarget.t) : list string :=
  omap (fun entry : string * list string =>
          match modules !! entry.1 with
          | Some info =>
              if negb (ModuleInfo.filename_valid info)
              then Some (entry.1 ++ " (期望: " ++ ModuleInfo.expected_filename info ++ ")")
              else None
          | None => None
          end)
       (map_to_list (BuildTarget.module_dependencies target)).

(** The text of the [module_dependencies] field of a target.  The source
    writes the modules in the order in which it iterates over a
    [std::unordered_map], which the language leaves open; here it is the
    order of [map_to_list].  For a target with one module there is one
    order. *)
Definition new_module_deps (modules : gmap string ModuleInfo.t)
    (target : BuildTarget.t) : string :=
  "module_dependencies = {" ++ NL
  ++ String.concat "" (deps_line <$> map_to_list (BuildTarget.module_dependencies target))
  ++ "    }"
  ++ match invalid_modules modules target with
     | [] => ""
     | invalid => ", # 警告: 以下模块文件名不规范: " ++ Str.join ", " invalid
     end
  ++ ",".

(** The loop that looks for the comma ending the [module_interfaces]
    field: the position of the first comma met at depth zero. *)
Fixpoint scan_field (s : string) (line_pos : nat) (depth : Z) : option nat :=
  match s with
  | EmptyString => None
  | String c s' =>
      if Ascii.eqb c "[" || Ascii.eqb c "(" then scan_field s' (S line_pos) (depth + 1)%Z
      else if Ascii.eqb c "]" || Ascii.eqb c ")" then scan_field s' (S line_pos) (depth - 1)%Z
      else if Ascii.eqb c "," && (depth =? 0)%Z then Some line_pos
      else scan_field s' (S line_pos) depth
  end.

(** The text of a target with the block added after its
    [module_interfaces] field, when that field and its end are found. *)
Definition insert_deps (target_content deps : string) : option string :=
  interfaces_pos ← Str.find_str "module_interfaces" target_content;
  equals_pos ← Str.find_char_from "=" interfaces_pos target_content;
  line_pos ← scan_field (Str.drop (equals_pos + 1) target_content) (equals_pos + 1) 0;
  let interfaces_line :=
    Str.substr target_content interfaces_pos (line_pos - interfaces_pos + 1) in
  Some (Str.replace target_content interfaces_pos (line_pos - interfaces_pos + 1)
          (interfaces_line ++ NL ++ "    " ++ deps)).

(** The body of the loop of [updateBuildFile]: the edit of one target. *)
Definition patch_target (modules : gmap string ModuleInfo.t) (content : string)
    (entry : string * BuildTarget.t) : string :=
  let target_name := entry.1 in
  let target := entry.2 in
  if decide (BuildTarget.module_dependencies target = ∅) then content
  else
    let deps := new_module_deps modules target in
    match Regex.regex_search (Regex.target_regex (BuildTarget.type target) target_name) content with
    | None => content
    | Some target_match =>
        let start_pos := Regex.position target_match in
        match target_extent content start_pos with
        | None => content
        | Some (pos, target_content) =>
            match Regex.regex_search Regex.existing_deps_regex target_content with
            | Some _ =>
                Str.replace content start_pos (pos - start_pos + 1)
                  (Regex.regex_replace target_content Regex.existing_deps_regex deps)
            | None =>
                match insert_deps target_content deps with
                | Some new_target_content =>
                    Str.replace content start_pos (pos - start_pos + 1) new_target_content
                | None => content
                end
            end
        end
    end.

(** The text [updateBuildFile] has computed when its loop ends. *)
Definition patched_content (modules : gmap string ModuleInfo.t)
    (build_targets : gmap string BuildTarget.t) (original_content : string) : string :=
  foldl (patch_target modules) original_content (map_to_list build_targets).

(** What [updateBuildFile] hands to the output stream: nothing when the
    file cannot be read or the computed text is the original one. *)
Definition text_to_write (root : Fs.node) (build_file_path : string)
    (modules : gmap string ModuleInfo.t) (build_targets : gmap string BuildTarget.t)
  : option string :=
  match Fs.read root build_file_path with
  | None => None
  | Some original_content =>
      let content := patched_content modules build_targets original_content in
      if negb (String.eqb content original_content) then Some content else None
  end.

(** [updateBuildFile]: the snapshot it leaves. *)
Definition updateBuildFile (root : Fs.node) (build_file_path : string)
    (modules : gmap string ModuleInfo.t) (build_targets : gmap string BuildTarget.t)
  : Fs.node :=
  match text_to_write root build_file_path modules build_targets with
  | Some content =>
      if Fs.can_write root build_file_path
      then Fs.write root build_file_path content
      else root
  | None => root
  end.

(** [updateBuildFile] reads the descriptor as [parseBuildFile] does, and
    is left by the same exception when the descriptor is a directory. *)
Definition updateBuildFile_throws (root : Fs.node) (build_file_path : string) : bool :=
  Fs.read_fails root build_file_path.

(** ** The program *)

(** What a run leaves behind: its exit code, the text it opened the
    descriptor file for writing with (if it did) and the file system. *)
Record run : Type := mk_run {
  exit_code : Z;
  write_attempt : option string;
  final : Fs.node
}.

(** A run ends, or divides by zero in [scanProjectModules], or is ended by
    [std::terminate] for an exception that nothing catches. *)
Inductive outcome : Type :=
| Finished (r : run)
| DivisionByZero
| UncaughtException.

(** The descriptor file: [src/BUILD] under the project root, or else
    [BUILD] in the project root. *)
Definition find_build_file (root : Fs.node) (project_root : string) : option string :=
  let build_file_path := Fs.append (Fs.append project_root "src") "BUILD" in
  if Fs.exists_ root build_file_path then Some build_file_path
  else
    let build_file_path := Fs.append project_root "BUILD" in
    if Fs.exists_ root build_file_path then Some build_file_path else None.

(** The first three steps of [main]: the module table and the build
    targets with their dependencies, as [updateBuildFile] finds them. *)
Definition scanner_state (hardware_concurrency : N) (root : Fs.node)
    (project_root build_file_path : string)
  : option (gmap string ModuleInfo.t * gmap string BuildTarget.t) :=
  let build_targets := parseBuildFile root build_file_path ∅ in
  tables ← scanProjectModules hardware_concurrency root project_root ∅ ∅;
  Some (tables.1, calculateTargetDependencies root project_root tables.2 build_targets).

Definition main (hardware_concurrency : N) (root : Fs.node) (argv : list string) : outcome :=
  match argv with
  | _ :: project_root :: _ =>
      if negb (Fs.exists_ root project_root) then Finished (mk_run 1 None root)
      else
        match find_build_file root project_root with
        | None => Finished (mk_run 1 None root)
        | Some build_file_path =>
            if parseBuildFile_throws root build_file_path then UncaughtException
            else if scanProjectModules_throws root project_root then UncaughtException
            else
              match scanner_state hardware_concurrency root project_root build_file_path with
              | None => DivisionByZero
              | Some (modules, build_targets) =>
                  if updateBuildFile_throws root build_file_path then UncaughtException
                  else
                    Finished
                      (mk_run 0
                         (text_to_write root build_file_path modules build_targets)
                         (updateBuildFile root build_file_path modules build_targets))
              end
        end
  | _ => Finished (mk_run 1 None root)
  end.

(** The setup errors of [main]: no project root on the command line, a
    project root that does not exist, no descriptor file. *)
Definition fatal_setup (root : Fs.node) (argv : list string) : bool :=
  match argv with
  | _ :: project_root :: _ =>
      negb (Fs.exists_ root project_root)
      || negb (Fs.exists_ root (Fs.append (Fs.append project_root "src") "BUILD"))
         && negb (Fs.exists_ root (Fs.append project_root "BUILD"))
  | _ => true
  end.

(** The descriptor file exists and cannot be read: its stream does not
    open. *)
Definition descriptor_unreadable (root : Fs.node) (argv : list string) : bool :=
  match argv with
  | _ :: project_root :: _ =>
      match find_build_file root project_root with
      | Some build_file_path => negb (Fs.is_open root build_file_path)
      | None => false
      end
  | _ => false
  end.

(** The descriptor makes the reader throw: it is a directory, or one of
    its glob patterns names something that is not a directory. *)
Definition reader_throws (root : Fs.node) (argv : list string) : bool :=
  match argv with
  | _ :: project_root :: _ =>
      match find_build_file root project_root with
      | Some build_file_path => parseBuildFile_throws root build_file_path
      | None => false
      end
  | _ => false
  end.

(** The names of the targets of the descriptor stand for themselves in
    the pattern [updateBuildFile] builds from them. *)
Definition plain_target_names (root : Fs.node) (argv : list string) : bool :=
  match argv with
  | _ :: project_root :: _ =>
      match find_build_file root project_root with
      | Some build_file_path =>
          forallb (fun entry : string * BuildTarget.t => Regex.literal entry.1)
                  (map_to_list (parseBuildFile root build_file_path ∅))
      | None => true
      end
  | _ => true
  end.

(** The number of workers [main] would start. *)
Definition workers_of (hardware_concurrency : N) (root : Fs.node) (argv : list string) : N :=
  match argv with
  | _ :: project_root :: _ =>
      worker_count hardware_concurrency (collect_ixx_files root project_root)
  | _ => 0
  end.

(** A module name as the module declaration captures it: not empty, not
    starting with a colon. *)
Definition module_name_like (name : string) : Prop :=
  name ≠ "" ∧ Str.starts_with name ":" = false.

(** ** Predicates of the statements *)

(** Every character of [s] is in the class [cls]. *)
Fixpoint all_in (cls : ascii -> bool) (s : string) : bool :=
  match s with
  | EmptyString => true
  | String a s' => cls a && all_in cls s'
  end.

(** [n] spaces. *)
Fixpoint spaces (n : nat) : string :=
  match n with
  | 0 => ""
  | S n' => String " " (spaces n')
  end.

(** What the two import expressions capture: a name that starts with a
    letter, an underscore or a colon and goes on with name characters. *)
Definition import_like (name : string) : Prop :=
  ∃ a t, name = String a t ∧ Regex.is_import_start a = true
         ∧ all_in Regex.is_name_char t = true.

(** What the module declaration captures: a name that starts with a letter
    or an underscore and goes on with name characters. *)
Definition declared_name_like (name : string) : Prop :=
  ∃ a t, name = String a t ∧ Regex.is_name_start a = true
         ∧ all_in Regex.is_name_char t = true.

(** The opening parentheses of a text minus its closing ones. *)
Fixpoint paren_depth (s : string) : Z :=
  match s with
  | EmptyString => 0
  | String c s' =>
      ((if Ascii.eqb c "(" then 1 else if Ascii.eqb c ")" then -1 else 0)
       + paren_depth s')%Z
  end.

(** Two targets with the same fields other than the interfaces. *)
Definition same_fields (a b : BuildTarget.t) : Prop :=
  BuildTarget.name a = BuildTarget.name b
  ∧ BuildTarget.type a = BuildTarget.type b
  ∧ BuildTarget.module_dependencies a = BuildTarget.module_dependencies b.

(** The module an interface file of a target declares, when the file
    exists under [src] in the project root. *)
Definition declares (root : Fs.node) (project_root interface_file module_name : string)
  : Prop :=
  Fs.exists_ root (Fs.append (Fs.append project_root "src") interface_file) = true
  ∧ ModuleInfo.name
      (extractModuleInfo root (Fs.append (Fs.append project_root "src") interface_file))
    = module_name
  ∧ module_name ≠ "".

(** The body of the loop of [calculateTargetDependencies] over the
    interface files of a target. *)
Definition visit_interface (root : Fs.node) (project_root : string)
    (module_deps : gmap string (list string))
    (target : BuildTarget.t) (interface_file : string) : BuildTarget.t :=
  let file_path := Fs.append (Fs.append project_root "src") interface_file in
  if Fs.exists_ root file_path then
    let info := extractModuleInfo root file_path in
    if negb (String.eqb (ModuleInfo.name info) "") then
      match module_deps !! ModuleInfo.name info with
      | Some deps => set_dependency target (ModuleInfo.name info) deps
      | None => target
      end
    else target
  else target.

(** ** Sample inputs *)

(** A project whose one interface file declares the partition [p:a] and
    imports the bare partition [:a]. *)
Definition self_alias_tree : Fs.node :=
  Fs.Dir "" [Fs.Dir "p" [Fs.Dir "src" [
    Fs.File "BUILD" true true "";
    Fs.File "p-a.ixx" true true ("export module p:a;" ++ NL ++ "import :a;" ++ NL)]]].

(** The module table the scan of [self_alias_tree] builds. *)
Definition self_alias_modules : gmap string ModuleInfo.t :=
  {[ "p:a" := ModuleInfo.mk "p:a" [":a"] "/p/src/p-a.ixx" true "p-a.ixx" ]}.

(** A main module without imports and its two partitions. *)
Definition folding_modules : gmap string ModuleInfo.t :=
  <[ "p" := ModuleInfo.mk "p" [] "/r/src/p.ixx" true "p.ixx" ]>
  (<[ "p:a" := ModuleInfo.mk "p:a" [] "/r/src/p-a.ixx" true "p-a.ixx" ]>
   {[ "p:b" := ModuleInfo.mk "p:b" [] "/r/src/p-b.ixx" true "p-b.ixx" ]}).

(** The partition [p:a] importing the bare partition [:util]. *)
Definition bare_import_modules : gmap string ModuleInfo.t :=
  {[ "p:a" := ModuleInfo.mk "p:a" [":util"] "/r/src/p-a.ixx" true "p-a.ixx" ]}.

(** A project tree: [/p/src] with the descriptor file and interface
    files. *)
Definition project (src : list Fs.node) : Fs.node :=
  Fs.Dir "" [Fs.Dir "p" [Fs.Dir "src" src]].

Definition argv_p : list string := ["scan_module_deps"; "/p"].

(** A target [lib] with one interface file, [x.ixx], which declares module
    [m]: the file name is not the expected [m.ixx]. *)
Definition warning_build : string :=
  "cc_module_library(" ++ NL ++
  "    name = " ++ DQ ++ "lib" ++ DQ ++ "," ++ NL ++
  "    module_interfaces = [" ++ DQ ++ "x.ixx" ++ DQ ++ "]," ++ NL ++
  ")" ++ NL.

Definition warning_sources : list Fs.node :=
  [Fs.File "x.ixx" true true ("export module m;" ++ NL ++ "import n;" ++ NL)].

Definition warning_tree (build : string) : Fs.node :=
  project (Fs.File "BUILD" true true build :: warning_sources).

Definition warning_comment : string :=
  " # 警告: 以下模块文件名不规范: m (期望: m.ixx),".

(** The descriptor file after the first and after the second run. *)
Definition warning_build_1 : string :=
  "cc_module_library(" ++ NL ++
  "    name = " ++ DQ ++ "lib" ++ DQ ++ "," ++ NL ++
  "    module_interfaces = [" ++ DQ ++ "x.ixx" ++ DQ ++ "]," ++ NL ++
  "    module_dependencies = {" ++ NL ++
  "        " ++ DQ ++ "m" ++ DQ ++ ": [" ++ DQ ++ "n" ++ DQ ++ "]," ++ NL ++
  "    }," ++ warning_comment ++ NL ++
  ")" ++ NL.

Definition warning_build_2 : string :=
  "cc_module_library(" ++ NL ++
  "    name = " ++ DQ ++ "lib" ++ DQ ++ "," ++ NL ++
  "    module_interfaces = [" ++ DQ ++ "x.ixx" ++ DQ ++ "]," ++ NL ++
  "    module_dependencies = {" ++ NL ++
  "        " ++ DQ ++ "m" ++ DQ ++ ": [" ++ DQ ++ "n" ++ DQ ++ "]," ++ NL ++
  "    }," ++ warning_comment ++ warning_comment ++ NL ++
  ")" ++ NL.

(** Modules [math] and [app], the second importing the first, and a
    descriptor file whose dependency block is already the computed one. *)
Definition synced_build : string :=
  "cc_module_library(" ++ NL ++
  "    name = " ++ DQ ++ "lib" ++ DQ ++ "," ++ NL ++
  "    module_interfaces = [" ++ DQ ++ "math.ixx" ++ DQ ++ ", " ++ DQ ++ "app.ixx" ++ DQ ++ "]," ++ NL ++
  "    module_dependencies = {" ++ NL ++
  "        " ++ DQ ++ "app" ++ DQ ++ ": [" ++ DQ ++ "math" ++ DQ ++ "]," ++ NL ++
  "    }," ++ NL ++
  ")" ++ NL.

Definition synced_sources : list Fs.node :=
  [Fs.File "math.ixx" true true ("export module math;" ++ NL);
   Fs.File "app.ixx" true true ("export module app;" ++ NL ++ "import math;" ++ NL)].

Definition synced_tree : Fs.node :=
  project (Fs.File "BUILD" true true synced_build :: synced_sources).

(** The same project with a descriptor file that cannot be read. *)
Definition unreadable_tree : Fs.node :=
  project (Fs.File "BUILD" false true synced_build :: synced_sources).

(** The tables the first three steps of [main] build for [synced_tree]. *)
Definition synced_modules : gmap string ModuleInfo.t :=
  <[ "math" := ModuleInfo.mk "math" [] "/p/src/math.ixx" true "math.ixx" ]>
  {[ "app" := ModuleInfo.mk "app" ["math"] "/p/src/app.ixx" true "app.ixx" ]}.

Definition synced_targets : gmap string BuildTarget.t :=
  {[ "lib" := BuildTarget.mk "lib" "cc_module_library" ["math.ixx"; "app.ixx"]
                {[ "app" := ["math"] ]} ]}.

(** A project with an interface file in a subdirectory, and two texts of
    a [module_interfaces] field: a glob group next to a literal list, and
    a literal list alone. *)
Definition glob_tree : Fs.node :=
  project [Fs.File "BUILD" true true "";
           Fs.File "lit.ixx" true true "";
           Fs.Dir "m" [Fs.File "a.ixx" true true ""]].

Definition mixed_field : string :=
  "glob([" ++ DQ ++ "m/*.ixx" ++ DQ ++ "]) + [" ++ DQ ++ "lit.ixx" ++ DQ ++ "]".

Definition literal_field : string := "[" ++ DQ ++ "lit.ixx" ++ DQ ++ "]".

Definition empty_target : BuildTarget.t := BuildTarget.mk "lib" "cc_module_library" [] ∅.

(** The same project with a descriptor whose one target takes its
    interface files from a glob pattern. *)
Definition glob_build : string :=
  "cc_module_library(" ++ NL ++
  "    name = " ++ DQ ++ "lib" ++ DQ ++ "," ++ NL ++
  "    module_interfaces = glob([" ++ DQ ++ "m/*.ixx" ++ DQ ++ "])," ++ NL ++
  ")" ++ NL.

Definition glob_build_tree : Fs.node :=
  project [Fs.File "BUILD" true true glob_build;
           Fs.File "lit.ixx" true true "";
           Fs.Dir "m" [Fs.File "a.ixx" true true ""]].

(** The text of the target of [glob_build]. *)
Definition glob_build_target : string :=
  "cc_module_library(" ++ NL ++
  "    name = " ++ DQ ++ "lib" ++ DQ ++ "," ++ NL ++
  "    module_interfaces = glob([" ++ DQ ++ "m/*.ixx" ++ DQ ++ "])," ++ NL ++
  ")".

(** A project whose descriptor [src/BUILD] is a directory. *)
Definition directory_descriptor_tree : Fs.node :=
  project (Fs.Dir "BUILD" [] :: synced_sources).

(** A project whose descriptor has a glob pattern over [lit.ixx], which
    is a regular file. *)
Definition glob_of_file_build : string :=
  "cc_module_library(" ++ NL ++
  "    name = " ++ DQ ++ "lib" ++ DQ ++ "," ++ NL ++
  "    module_interfaces = glob([" ++ DQ ++ "lit.ixx/*.ixx" ++ DQ ++ "])," ++ NL ++
  ")" ++ NL.

Definition glob_of_file_tree : Fs.node :=
  project [Fs.File "BUILD" true true glob_of_file_build;
           Fs.File "lit.ixx" true true ""].

(** Two snapshots of one project: the directory [m] holds [a.ixx] and
    [b.ixx], enumerated in one order and in the other. *)
Definition order_ab : Fs.node :=
  project [Fs.File "BUILD" true true "";
           Fs.Dir "m" [Fs.File "a.ixx" true true ""; Fs.File "b.ixx" true true ""]].

Definition order_ba : Fs.node :=
  project [Fs.File "BUILD" true true "";
           Fs.Dir "m" [Fs.File "b.ixx" true true ""; Fs.File "a.ixx" true true ""]].

(** A file whose first 8192 bytes end with white space: what follows is an
    import or nothing. *)
Definition long_head : string := "export module m;" ++ spaces (N.to_nat 8176).

Definition long_tree (tail : string) : Fs.node :=
  project [Fs.File "BUILD" true true ""; Fs.File "m.ixx" true true (long_head ++ tail)].

(** Two files that declare the same module. *)
Definition twice_tree : Fs.node :=
  project [Fs.File "BUILD" true true "";
           Fs.File "a.ixx" true true ("export module m;" ++ NL ++ "import first;" ++ NL);
           Fs.File "b.ixx" true true ("export module m;" ++ NL ++ "import second;" ++ NL)].

(** A main module with a partition, an import of itself, an import that no
    file declares and an import of a bare partition. *)
Definition mixed_modules : gmap string ModuleInfo.t :=
  <[ "app" := ModuleInfo.mk "app" ["app"; "missing"; ":ui"] "/p/src/app.ixx" true "app.ixx" ]>
  {[ "app:ui" := ModuleInfo.mk "app:ui" [] "/p/src/app-ui.ixx" true "app-ui.ixx" ]}.

(** The text of the target of [synced_build]: the file without its last
    line feed. *)
Definition synced_target : string := Str.take 147 synced_build.

(** The target of [synced_build] without its dependency block, and the
    block. *)
Definition plain_target : string :=
  "cc_module_library(" ++ NL ++
  "    name = " ++ DQ ++ "lib" ++ DQ ++ "," ++ NL ++
  "    module_interfaces = [" ++ DQ ++ "math.ixx" ++ DQ ++ ", " ++ DQ ++ "app.ixx" ++ DQ ++ "]," ++ NL ++
  ")".

Definition synced_block : string :=
  "module_dependencies = {" ++ NL ++
  "        " ++ DQ ++ "app" ++ DQ ++ ": [" ++ DQ ++ "math" ++ DQ ++ "]," ++ NL ++
  "    },".


(** The tables the first three steps of [main] build for
    [warning_tree warning_build]. *)
Definition warning_modules : gmap string ModuleInfo.t :=
  {[ "m" := ModuleInfo.mk "m" ["n"] "/p/src/x.ixx" false "m.ixx" ]}.

Definition warning_targets : gmap string BuildTarget.t :=
  {[ "lib" := BuildTarget.mk "lib" "cc_module_library" ["x.ixx"] {[ "m" := ["n"] ]} ]}.

(** * Properties *)

(** ** Strings *)
Section StringFacts.

Lemma eqb_ascii_refl (a : ascii) : Ascii.eqb a a = true.
Proof. apply Ascii.eqb_refl. Qed.

Lemma app_cons (a : ascii) (x y : string) : String a x ++ y = String a (x ++ y).
Proof. reflexivity. Qed.

Lemma app_nil_l_str (x : string) : "" ++ x = x.
Proof. reflexivity. Qed.

Lemma starts_with_nil (s : string) : Str.starts_with s "" = true.
Proof. by destruct s. Qed.

Lemma starts_with_app (x y z : string) :
  Str.starts_with (x ++ y) (x ++ z) = Str.starts_with y z.
Proof.
  induction x as [|a x IH]; simpl; [done|].
  by rewrite eqb_ascii_refl, IH.
Qed.

Lemma starts_with_self_app (x y : string) : Str.starts_with (x ++ y) x = true.
Proof.
  induction x as [|a x IH]; simpl; [apply starts_with_nil|].
  by rewrite eqb_ascii_refl, IH.
Qed.

(** A string does not start with something longer than itself. *)
Lemma starts_with_length (s p : string) :
  Str.starts_with s p = true → (String.length p <= String.length s)%nat.
Proof.
  revert s; induction p as [|b p IH]; intros [|a s]; simpl; try (done || lia).
  intros [_ H]%andb_prop. apply IH in H. lia.
Qed.

Lemma str_length_app (x y : string) :
  String.length (x ++ y) = (String.length x + String.length y)%nat.
Proof. induction x; simpl; [done|]. by rewrite IHx. Qed.

Lemma starts_with_longer (x y : string) :
  y ≠ "" → Str.starts_with x (x ++ y) = false.
Proof.
  intros Hy. destruct (Str.starts_with x (x ++ y)) eqn:E; [|done].
  apply starts_with_length in E. rewrite str_length_app in E.
  destruct y; [done|]. simpl in E. lia.
Qed.

Lemma starts_with_partition (parent r : string) :
  Str.starts_with (parent ++ ":" ++ r) (parent ++ ":") = true.
Proof.
  rewrite starts_with_app. change (":" ++ r) with (String ":" r).
  cbn. apply starts_with_nil.
Qed.

(** What [starts_with] decides. *)
Lemma starts_with_spec (s p : string) :
  Str.starts_with s p = true ↔ ∃ r, s = p ++ r.
Proof.
  split.
  - revert s; induction p as [|b p IH]; intros s H; [by exists s|].
    destruct s as [|a s]; [done|]. simpl in H.
    apply andb_prop in H as [Hab H]. apply Ascii.eqb_eq in Hab as ->.
    destruct (IH _ H) as [r ->]. by exists r.
  - intros [r ->]. apply starts_with_self_app.
Qed.

Lemma app_assoc_str (x y z : string) : (x ++ y) ++ z = x ++ (y ++ z).
Proof. induction x; [done|]. rewrite !app_cons. by rewrite IHx. Qed.

Lemma app_nil_r_str (x : string) : x ++ "" = x.
Proof. induction x; [done|]. rewrite app_cons. by rewrite IHx. Qed.

Lemma find_str_eq (p s : string) :
  Str.find_str p s =
  if Str.starts_with s p then Some 0
  else match s with
       | EmptyString => None
       | String _ s' => S <$> Str.find_str p s'
       end.
Proof. by destruct s. Qed.

(** What [find_str] decides: [p] occurs in [s]. *)
Lemma find_str_Some (p s : string) :
  is_Some (Str.find_str p s) ↔ ∃ a b, s = a ++ p ++ b.
Proof.
  split.
  - induction s as [|c s IH]; rewrite find_str_eq.
    + destruct (Str.starts_with "" p) eqn:E; [|by intros [? ?]].
      intros _. apply starts_with_spec in E as [r E]. by exists "", r.
    + destruct (Str.starts_with (String c s) p) eqn:E.
      * intros _. apply starts_with_spec in E as [r E]. by exists "", r.
      * intros [n Hn]. destruct (Str.find_str p s) eqn:F; [|done].
        destruct IH as (a & b & ->); [by eexists|]. by exists (String c a), b.
  - intros (a & b & ->). induction a as [|c a IH]; rewrite find_str_eq.
    + rewrite app_nil_l_str, starts_with_self_app. by eexists.
    + rewrite app_cons. destruct (Str.starts_with _ p); [by eexists|].
      destruct IH as [n ->]. by eexists.
Qed.

Lemma find_str_None (p s : string) :
  Str.find_str p s = None ↔ ¬ ∃ a b, s = a ++ p ++ b.
Proof.
  rewrite <- find_str_Some. apply eq_None_not_Some.
Qed.

(** [find_char]: nothing found means the character does not occur. *)
Lemma find_char_app_None (c : ascii) (x y : string) :
  Str.find_char c (x ++ y) = None ↔
  Str.find_char c x = None ∧ Str.find_char c y = None.
Proof.
  induction x as [|a x IH]; simpl; [naive_solver|].
  destruct (Ascii.eqb a c); [naive_solver|].
  destruct (Str.find_char c (x ++ y)), (Str.find_char c x); simpl; naive_solver.
Qed.

Lemma find_char_app_hit (c : ascii) (x y : string) :
  Str.find_char c x = None →
  Str.find_char c (x ++ String c y) = Some (String.length x).
Proof.
  induction x as [|a x IH]; simpl; [by rewrite eqb_ascii_refl|].
  destruct (Ascii.eqb a c); [done|].
  destruct (Str.find_char c x); [done|]. intros _. by rewrite IH.
Qed.

Lemma take_app_length (x y : string) : Str.take (String.length x) (x ++ y) = x.
Proof. induction x; simpl; [by destruct y|]. by rewrite IHx. Qed.

End StringFacts.

(** ** The order of [std::sort] on strings *)
Section StringOrder.

Lemma ascii_compare_refl (a : ascii) : Ascii.compare a a = Eq.
Proof. apply N.compare_refl. Qed.

Lemma compare_refl (s : string) : String.compare s s = Eq.
Proof. induction s; simpl; [done|]. by rewrite ascii_compare_refl. Qed.

Lemma compare_Lt_trans (x y z : string) :
  String.compare x y = Lt → String.compare y z = Lt → String.compare x z = Lt.
Proof.
  revert y z; induction x as [|a x IH]; intros [|b y] [|c z]; simpl; try done.
  unfold Ascii.compare.
  destruct (N.compare_spec (N_of_ascii a) (N_of_ascii b)) as [Hab|Hab|Hab];
    destruct (N.compare_spec (N_of_ascii b) (N_of_ascii c)) as [Hbc|Hbc|Hbc];
    try done; intros H1 H2.
  - rewrite Hab, Hbc, N.compare_refl. eauto.
  - rewrite Hab. by apply N.compare_lt_iff in Hbc as ->.
  - rewrite <- Hbc. by apply N.compare_lt_iff in Hab as ->.
  - assert (N_of_ascii a < N_of_ascii c)%N as Hac by lia.
    by apply N.compare_lt_iff in Hac as ->.
Qed.

Lemma leb_iff (x y : string) : Str.le x y ↔ String.compare x y = Lt ∨ x = y.
Proof.
  unfold Str.le, String.leb. destruct (String.compare x y) eqn:E.
  - apply String.compare_eq_iff in E. naive_solver.
  - naive_solver.
  - split; [done|]. intros [?| ->]; [done|]. by rewrite compare_refl in E.
Qed.

#[export] Instance le_total : Total Str.le.
Proof. intros x y. apply String.leb_total. Qed.

#[export] Instance le_trans : Transitive Str.le.
Proof.
  intros x y z. rewrite !leb_iff. intros [H1| ->] [H2| ->]; eauto.
  left. by eapply compare_Lt_trans.
Qed.

Lemma lt_iff (x y : string) : Str.lt x y ↔ String.compare x y = Lt.
Proof. unfold Str.lt, String.ltb. by destruct (String.compare x y). Qed.

Lemma lt_irrefl (x : string) : ¬ Str.lt x x.
Proof. rewrite lt_iff, compare_refl. done. Qed.

Lemma le_neq_lt (x y : string) : Str.le x y → x ≠ y → Str.lt x y.
Proof. rewrite leb_iff, lt_iff. naive_solver. Qed.

Lemma sort_Permutation (l : list string) : Str.sort l ≡ₚ l.
Proof. apply merge_sort_Permutation. Qed.

Lemma sort_StronglySorted (l : list string) : StronglySorted Str.le (Str.sort l).
Proof. apply StronglySorted_merge_sort; apply _. Qed.

Lemma elem_of_unique (x : string) (l : list string) : x ∈ Str.unique l ↔ x ∈ l.
Proof.
  induction l as [|a [|b l] IH]; [done..|].
  change (Str.unique (a :: b :: l))
    with (if String.eqb a b then Str.unique (b :: l) else a :: Str.unique (b :: l)).
  destruct (String.eqb_spec a b) as [->|Hab].
  - rewrite IH, !elem_of_cons. tauto.
  - rewrite elem_of_cons, IH, !elem_of_cons. tauto.
Qed.

Lemma elem_of_sort_unique (x : string) (l : list string) :
  x ∈ Str.sort_unique l ↔ x ∈ l.
Proof. unfold Str.sort_unique. by rewrite elem_of_unique, sort_Permutation. Qed.

(** On a sorted list, [unique] leaves a strictly increasing one. *)
Lemma unique_StronglySorted (l : list string) :
  StronglySorted Str.le l → StronglySorted Str.lt (Str.unique l).
Proof.
  induction l as [|a [|b l] IH]; intros Hs.
  - constructor.
  - repeat constructor.
  - change (Str.unique (a :: b :: l))
      with (if String.eqb a b then Str.unique (b :: l) else a :: Str.unique (b :: l)).
    apply StronglySorted_inv in Hs as [Hs Ha].
    destruct (String.eqb_spec a b) as [->|Hab]; [by apply IH|].
    constructor; [by apply IH|].
    apply Forall_forall. intros x Hx. rewrite elem_of_unique in Hx.
    rewrite Forall_forall in Ha. apply StronglySorted_inv in Hs as [_ Hb].
    rewrite Forall_forall in Hb.
    apply le_neq_lt; [by apply Ha|].
    intros ->. apply elem_of_cons in Hx as [?|Hx]; [done|].
    apply Hab. apply String.leb_antisym; [apply Ha; left | by apply Hb].
Qed.

Lemma sort_unique_StronglySorted (l : list string) :
  StronglySorted Str.lt (Str.sort_unique l).
Proof. apply unique_StronglySorted, sort_StronglySorted. Qed.

End StringOrder.

(** ** The dependency resolver *)
Section Resolver.

Implicit Types (modules : gmap string ModuleInfo.t).
Implicit Types (module_deps : gmap string (list string)).

(** What the table of dependencies holds for [module_name] after a list
    of distinct modules has been processed. *)
Lemma foldl_process_module_lookup modules (l : list (string * ModuleInfo.t))
    module_deps module_name :
  NoDup l.*1 →
  foldl (process_module modules) module_deps l !! module_name =
  match (list_to_map l : gmap string ModuleInfo.t) !! module_name with
  | Some info =>
      match clean_imports modules module_name info with
      | [] => module_deps !! module_name
      | ci => Some (Str.sort_unique ci)
      end
  | None => module_deps !! module_name
  end.
Proof.
  revert module_deps. induction l as [|[k v] l IH]; intros module_deps Hnd; [done|].
  apply NoDup_cons in Hnd as [Hk Hnd]. cbn [foldl list_to_map foldr].
  rewrite IH by done. unfold process_module at 1 2; cbn [fst snd].
  destruct (decide (k = module_name)) as [->|Hne].
  - rewrite lookup_insert_eq.
    rewrite (not_elem_of_list_to_map_1 l module_name) by done.
    destruct (clean_imports modules module_name v); [done|].
    by rewrite lookup_insert_eq.
  - rewrite lookup_insert_ne by done.
    destruct (clean_imports modules k v); [done|].
    by rewrite lookup_insert_ne.
Qed.

Lemma processModuleDependencies_lookup modules module_deps module_name :
  processModuleDependencies modules module_deps !! module_name =
  match modules !! module_name with
  | Some info =>
      match clean_imports modules module_name info with
      | [] => module_deps !! module_name
      | ci => Some (Str.sort_unique ci)
      end
  | None => module_deps !! module_name
  end.
Proof.
  unfold processModuleDependencies.
  rewrite foldl_process_module_lookup by apply NoDup_fst_map_to_list.
  by rewrite list_to_map_to_list.
Qed.

(** A name of the table that is in [clean_imports] is in the stored
    list. *)
Lemma stored_of_clean_import modules module_deps module_name info x :
  modules !! module_name = Some info →
  x ∈ clean_imports modules module_name info →
  ∃ deps, processModuleDependencies modules module_deps !! module_name = Some deps
          ∧ deps = Str.sort_unique (clean_imports modules module_name info).
Proof.
  intros Hm Hx. rewrite processModuleDependencies_lookup, Hm.
  destruct (clean_imports modules module_name info) eqn:E; [by inversion Hx|].
  by eexists.
Qed.

Lemma elem_of_partitions_of modules module_name other :
  other ∈ partitions_of modules module_name ↔
  Str.find_char ":" module_name = None
  ∧ is_Some (modules !! other)
  ∧ Str.starts_with other (module_name ++ ":") = true.
Proof.
  unfold partitions_of. destruct (Str.find_char ":" module_name).
  - split; [by inversion 1|]. by intros [? _].
  - rewrite list_elem_of_In, filter_In, <- list_elem_of_In.
    rewrite list_elem_of_fmap. split.
    + intros [([k v] & -> & Hkv) Hs]. apply elem_of_map_to_list in Hkv.
      split_and!; [done| by eexists | done].
    + intros (_ & [v Hv] & Hs). split; [|done].
      exists (other, v). split; [done|]. by apply elem_of_map_to_list.
Qed.

Lemma elem_of_clean_import module_name import x :
  x ∈ clean_import module_name import ↔
  import ≠ "" ∧ import ≠ module_name
  ∧ (if Str.starts_with import ":" then x = main_module module_name ++ import
     else x = import).
Proof.
  unfold clean_import.
  destruct (String.eqb_spec import "") as [->|H1]; cbn [negb andb].
  { split; [by inversion 1|naive_solver]. }
  destruct (String.eqb_spec import module_name) as [->|H2]; cbn [negb].
  { split; [by inversion 1|naive_solver]. }
  destruct (Str.starts_with import ":"); rewrite list_elem_of_singleton; naive_solver.
Qed.

Lemma elem_of_clean_imports modules module_name info x :
  x ∈ clean_imports modules module_name info ↔
  (∃ import, import ∈ ModuleInfo.imports info ∧ x ∈ clean_import module_name import)
  ∨ x ∈ partitions_of modules module_name.
Proof.
  unfold clean_imports. rewrite elem_of_app.
  rewrite (list_elem_of_In (List.flat_map _ _) x), in_flat_map.
  setoid_rewrite <- list_elem_of_In. done.
Qed.

(** The main module of a name: the name itself when it has no colon, what
    precedes the first colon otherwise. *)
Lemma main_module_parent (parent : string) :
  Str.find_char ":" parent = None → main_module parent = parent.
Proof. unfold main_module. by intros ->. Qed.

Lemma main_module_partition (parent partition : string) :
  Str.find_char ":" parent = None →
  main_module (parent ++ ":" ++ partition) = parent.
Proof.
  intros H. unfold main_module.
  change (":" ++ partition) with (String ":" partition).
  rewrite find_char_app_hit by done. unfold Str.substr. cbn [Str.drop].
  apply take_app_length.
Qed.

(** A name that is not empty and does not start with a colon has a main
    module of the same kind. *)
Lemma main_module_head (module_name : string) :
  module_name ≠ "" → Str.starts_with module_name ":" = false →
  ∃ a r, main_module module_name = String a r ∧ Ascii.eqb a ":" = false.
Proof.
  destruct module_name as [|a s]; [done|]. intros _ H.
  cbn in H. rewrite starts_with_nil, andb_true_r in H.
  unfold main_module. cbn [Str.find_char]. rewrite H.
  destruct (Str.find_char ":" s); cbn; eauto.
Qed.

End Resolver.

(** ** Claims on the dependency resolver *)

(** C1.  The claim is that no module is listed among its own dependencies,
    also when the self-reference is a bare partition alias.  The resolver
    compares an import with the name of the module before it qualifies the
    import, so the alias passes the test: the scan of [self_alias_tree],
    where [p-a.ixx] declares [p:a] and imports [:a], stores [p:a] as a
    dependency of [p:a]. *)
Theorem self_alias_is_stored :
  processModuleDependencies self_alias_modules ∅ !! "p:a" = Some ["p:a"]
  ∧ scanProjectModules 1 self_alias_tree "/p" ∅ ∅
    = Some (self_alias_modules, {[ "p:a" := ["p:a"] ]}).
Proof. split; vm_compute; reflexivity. Qed.

(** The two scenarios of the specification, run on the resolver. *)
Example partition_folding_scenario :
  processModuleDependencies folding_modules ∅ !! "p" = Some ["p:a"; "p:b"].
Proof. vm_compute. reflexivity. Qed.

Example bare_partition_scenario :
  processModuleDependencies bare_import_modules ∅ !! "p:a" = Some ["p:util"].
Proof. vm_compute. reflexivity. Qed.

(** C6.  A main module (a name without colon) depends on every module of
    the table whose name starts with its own name and a colon; when the
    table holds [parent], [parent:a] and [parent:b] and nothing else, and
    [parent] imports nothing, its list is made of these two names, in
    increasing order and without repetition. *)
Theorem parent_depends_on_all_partitions
    (modules : gmap string ModuleInfo.t) (module_deps : gmap string (list string))
    (parent : string) (info : ModuleInfo.t) :
  modules !! parent = Some info →
  Str.find_char ":" parent = None →
  (∀ other,
     is_Some (modules !! other) →
     Str.starts_with other (parent ++ ":") = true →
     ∃ deps, processModuleDependencies modules module_deps !! parent = Some deps
             ∧ other ∈ deps)
  ∧ (∀ a b,
       ModuleInfo.imports info = [] →
       (∀ k, is_Some (modules !! k)
             ↔ k = parent ∨ k = parent ++ ":" ++ a ∨ k = parent ++ ":" ++ b) →
       ∃ deps, processModuleDependencies modules module_deps !! parent = Some deps
               ∧ (∀ x, x ∈ deps ↔ x = parent ++ ":" ++ a ∨ x = parent ++ ":" ++ b)
               ∧ StronglySorted Str.lt deps).
Proof.
  intros Hm Hc. split.
  - intros other Ho Hs.
    assert (other ∈ clean_imports modules parent info) as Hin.
    { apply elem_of_clean_imports. right. by apply elem_of_partitions_of. }
    destruct (stored_of_clean_import _ module_deps _ _ _ Hm Hin) as (deps & Hd & ->).
    exists (Str.sort_unique (clean_imports modules parent info)).
    split; [done|]. by apply elem_of_sort_unique.
  - intros a b Hi Hk.
    assert (∀ x, x ∈ clean_imports modules parent info
                 ↔ x = parent ++ ":" ++ a ∨ x = parent ++ ":" ++ b) as Hci.
    { intros x. rewrite elem_of_clean_imports, Hi, elem_of_partitions_of, Hk.
      split.
      - intros [(i & Hin & _)|(_ & [->|H] & Hs)]; [by inversion Hin| |done].
        by rewrite starts_with_longer in Hs.
      - intros H. right. split; [done|]. split; [by right|].
        destruct H as [->| ->]; apply starts_with_partition. }
    assert (parent ++ ":" ++ a ∈ clean_imports modules parent info) as Hin
      by (apply Hci; by left).
    destruct (stored_of_clean_import _ module_deps _ _ _ Hm Hin) as (deps & Hd & ->).
    eexists. split; [done|]. split.
    + intros x. by rewrite elem_of_sort_unique.
    + apply sort_unique_StronglySorted.
Qed.

Lemma parent_depends_on_all_partitions_witness :
  ∃ deps, processModuleDependencies folding_modules ∅ !! "p" = Some deps
          ∧ (∀ x, x ∈ deps ↔ x = "p:a" ∨ x = "p:b")
          ∧ StronglySorted Str.lt deps.
Proof.
  refine (proj2 (parent_depends_on_all_partitions folding_modules ∅ "p"
                   (ModuleInfo.mk "p" [] "/r/src/p.ixx" true "p.ixx") _ _) "a" "b" _ _).
  - vm_compute; reflexivity.
  - reflexivity.
  - reflexivity.
  - intros k. unfold folding_modules.
    rewrite !lookup_insert_is_Some, lookup_singleton_is_Some. cbn.
    split; [intros [?|[_ [?|[_ ?]]]]; auto | intros [->|[->| ->]]; auto 10].
Defined.

(** C7.  An import that starts with a colon is stored with the main module
    of the importing module in front of it; the main module of a name is
    what precedes its first colon, or the name itself when it has none.
    Module names are not empty and do not start with a colon (the module
    declaration only matches such names), and then no stored dependency
    starts with a colon. *)
Theorem bare_partition_import_is_qualified
    (modules : gmap string ModuleInfo.t) (module_deps : gmap string (list string))
    (module_name import : string) (info : ModuleInfo.t) :
  modules !! module_name = Some info →
  import ∈ ModuleInfo.imports info →
  Str.starts_with import ":" = true →
  module_name ≠ "" →
  Str.starts_with module_name ":" = false →
  (∃ deps, processModuleDependencies modules module_deps !! module_name = Some deps
           ∧ main_module module_name ++ import ∈ deps
           ∧ ∀ d, d ∈ deps → Str.starts_with d ":" = false)
  ∧ (∀ parent partition,
       Str.find_char ":" parent = None →
       main_module parent = parent
       ∧ main_module (parent ++ ":" ++ partition) = parent).
Proof.
  intros Hm Hi Hbare Hne Hhead. split.
  2:{ intros parent partition Hp. split;
        [by apply main_module_parent | by apply main_module_partition]. }
  destruct (main_module_head module_name Hne Hhead) as (a & r & Hmain & Ha).
  assert (import ≠ module_name) as Hself by (intros ->; congruence).
  assert (import ≠ "") as Hempty by (intros ->; done).
  assert (main_module module_name ++ import ∈ clean_imports modules module_name info) as Hin.
  { apply elem_of_clean_imports. left. exists import. split; [done|].
    apply elem_of_clean_import. by rewrite Hbare. }
  destruct (stored_of_clean_import _ module_deps _ _ _ Hm Hin) as (deps & Hd & ->).
  eexists. split; [done|]. split; [by apply elem_of_sort_unique|].
  intros d Hdin. apply elem_of_sort_unique, elem_of_clean_imports in Hdin.
  destruct Hdin as [(i & _ & Hdi)|Hpart].
  - apply elem_of_clean_import in Hdi as (_ & _ & Hdi).
    destruct (Str.starts_with i ":") eqn:E; subst d; [|done].
    rewrite Hmain, app_cons. cbn. by rewrite Ha.
  - apply elem_of_partitions_of in Hpart as (_ & _ & Hs).
    apply starts_with_spec in Hs as [t ->].
    destruct module_name as [|c s]; [done|].
    cbn in Hhead. rewrite starts_with_nil, andb_true_r in Hhead.
    rewrite !app_cons. cbn. by rewrite Hhead.
Qed.

Lemma bare_partition_import_is_qualified_witness :
  ∃ deps, processModuleDependencies bare_import_modules ∅ !! "p:a" = Some deps
          ∧ "p:util" ∈ deps
          ∧ ∀ d, d ∈ deps → Str.starts_with d ":" = false.
Proof.
  refine (proj1 (bare_partition_import_is_qualified bare_import_modules ∅ "p:a" ":util"
                   (ModuleInfo.mk "p:a" [":util"] "/r/src/p-a.ixx" true "p-a.ixx")
                   _ _ _ _ _)).
  - vm_compute; reflexivity.
  - cbn. left.
  - reflexivity.
  - discriminate.
  - reflexivity.
Defined.

(** ** Claims on the descriptor patcher and on the program *)

Lemma synced_state :
  scanner_state 2 synced_tree "/p" "/p/src/BUILD" = Some (synced_modules, synced_targets).
Proof. vm_compute. reflexivity. Qed.

(** The end-to-end scenario of the specification: [math] without imports,
    [app] importing [math], one target listing both files; one run leaves
    the block with the entry of [app] and no entry for [math]. *)
Example end_to_end_scenario :
  main 2 (project (Fs.File "BUILD" true true
                     ("cc_module_library(" ++ NL ++
                      "    name = " ++ DQ ++ "lib" ++ DQ ++ "," ++ NL ++
                      "    module_interfaces = [" ++ DQ ++ "math.ixx" ++ DQ ++ ", "
                        ++ DQ ++ "app.ixx" ++ DQ ++ "]," ++ NL ++
                      ")" ++ NL)
                   :: synced_sources))
       argv_p
  = Finished (mk_run 0 (Some synced_build) synced_tree).
Proof. vm_compute. reflexivity. Qed.

(** C9.  [updateBuildFile] hands a text to the output stream only when the
    text it has computed differs from what it has read: when the edits of
    all targets leave the text as it was, nothing is written and the file
    system is what it was; a text that is written is the computed one and
    is not the original. *)
Theorem updateBuildFile_writes_only_on_change
    (root : Fs.node) (build_file_path : string)
    (modules : gmap string ModuleInfo.t) (build_targets : gmap string BuildTarget.t)
    (original_content : string) :
  Fs.read root build_file_path = Some original_content →
  (patched_content modules build_targets original_content = original_content →
     text_to_write root build_file_path modules build_targets = None
     ∧ updateBuildFile root build_file_path modules build_targets = root)
  ∧ (∀ content,
       text_to_write root build_file_path modules build_targets = Some content →
       content = patched_content modules build_targets original_content
       ∧ content ≠ original_content)
  ∧ (updateBuildFile root build_file_path modules build_targets = root
     ∨ patched_content modules build_targets original_content ≠ original_content
       ∧ updateBuildFile root build_file_path modules build_targets
         = Fs.write root build_file_path
             (patched_content modules build_targets original_content)).
Proof.
  intros Hread. unfold updateBuildFile, text_to_write. rewrite Hread.
  destruct (String.eqb_spec (patched_content modules build_targets original_content)
              original_content) as [Heq|Hne]; cbn [negb].
  - split_and!; [done|done|by left].
  - split_and!.
    + done.
    + by intros content [= <-].
    + destruct (Fs.can_write root build_file_path); [by right|by left].
Qed.

Lemma updateBuildFile_writes_only_on_change_witness :
  text_to_write synced_tree "/p/src/BUILD" synced_modules synced_targets = None
  ∧ updateBuildFile synced_tree "/p/src/BUILD" synced_modules synced_targets = synced_tree.
Proof.
  refine (proj1 (updateBuildFile_writes_only_on_change synced_tree "/p/src/BUILD"
                   synced_modules synced_targets synced_build _) _).
  - reflexivity.
  - vm_compute. reflexivity.
Defined.

(** C2.  The claim is that a second run computes the text the first run
    wrote, also when the first run added a warning comment.  The block the
    patcher writes ends with the warning comment, but the expression it
    replaces ends with the closing brace and its comma: on the second run
    the old comment stays behind the new block, the computed text differs
    from the file and the file is written again. *)
Theorem second_run_repeats_the_warning :
  main 1 (warning_tree warning_build) argv_p
  = Finished (mk_run 0 (Some warning_build_1) (warning_tree warning_build_1))
  ∧ main 1 (warning_tree warning_build_1) argv_p
    = Finished (mk_run 0 (Some warning_build_2) (warning_tree warning_build_2))
  ∧ warning_build_2 ≠ warning_build_1.
Proof.
  split_and!; [vm_compute; reflexivity..|].
  intros H%(f_equal String.length). vm_compute in H. discriminate.
Qed.

(** ** Claims on the parallel scan *)
Section Scan.

Variable root : Fs.node.
Variable ixx_files : list string.

Let store (modules : gmap string ModuleInfo.t) (info : ModuleInfo.t) :=
  <[ModuleInfo.name info := info]> modules.

(** Two chunks that touch make one chunk. *)
Lemma worker_app (start mid end_ : N) :
  (start <= mid)%N → (mid <= end_)%N →
  (worker root ixx_files start mid ++ worker root ixx_files mid end_)%list
  = worker root ixx_files start end_.
Proof.
  intros H1 H2. unfold worker.
  rewrite <- List.filter_app, <- fmap_app. do 2 f_equal.
  replace (N.to_nat mid) with (N.to_nat start + N.to_nat (mid - start))%nat by lia.
  rewrite <- drop_drop, take_take_drop. f_equal. lia.
Qed.

(** The chunks of the workers, put end to end, are one chunk. *)
Lemma spawn_concat (chunk_size remainder : N) (todo : nat) (i start : N) :
  concat (spawn root ixx_files chunk_size remainder todo i start)
  = worker root ixx_files start (last_end chunk_size remainder todo i start).
Proof.
  revert i start. induction todo as [|todo IH]; intros i start.
  - unfold last_end. cbn [spawn concat]. unfold worker.
    replace (N.to_nat _) with 0%nat by lia. done.
  - cbn [spawn concat]. rewrite IH.
    set (end_ := (start + chunk_size + (if (i <? remainder)%N then 1 else 0))%N).
    rewrite worker_app; [|unfold end_; lia|unfold last_end; lia].
    f_equal. unfold last_end, end_. rewrite Nat2N.inj_succ, N.mul_succ_l.
    generalize (N.of_nat todo * chunk_size)%N (N.of_nat todo). intros prod t.
    pose proof (N.min_spec (i + 1 + t) remainder).
    pose proof (N.min_spec (i + 1) remainder).
    pose proof (N.min_spec (i + N.succ t) remainder).
    pose proof (N.min_spec i remainder).
    destruct (N.ltb_spec i remainder); lia.
Qed.

(** Collecting future by future is collecting the results in a row. *)
Lemma merge_results_concat (futures : list (list ModuleInfo.t))
    (modules : gmap string ModuleInfo.t) :
  merge_results modules futures = foldl store modules (concat futures).
Proof.
  revert modules. induction futures as [|results futures IH]; intros modules; [done|].
  cbn [concat]. rewrite foldl_app. unfold merge_results in *. cbn [foldl].
  by rewrite IH.
Qed.

(** Storing the informative results of a file list is the sequential
    scan. *)
Lemma store_filtered (files : list string) (modules : gmap string ModuleInfo.t) :
  foldl store modules
    (List.filter (fun info => negb (String.eqb (ModuleInfo.name info) ""))
       (extractModuleInfo root <$> files))
  = scan_sequential root files modules.
Proof.
  revert modules. induction files as [|file files IH]; intros modules; [done|].
  cbn [fmap list_fmap List.filter]. unfold scan_sequential in *. cbn [foldl].
  destruct (negb _); cbn [foldl]; apply IH.
Qed.

(** With a worker or more, the scan fills the table of the sequential
    scan. *)
Lemma scan_files_eq_sequential (num_threads : N) (modules : gmap string ModuleInfo.t) :
  num_threads ≠ 0%N →
  scan_files root num_threads ixx_files modules
  = Some (scan_sequential root ixx_files modules).
Proof.
  intros Hk. unfold scan_files.
  destruct (N.eqb_spec num_threads 0) as [|_]; [done|]. f_equal.
  rewrite merge_results_concat, spawn_concat, <- store_filtered.
  f_equal. unfold worker. do 2 f_equal.
  set (size := N.of_nat (List.length ixx_files)).
  assert (last_end (size / num_threads) (size mod num_threads)
            (N.to_nat num_threads) 0 0 = size) as ->.
  { unfold last_end. pose proof (N.mod_upper_bound size num_threads Hk).
    pose proof (N.div_mod size num_threads Hk). rewrite N2Nat.id.
    rewrite !N.add_0_l, N.min_0_l, N.min_r, N.sub_0_r by lia. done. }
  cbn [drop]. apply firstn_all2. unfold size. lia.
Qed.

(** C8.  Whatever the number of workers, the table the scan fills is the
    one the sequential scan of the file list fills; in particular it is the
    table one worker fills. *)
Theorem scan_files_any_worker_count (num_threads : N)
    (modules : gmap string ModuleInfo.t) :
  num_threads ≠ 0%N →
  scan_files root num_threads ixx_files modules
  = Some (scan_sequential root ixx_files modules)
  ∧ scan_files root num_threads ixx_files modules
    = scan_files root 1 ixx_files modules.
Proof.
  intros Hk. split; [by apply scan_files_eq_sequential|].
  by rewrite !scan_files_eq_sequential.
Qed.

End Scan.

Lemma scan_files_any_worker_count_witness :
  scan_files synced_tree 2 ["/p/src/math.ixx"; "/p/src/app.ixx"] ∅
  = Some (scan_sequential synced_tree ["/p/src/math.ixx"; "/p/src/app.ixx"] ∅)
  ∧ scan_files synced_tree 2 ["/p/src/math.ixx"; "/p/src/app.ixx"] ∅
    = scan_files synced_tree 1 ["/p/src/math.ixx"; "/p/src/app.ixx"] ∅.
Proof.
  apply (scan_files_any_worker_count synced_tree
           ["/p/src/math.ixx"; "/p/src/app.ixx"] 2 ∅).
  discriminate.
Defined.

(** ** Claims on the descriptor reader *)
Section Reader.

Variable root : Fs.node.

Lemma add_interface_interfaces (target : BuildTarget.t) (file : string) :
  BuildTarget.module_interfaces (add_interface target file)
  = (BuildTarget.module_interfaces target ++ [file])%list.
Proof. done. Qed.

(** The loop over the entries of a directory adds the expansion of these
    entries, in their order. *)
Lemma foldl_entries_interfaces (entries : list Fs.directory_entry)
    (regular_only : bool) (project_root : string) (target : BuildTarget.t) :
  BuildTarget.module_interfaces
    (foldl (fun target entry =>
              if (if regular_only then Fs.regular entry else true)
                 && String.eqb (Fs.extension (Fs.path entry)) ".ixx"
              then add_interface target (Fs.relative (Fs.path entry) project_root)
              else target)
           target entries)
  = (BuildTarget.module_interfaces target
     ++ expansion entries regular_only project_root)%list.
Proof.
  revert target. induction entries as [|entry entries IH]; intros target.
  - unfold expansion. cbn. by rewrite app_nil_r.
  - cbn [foldl]. rewrite IH. unfold expansion. cbn [List.filter].
    destruct (_ && _); [|done].
    rewrite add_interface_interfaces, fmap_cons, <- app_assoc. done.
Qed.

Lemma processGlobExpression_interfaces (glob_expr project_root : string)
    (target : BuildTarget.t) :
  BuildTarget.module_interfaces (processGlobExpression root glob_expr target project_root)
  = (BuildTarget.module_interfaces target
     ++ glob_expansion root glob_expr project_root)%list.
Proof.
  unfold processGlobExpression, glob_expansion.
  destruct (Str.ends_with glob_expr suffix_recursive).
  - destruct (Fs.exists_ root _); [|by rewrite app_nil_r].
    apply (foldl_entries_interfaces _ true).
  - destruct (Str.ends_with glob_expr suffix); [|by rewrite app_nil_r].
    destruct (Fs.exists_ root _); [|by rewrite app_nil_r].
    apply (foldl_entries_interfaces _ false).
Qed.

(** Every path of an expansion is the relative path of an entry with the
    extension of interface files. *)
Lemma elem_of_expansion (entries : list Fs.directory_entry) (regular_only : bool)
    (project_root f : string) :
  f ∈ expansion entries regular_only project_root →
  ∃ entry, entry ∈ entries
           ∧ Fs.extension (Fs.path entry) = ".ixx"
           ∧ f = Fs.relative (Fs.path entry) project_root.
Proof.
  unfold expansion. rewrite list_elem_of_fmap. intros (entry & -> & Hin).
  apply list_elem_of_In, filter_In in Hin as [Hin Hok].
  apply andb_prop in Hok as [_ Hext]. apply String.eqb_eq in Hext.
  exists entry. by rewrite list_elem_of_In.
Qed.

(** Every path of a glob expansion comes from an entry that a directory
    iterator has enumerated. *)
Lemma elem_of_glob_expansion (glob_expr project_root f : string) :
  f ∈ glob_expansion root glob_expr project_root →
  ∃ dir entry,
    (entry ∈ Fs.directory_iterator root dir
     ∨ entry ∈ Fs.recursive_directory_iterator root dir)
    ∧ Fs.extension (Fs.path entry) = ".ixx"
    ∧ f = Fs.relative (Fs.path entry) project_root.
Proof.
  unfold glob_expansion.
  destruct (Str.ends_with glob_expr suffix_recursive).
  - destruct (Fs.exists_ root _); [|by inversion 1].
    intros (entry & ? & ? & ?)%elem_of_expansion. eauto 10.
  - destruct (Str.ends_with glob_expr suffix); [|by inversion 1].
    destruct (Fs.exists_ root _); [|by inversion 1].
    intros (entry & ? & ? & ?)%elem_of_expansion. eauto 10.
Qed.

(** The loop over the quoted patterns of a glob group adds glob expansions
    only. *)
Lemma foldl_globs_interfaces (patterns : list Regex.smatch) (project_root : string)
    (target : BuildTarget.t) (f : string) :
  f ∈ BuildTarget.module_interfaces
        (foldl (fun target m =>
                  processGlobExpression root (Regex.str m 1) target project_root)
               target patterns) →
  f ∈ BuildTarget.module_interfaces target
  ∨ ∃ m, m ∈ patterns ∧ f ∈ glob_expansion root (Regex.str m 1) project_root.
Proof.
  revert target. induction patterns as [|m patterns IH]; intros target; [by left|].
  cbn [foldl]. intros [Hf|(m' & Hm' & Hf)]%IH.
  - rewrite processGlobExpression_interfaces, elem_of_app in Hf.
    destruct Hf as [Hf|Hf]; [by left|]. right. exists m. split; [left|done].
  - right. exists m'. split; [by right|done].
Qed.

(** C10.  When the text of the field contains [glob(], the interfaces of
    the target are extended by the expansions of the quoted patterns of
    the first glob group and by nothing else, so that every added path
    comes from an enumerated directory entry and no literal file name of
    the field is taken; when the text does not contain [glob(], the
    literal file names are what is added. *)
Theorem parseModuleInterfaces_glob_or_literals
    (interfaces_str project_root : string) (target : BuildTarget.t) :
  ((∃ a b, interfaces_str = a ++ "glob(" ++ b) →
     parseModuleInterfaces root interfaces_str target project_root
     = match Regex.regex_search Regex.glob_pattern interfaces_str with
       | Some glob_match =>
           foldl (fun target m =>
                    processGlobExpression root (Regex.str m 1) target project_root)
                 target
                 (Regex.sregex_iterator Regex.glob_expr_pattern (Regex.str glob_match 1))
       | None => target
       end
     ∧ ∀ f,
         f ∈ BuildTarget.module_interfaces
               (parseModuleInterfaces root interfaces_str target project_root) →
         f ∈ BuildTarget.module_interfaces target
         ∨ ∃ dir entry,
             (entry ∈ Fs.directory_iterator root dir
              ∨ entry ∈ Fs.recursive_directory_iterator root dir)
             ∧ Fs.extension (Fs.path entry) = ".ixx"
             ∧ f = Fs.relative (Fs.path entry) project_root)
  ∧ ((¬ ∃ a b, interfaces_str = a ++ "glob(" ++ b) →
       BuildTarget.module_interfaces
         (parseModuleInterfaces root interfaces_str target project_root)
       = (BuildTarget.module_interfaces target
          ++ ((fun m => Regex.str m 1) <$>
                Regex.sregex_iterator Regex.file_pattern interfaces_str))%list).
Proof.
  unfold parseModuleInterfaces. split.
  - intros Hglob. apply find_str_Some in Hglob as [n ->]. split; [done|].
    intros f. destruct (Regex.regex_search _ _); [|by left].
    intros [Hf|(m & _ & Hf)]%foldl_globs_interfaces; [by left|].
    right. by eapply elem_of_glob_expansion.
  - intros Hnone. apply find_str_None in Hnone as ->.
    generalize (Regex.sregex_iterator Regex.file_pattern interfaces_str).
    intros files. revert target.
    induction files as [|m files IH]; intros target.
    + by rewrite app_nil_r.
    + cbn [foldl]. rewrite IH, add_interface_interfaces, fmap_cons, <- app_assoc. done.
Qed.

End Reader.

Lemma parseModuleInterfaces_glob_or_literals_witness :
  BuildTarget.module_interfaces
    (parseModuleInterfaces glob_tree mixed_field empty_target "/p/src") = ["m/a.ixx"]
  ∧ BuildTarget.module_interfaces
      (parseModuleInterfaces glob_tree literal_field empty_target "/p/src") = ["lit.ixx"].
Proof.
  destruct (parseModuleInterfaces_glob_or_literals glob_tree mixed_field "/p/src"
              empty_target) as [Hglob _].
  destruct (parseModuleInterfaces_glob_or_literals glob_tree literal_field "/p/src"
              empty_target) as [_ Hliteral].
  split.
  - destruct Hglob as [-> _]; [|vm_compute; reflexivity].
    exists "", ("[" ++ DQ ++ "m/*.ixx" ++ DQ ++ "]) + [" ++ DQ ++ "lit.ixx" ++ DQ ++ "]").
    reflexivity.
  - rewrite Hliteral; [vm_compute; reflexivity|].
    apply find_str_None. vm_compute. reflexivity.
Defined.

(** ** Snapshots that differ in the order of enumeration *)
Section Reordering.

Import Fs.

(** Induction on [reordered] with the hypothesis for the entries. *)
Lemma reordered_strong_ind (P : node → node → Prop) :
  (∀ name r w c, P (File name r w c) (File name r w c)) →
  (∀ name entries entries' entries'',
     Forall2 (fun a b => reordered a b ∧ P a b) entries entries' →
     entries' ≡ₚ entries'' →
     P (Dir name entries) (Dir name entries'')) →
  ∀ n n', reordered n n' → P n n'.
Proof.
  intros Hfile Hdir. fix IH 3.
  intros n n' [name r w c|name entries entries' entries'' Hall Hperm].
  - apply Hfile.
  - apply (Hdir name entries entries' entries''); [|done].
    clear Hperm. induction Hall as [|a b l l' Hab Hall IHall]; [constructor|].
    constructor; [|done]. split; [done|]. by apply IH.
Qed.

Lemma Forall2_same {A : Type} (R : A → A → Prop) (l : list A) :
  Forall (fun x => R x x) l → Forall2 R l l.
Proof. induction 1; by constructor. Qed.

Lemma reordered_refl (n : node) : reordered n n.
Proof.
  revert n. fix IH 1. intros [name r w c|name entries].
  - constructor.
  - apply reordered_dir with entries; [|done].
    apply Forall2_same. induction entries as [|e entries IHe]; [constructor|].
    constructor; [|done]. apply IH.
Qed.

Lemma reordered_name (n n' : node) : reordered n n' → node_name n = node_name n'.
Proof. by intros []. Qed.

Lemma reordered_entry_of (dir : string) (n n' : node) :
  reordered n n' → entry_of dir n = entry_of dir n'.
Proof. by intros []. Qed.

Lemma flat_map_Forall2_Permutation {A B : Type} (f g : A → list B) (l l' : list A) :
  Forall2 (fun a b => f a ≡ₚ g b) l l' → List.flat_map f l ≡ₚ List.flat_map g l'.
Proof. induction 1; cbn; [done|]. by apply Permutation_app. Qed.

(** The entries below two reordered nodes are the same, up to order. *)
Lemma walk_reordered (n n' : node) :
  reordered n n' → ∀ dir, walk dir n ≡ₚ walk dir n'.
Proof.
  intros H. induction H as [name r w c|name entries entries' entries'' Hall Hperm]
    using reordered_strong_ind; intros dir; [done|].
  cbn [walk]. constructor. etransitivity.
  - apply flat_map_Forall2_Permutation with (g := walk (append dir name)).
    eapply Forall2_impl; [exact Hall|]. cbn. intros a b [_ Hab]. apply Hab.
  - by apply Permutation_flat_map.
Qed.

(** Looking a name up in a directory with distinct names does not depend
    on the order of the entries. *)
Lemma child_Permutation (c : string) (entries entries' : list node) :
  NoDup (node_name <$> entries) → entries ≡ₚ entries' →
  child c entries = child c entries'.
Proof.
  intros Hnd Hperm. induction Hperm as [|x l l' Hperm IH|x y l|l l' l'' H1 IH1 H2 IH2].
  - done.
  - unfold child in *. cbn. destruct (String.eqb _ c); [done|].
    apply IH. by apply NoDup_cons in Hnd as [_ ?].
  - unfold child. cbn.
    destruct (String.eqb_spec (node_name y) c) as [Hy|_];
      destruct (String.eqb_spec (node_name x) c) as [Hx|_]; try done.
    rewrite !fmap_cons in Hnd. apply NoDup_cons in Hnd as [Hnd _].
    exfalso. apply Hnd. rewrite Hy, <- Hx. left.
  - rewrite IH1 by done. apply IH2. by rewrite <- H1.
Qed.

Lemma child_Forall2 (c : string) (entries entries' : list node) :
  Forall2 reordered entries entries' →
  option_Forall2 reordered (child c entries) (child c entries').
Proof.
  unfold child. induction 1 as [|a b l l' Hab Hall IH]; cbn; [constructor|].
  rewrite <- (reordered_name a b Hab).
  destruct (String.eqb (node_name a) c); [by constructor|done].
Qed.

Lemma Forall2_reordered_names (entries entries' : list node) :
  Forall2 reordered entries entries' →
  node_name <$> entries = node_name <$> entries'.
Proof.
  induction 1 as [|a b l l' Hab Hall IH]; [done|].
  rewrite !fmap_cons, IH. f_equal. by apply reordered_name.
Qed.

Lemma wf_Dir (name : string) (entries : list node) :
  wf (Dir name entries) = true →
  NoDup (node_name <$> entries) ∧ Forall (fun e => wf e = true) entries.
Proof.
  cbn [wf]. intros [[_ Hnd]%andb_prop Hall]%andb_prop. split.
  - by apply bool_decide_eq_true in Hnd.
  - apply Forall_forall. intros e He. rewrite forallb_forall in Hall.
    apply Hall. by apply list_elem_of_In.
Qed.

Lemma child_elem_of (c : string) (entries : list node) (e : node) :
  child c entries = Some e → e ∈ entries.
Proof. intros H. apply find_some in H as [H _]. by apply list_elem_of_In. Qed.

(** Looking a path up in two reordered snapshots gives reordered nodes. *)
Lemma lookup_reordered (p : cpath) (n n' : node) :
  wf n = true → reordered n n' →
  option_Forall2 (fun a b => reordered a b ∧ wf a = true) (lookup p n) (lookup p n').
Proof.
  revert n n'. induction p as [|c p IH]; intros n n' Hwf H; [by constructor|].
  destruct H as [name r w x|name entries entries' entries'' Hall Hperm]; [constructor|].
  cbn [lookup]. apply wf_Dir in Hwf as [Hnd Hwf].
  rewrite <- (child_Permutation c entries' entries'');
    [|by rewrite <- (Forall2_reordered_names _ _ Hall)|done].
  pose proof (child_Forall2 c _ _ Hall) as Hc.
  destruct (child c entries) as [a|] eqn:E; inversion Hc as [? b Hab|]; subst; cbn;
    [|constructor].
  apply IH; [|done].
  rewrite Forall_forall in Hwf. apply Hwf. by apply child_elem_of in E.
Qed.

Section TwoSnapshots.

Variables root root' : node.
Hypothesis root_wf : wf root = true.
Hypothesis root_reordered : reordered root root'.

Lemma lookup_is_Some (p : cpath) :
  match lookup p root, lookup p root' with
  | Some a, Some b => reordered a b
  | None, None => True
  | _, _ => False
  end.
Proof.
  destruct (lookup_reordered p root root' root_wf root_reordered) as [a b [Hab _]|]; done.
Qed.

(** A path resolves to the same canonical path in both snapshots. *)
Lemma resolve_from_reordered (cs : list string) (cur : cpath) :
  resolve_from root cur cs = resolve_from root' cur cs.
Proof.
  revert cur. induction cs as [|c cs IH]; intros cur; [done|].
  cbn [resolve_from].
  pose proof (lookup_is_Some cur) as Hcur.
  pose proof (lookup_is_Some (step cur c)) as Hnext.
  destruct (lookup cur root) as [a|], (lookup cur root') as [b|]; try done.
  destruct Hcur; [done|].
  destruct (lookup (step cur c) root), (lookup (step cur c) root');
    [apply IH|done..].
Qed.

Lemma resolve_reordered (p : string) : resolve root p = resolve root' p.
Proof. unfold resolve. destruct (String.eqb p ""); [done|]. apply resolve_from_reordered. Qed.

Lemma exists_reordered (p : string) : exists_ root p = exists_ root' p.
Proof. unfold exists_. by rewrite resolve_reordered. Qed.

Lemma node_at_reordered (p : string) :
  match node_at root p, node_at root' p with
  | Some a, Some b => reordered a b
  | None, None => True
  | _, _ => False
  end.
Proof.
  unfold node_at. rewrite <- resolve_reordered.
  destruct (resolve root p) as [c|]; cbn; [|done]. apply lookup_is_Some.
Qed.

(** Both iterators enumerate the same entries, in some order. *)
Lemma directory_iterator_reordered (p : string) :
  directory_iterator root p ≡ₚ directory_iterator root' p.
Proof.
  unfold directory_iterator. pose proof (node_at_reordered p) as H.
  destruct (node_at root p) as [a|], (node_at root' p) as [b|]; try done.
  destruct H as [|name entries entries' entries'' Hall Hperm]; [done|].
  rewrite <- Hperm. clear Hperm.
  induction Hall as [|x y l l' Hxy Hall IH]; [done|].
  rewrite !fmap_cons, (reordered_entry_of p x y Hxy). by constructor.
Qed.

Lemma recursive_directory_iterator_reordered (p : string) :
  recursive_directory_iterator root p ≡ₚ recursive_directory_iterator root' p.
Proof.
  unfold recursive_directory_iterator. pose proof (node_at_reordered p) as H.
  destruct (node_at root p) as [a|], (node_at root' p) as [b|]; try done.
  destruct H as [|name entries entries' entries'' Hall Hperm]; [done|].
  etransitivity; [|by apply Permutation_flat_map].
  apply flat_map_Forall2_Permutation.
  eapply Forall2_impl; [exact Hall|]. intros x y Hxy. by apply walk_reordered.
Qed.

Lemma filter_Permutation {A : Type} (f : A → bool) (l l' : list A) :
  l ≡ₚ l' → List.filter f l ≡ₚ List.filter f l'.
Proof.
  induction 1 as [|x l l' H IH|x y l|l l' l'' H1 IH1 H2 IH2]; cbn.
  - done.
  - destruct (f x); [by constructor|done].
  - destruct (f x), (f y); try done. apply perm_swap.
  - by etransitivity.
Qed.

Lemma expansion_Permutation (entries entries' : list directory_entry)
    (regular_only : bool) (project_root : string) :
  entries ≡ₚ entries' →
  expansion entries regular_only project_root
  ≡ₚ expansion entries' regular_only project_root.
Proof. intros H. unfold expansion. by apply fmap_Permutation, filter_Permutation. Qed.

Lemma glob_expansion_reordered (glob_expr project_root : string) :
  glob_expansion root glob_expr project_root
  ≡ₚ glob_expansion root' glob_expr project_root.
Proof.
  unfold glob_expansion. rewrite <- !exists_reordered.
  destruct (Str.ends_with glob_expr suffix_recursive).
  - destruct (exists_ root _); [|done].
    apply expansion_Permutation, recursive_directory_iterator_reordered.
  - destruct (Str.ends_with glob_expr suffix); [|done].
    destruct (exists_ root _); [|done].
    apply expansion_Permutation, directory_iterator_reordered.
Qed.

End TwoSnapshots.

End Reordering.

(** ** Claims on glob expansion *)

Lemma reordered_inside (name : string) (entries entries' : list Fs.node) :
  Forall2 Fs.reordered entries entries' →
  Fs.reordered (Fs.Dir name entries) (Fs.Dir name entries').
Proof. intros H. by apply Fs.reordered_dir with entries'. Qed.

Lemma reordered_here (name : string) (entries entries' : list Fs.node) :
  entries ≡ₚ entries' →
  Fs.reordered (Fs.Dir name entries) (Fs.Dir name entries').
Proof.
  intros H. apply Fs.reordered_dir with entries; [|done].
  apply Forall2_same, Forall_forall. intros n _. apply reordered_refl.
Qed.

Lemma order_ab_ba_reordered : Fs.reordered order_ab order_ba.
Proof.
  unfold order_ab, order_ba, project.
  apply reordered_inside. constructor; [|constructor].
  apply reordered_inside. constructor; [|constructor].
  apply reordered_inside. constructor; [apply reordered_refl|].
  constructor; [|constructor].
  apply reordered_here, perm_swap.
Qed.

(** C3, as stated, fails: for the two orders of enumeration of [order_ab]
    and [order_ba] the file lists of the expansion of [m/*.ixx] and of
    [m/**/*.ixx] are different lists, and for [order_ba] they are not
    sorted. *)
Lemma glob_list_follows_enumeration_order :
  Fs.reordered order_ab order_ba
  ∧ BuildTarget.module_interfaces
      (processGlobExpression order_ab "m/*.ixx" empty_target "/p/src")
    = ["m/a.ixx"; "m/b.ixx"]
  ∧ BuildTarget.module_interfaces
      (processGlobExpression order_ba "m/*.ixx" empty_target "/p/src")
    = ["m/b.ixx"; "m/a.ixx"]
  ∧ BuildTarget.module_interfaces
      (processGlobExpression order_ab "m/**/*.ixx" empty_target "/p/src")
    = ["m/a.ixx"; "m/b.ixx"]
  ∧ BuildTarget.module_interfaces
      (processGlobExpression order_ba "m/**/*.ixx" empty_target "/p/src")
    = ["m/b.ixx"; "m/a.ixx"].
Proof.
  split_and!; try (vm_compute; reflexivity).
  apply order_ab_ba_reordered.
Qed.

(** C3, amended.  For two snapshots of a well-formed tree that differ in
    the order of enumeration only, the file lists a glob expression adds
    to a target hold the same paths, each as often in the one as in the
    other; their order follows the enumeration. *)
Theorem glob_expansion_same_files (root root' : Fs.node)
    (glob_expr project_root : string) (target : BuildTarget.t) :
  Fs.wf root = true →
  Fs.reordered root root' →
  BuildTarget.module_interfaces
    (processGlobExpression root glob_expr target project_root)
  ≡ₚ BuildTarget.module_interfaces
       (processGlobExpression root' glob_expr target project_root).
Proof.
  intros Hwf Hre. rewrite !processGlobExpression_interfaces.
  apply Permutation_app_head. by apply glob_expansion_reordered.
Qed.

Lemma glob_expansion_same_files_witness :
  BuildTarget.module_interfaces
    (processGlobExpression order_ab "m/*.ixx" empty_target "/p/src")
  ≡ₚ BuildTarget.module_interfaces
       (processGlobExpression order_ba "m/*.ixx" empty_target "/p/src").
Proof.
  apply (glob_expansion_same_files order_ab order_ba "m/*.ixx" "/p/src" empty_target).
  - vm_compute. reflexivity.
  - apply order_ab_ba_reordered.
Defined.

(** ** Relative paths *)
Section RelativePaths.

Import Fs.

Lemma proper_name_slash_free (c : string) : proper_name c = true → slash_free c.
Proof.
  unfold proper_name, slash_free. intros [_ H]%andb_prop.
  by destruct (Str.find_char "/" c).
Qed.

Lemma split_path_aux_app (cur x y : string) :
  split_path_aux cur (x ++ String "/" y)
  = (split_path_aux cur x ++ split_path_aux "" y)%list.
Proof.
  revert cur. induction x as [|a x IH]; intros cur; [done|].
  rewrite app_cons. cbn [split_path_aux].
  destruct (Ascii.eqb a "/"); rewrite IH; done.
Qed.

Lemma split_path_aux_single (cur c : string) :
  slash_free c → split_path_aux cur c = [cur ++ c].
Proof.
  unfold slash_free. revert cur. induction c as [|a c IH]; intros cur H.
  - by rewrite app_nil_r_str.
  - cbn [Str.find_char] in H. cbn [split_path_aux].
    destruct (Ascii.eqb a "/"); [done|].
    rewrite IH by (by destruct (Str.find_char "/" c)).
    by rewrite app_assoc_str.
Qed.

Lemma split_path_aux_slash_free (cur s : string) :
  slash_free cur → Forall slash_free (split_path_aux cur s).
Proof.
  revert cur. induction s as [|a s IH]; intros cur H; cbn [split_path_aux].
  - by constructor.
  - destruct (Ascii.eqb a "/") eqn:E.
    + constructor; [done|]. by apply IH.
    + apply IH. apply find_char_app_None. split; [done|]. cbn. by rewrite E.
Qed.

Lemma split_path_slash_free (s : string) : Forall slash_free (split_path s).
Proof. by apply split_path_aux_slash_free. Qed.

(** Splitting a joined path gives the components back. *)
Lemma split_path_aux_join (cur c : string) (cs : list string) :
  Forall slash_free (c :: cs) →
  split_path_aux cur (Str.join "/" (c :: cs)) = (cur ++ c) :: cs.
Proof.
  revert cur c. induction cs as [|c' cs IH]; intros cur c Hall.
  - apply Forall_cons in Hall as [Hc _]. by apply split_path_aux_single.
  - apply Forall_cons in Hall as [Hc Hall].
    change (Str.join "/" (c :: c' :: cs)) with (c ++ String "/" (Str.join "/" (c' :: cs))).
    rewrite split_path_aux_app, split_path_aux_single, IH by done. done.
Qed.

Lemma split_path_join (c : string) (cs : list string) :
  Forall slash_free (c :: cs) → split_path (Str.join "/" (c :: cs)) = c :: cs.
Proof. intros H. unfold split_path. by rewrite split_path_aux_join. Qed.

Lemma removelast_snoc {A : Type} (l : list A) (x : A) : removelast (l ++ [x]) = l.
Proof. apply removelast_last. Qed.

Lemma normal_removelast (p : cpath) : normal p → normal (removelast p).
Proof.
  unfold normal. induction p as [|c [|c' p] IH]; intros H; [done|constructor|].
  apply Forall_cons in H as [Hc H].
  change (removelast (c :: c' :: p)) with (c :: removelast (c' :: p)).
  constructor; [done|]. by apply IH.
Qed.

Lemma step_normal (cur : cpath) (c : string) :
  normal cur → slash_free c → normal (step cur c).
Proof.
  intros Hcur Hc. unfold step.
  destruct (String.eqb c "") eqn:E1; [done|].
  destruct (String.eqb c ".") eqn:E2; [done|]. cbn [orb].
  destruct (String.eqb c "..") eqn:E3; [by apply normal_removelast|].
  apply Forall_app. split; [done|]. constructor; [|constructor].
  unfold proper_name. rewrite E1, E2, E3. cbn. by rewrite Hc.
Qed.

Lemma foldl_step_normal (cs : list string) (cur : cpath) :
  normal cur → Forall slash_free cs → normal (foldl step cur cs).
Proof.
  revert cur. induction cs as [|c cs IH]; intros cur Hcur Hcs; [done|].
  apply Forall_cons in Hcs as [Hc Hcs]. cbn [foldl].
  apply IH; [|done]. by apply step_normal.
Qed.

Lemma weakly_canonical_normal (p : string) : normal (weakly_canonical p).
Proof. apply foldl_step_normal; [constructor|apply split_path_slash_free]. Qed.

(** A proper name is pushed. *)
Lemma step_proper (cur : cpath) (c : string) :
  proper_name c = true → step cur c = (cur ++ [c])%list.
Proof.
  unfold proper_name, step. intros [[[H1 H2]%andb_prop H3]%andb_prop _]%andb_prop.
  apply negb_true_iff in H1, H2, H3. by rewrite H1, H2, H3.
Qed.

Lemma foldl_step_names (names : list string) (cur : cpath) :
  normal names → foldl step cur names = (cur ++ names)%list.
Proof.
  revert cur. induction names as [|c names IH]; intros cur H.
  - by rewrite app_nil_r.
  - apply Forall_cons in H as [Hc H]. cbn [foldl].
    rewrite step_proper, IH, <- app_assoc by done. done.
Qed.

(** As many [..] as a path has names lead back to where it starts. *)
Lemma foldl_step_up (tail : list string) (cur : cpath) :
  foldl step (cur ++ tail)%list (List.repeat ".." (List.length tail)) = cur.
Proof.
  induction tail as [|c tail IH] using rev_ind.
  - by rewrite app_nil_r.
  - rewrite List.length_app, Nat.add_comm. cbn [List.length Nat.add List.repeat foldl].
    unfold step at 2. cbn. by rewrite app_assoc, removelast_snoc.
Qed.

(** What [lexically_relative] answers: one [..] for every name of the base
    below the common prefix, then the names of the path below it. *)
Lemma lexically_relative_spec (p base : cpath) :
  ∃ common p' base',
    p = (common ++ p')%list ∧ base = (common ++ base')%list
    ∧ lexically_relative p base = (List.repeat ".." (List.length base') ++ p')%list.
Proof.
  revert base. induction p as [|a p IH]; intros base.
  - exists [], [], base. by destruct base.
  - destruct base as [|b base]; [by exists [], (a :: p), []|].
    cbn [lexically_relative]. destruct (String.eqb_spec a b) as [->|Hab].
    + destruct (IH base) as (common & p' & base' & -> & -> & ->).
      by exists (b :: common), p', base'.
    + by exists [], (a :: p), (b :: base).
Qed.

Lemma drop_take_str (n : nat) (s : string) : s = Str.take n s ++ Str.drop n s.
Proof.
  revert s. induction n as [|n IH]; intros [|a s]; cbn; try done.
  rewrite app_cons. by rewrite <- IH.
Qed.

Lemma ends_with_spec (s p : string) :
  Str.ends_with s p = true → ∃ x, s = x ++ p.
Proof.
  unfold Str.ends_with. intros [_ H]%andb_prop. apply String.eqb_eq in H.
  pose proof (drop_take_str (String.length s - String.length p) s) as Hs.
  rewrite H in Hs. by eexists.
Qed.

(** The path a base is extended with: the base, then the components of
    what is appended, when that does not start at the root. *)
Lemma weakly_canonical_append (base r : string) :
  Str.starts_with r "/" = false →
  weakly_canonical (append base r) = foldl step (weakly_canonical base) (split_path r).
Proof.
  intros Hr. unfold append. rewrite Hr.
  destruct (String.eqb_spec base "") as [->|Hbase]; cbn [orb]; [done|].
  unfold weakly_canonical.
  destruct (Str.ends_with base "/") eqn:E.
  - apply ends_with_spec in E as [x ->].
    rewrite app_assoc_str. change ("/" ++ r) with (String "/" r).
    change (x ++ "/") with (x ++ String "/" "").
    unfold split_path. rewrite !split_path_aux_app, !foldl_app. done.
  - change ("/" ++ r) with (String "/" r).
    unfold split_path. by rewrite split_path_aux_app, foldl_app.
Qed.

Lemma starts_with_slash_app (c t : string) :
  c ≠ "" → slash_free c → Str.starts_with (c ++ t) "/" = false.
Proof.
  destruct c as [|a c]; [done|]. intros _ H. unfold slash_free in H.
  cbn in H. rewrite app_cons. cbn. by destruct (Ascii.eqb a "/").
Qed.

Lemma join_head (c : string) (cs : list string) :
  ∃ t, Str.join "/" (c :: cs) = c ++ t.
Proof.
  destruct cs as [|c' cs].
  - exists "". by rewrite app_nil_r_str.
  - by eexists.
Qed.

(** Joined to the base, the relative path of [p] leads to [p]. *)
Lemma relative_roundtrip (p base : string) :
  weakly_canonical (append base (relative p base)) = weakly_canonical p.
Proof.
  pose proof (weakly_canonical_normal p) as Hp.
  destruct (lexically_relative_spec (weakly_canonical p) (weakly_canonical base))
    as (common & p' & base' & HP & HB & Hrel).
  unfold relative. rewrite Hrel.
  rewrite HP in Hp. apply Forall_app in Hp as [_ Hp'].
  assert (Forall slash_free (List.repeat ".." (List.length base') ++ p')%list) as Hfree.
  { apply Forall_app. split.
    - apply Forall_forall. by intros x ->%list_elem_of_In%repeat_spec.
    - eapply Forall_impl; [exact Hp'|]. apply proper_name_slash_free. }
  destruct (List.repeat ".." (List.length base') ++ p')%list as [|c cs] eqn:E.
  - apply app_eq_nil in E as [E ->]. destruct base'; [|done].
    rewrite weakly_canonical_append by done. cbn. rewrite HP, HB. done.
  - rewrite weakly_canonical_append.
    + rewrite split_path_join, <- E, foldl_app by done.
      rewrite HB at 1. rewrite foldl_step_up, foldl_step_names by done. done.
    + destruct (join_head c cs) as [t ->].
      apply Forall_cons in Hfree as [Hc _].
      apply starts_with_slash_app; [|done].
      destruct base'; cbn in E.
      * destruct p'; inversion E; subst. apply Forall_cons in Hp' as [Hc' _].
        intros ->. done.
      * inversion E. done.
Qed.

End RelativePaths.

(** ** The directory of the descriptor file *)
Section DescriptorDirectory.

Import Fs.

Lemma rfind_char_None (c : ascii) (s : string) :
  Str.find_char c s = None → rfind_char c s = None.
Proof.
  induction s as [|a s IH]; [done|]. cbn.
  destruct (Ascii.eqb a c); [done|].
  destruct (Str.find_char c s); [done|]. intros _. by rewrite IH.
Qed.

Lemma rfind_char_app_hit (c : ascii) (x y : string) :
  Str.find_char c y = None →
  rfind_char c (x ++ String c y) = Some (String.length x).
Proof.
  intros Hy. induction x as [|a x IH].
  - rewrite app_nil_l_str. cbn [rfind_char].
    rewrite rfind_char_None by done. by rewrite eqb_ascii_refl.
  - rewrite app_cons. cbn [rfind_char]. by rewrite IH.
Qed.

(** A slash at the end of a path does not change where it leads. *)
Lemma weakly_canonical_trailing_slash (s : string) :
  weakly_canonical (s ++ "/") = weakly_canonical s.
Proof.
  unfold weakly_canonical, split_path.
  change (s ++ "/") with (s ++ String "/" "").
  by rewrite split_path_aux_app, foldl_app.
Qed.

Lemma weakly_canonical_slashes (k : nat) (s : string) :
  weakly_canonical (s ++ slashes k) = weakly_canonical s.
Proof.
  revert s. induction k as [|k IH]; intros s; [by rewrite app_nil_r_str|].
  cbn [slashes]. change (String "/" (slashes k)) with ("/" ++ slashes k).
  by rewrite <- app_assoc_str, IH, weakly_canonical_trailing_slash.
Qed.

Lemma strip_trailing_slashes_spec (s : string) :
  ∃ k, s = strip_trailing_slashes s ++ slashes k.
Proof.
  induction s as [|a s [k Hs]]; [by exists 0|].
  cbn [strip_trailing_slashes].
  destruct (Ascii.eqb_spec a "/") as [->|Ha]; cbn [andb].
  - destruct (String.eqb_spec (strip_trailing_slashes s) "") as [E|E].
    + exists (S k). rewrite E in Hs. by rewrite Hs at 1.
    + exists k. by rewrite app_cons, <- Hs.
  - exists k. by rewrite app_cons, <- Hs.
Qed.

(** The parent of a path leads where the path without its slashes at the
    end leads. *)
Lemma weakly_canonical_stripped (s : string) :
  weakly_canonical
    (if String.eqb (strip_trailing_slashes s) "" then "/" else strip_trailing_slashes s)
  = weakly_canonical s.
Proof.
  destruct (strip_trailing_slashes_spec s) as [k Hs].
  rewrite Hs at 3. rewrite weakly_canonical_slashes.
  by destruct (String.eqb_spec (strip_trailing_slashes s) "") as [->|_].
Qed.

(** The directory of a file [name] appended to [dir] is [dir]. *)
Lemma weakly_canonical_parent_path (dir name : string) :
  proper_name name = true →
  weakly_canonical (parent_path (append dir name)) = weakly_canonical dir.
Proof.
  intros Hname. pose proof (proper_name_slash_free name Hname) as Hfree.
  assert (Str.starts_with name "/" = false) as Hstart.
  { rewrite <- (app_nil_r_str name). apply starts_with_slash_app; [|done].
    intros ->. done. }
  unfold append. rewrite Hstart.
  destruct (String.eqb_spec dir "") as [->|Hdir]; cbn [orb].
  - rewrite app_nil_l_str. unfold parent_path. by rewrite rfind_char_None.
  - destruct (Str.ends_with dir "/") eqn:E.
    + apply ends_with_spec in E as [x ->].
      rewrite app_assoc_str. change ("/" ++ name) with (String "/" name).
      unfold parent_path. rewrite rfind_char_app_hit, take_app_length by done.
      by rewrite weakly_canonical_stripped, weakly_canonical_trailing_slash.
    + change ("/" ++ name) with (String "/" name).
      unfold parent_path. rewrite rfind_char_app_hit, take_app_length by done.
      apply weakly_canonical_stripped.
Qed.

(** The descriptor file is in [src] under the project root, or in the
    project root. *)
Lemma find_build_file_directory (root : node) (project_root build_file_path : string) :
  find_build_file root project_root = Some build_file_path →
  weakly_canonical (parent_path build_file_path)
  = (weakly_canonical project_root ++ ["src"])%list
  ∨ weakly_canonical (parent_path build_file_path) = weakly_canonical project_root.
Proof.
  unfold find_build_file.
  destruct (exists_ root (append (append project_root "src") "BUILD")).
  - intros [= <-]. left.
    rewrite weakly_canonical_parent_path, weakly_canonical_append by done. done.
  - destruct (exists_ root (append project_root "BUILD")); [|done].
    intros [= <-]. right. by rewrite weakly_canonical_parent_path.
Qed.

End DescriptorDirectory.

(** The loop of [parseBuildFile] stores a target under a name only as the
    parse of a match with that name: of its text, when the parentheses
    balance, and with the directory of the descriptor file as the base of
    the paths. *)
Lemma foldl_parse_target (root : Fs.node) (build_file_path content : string)
    (matches : list Regex.smatch) (build_targets : gmap string BuildTarget.t)
    (target_name : string) (target : BuildTarget.t) :
  foldl (parse_target root build_file_path content) build_targets matches !! target_name
  = Some target →
  build_targets !! target_name = Some target
  ∨ ∃ m pos target_content,
      m ∈ matches
      ∧ Regex.str m 2 = target_name
      ∧ target_extent content (Regex.position m) = Some (pos, target_content)
      ∧ target
        = match Regex.regex_search Regex.module_interfaces_regex target_content with
          | Some interfaces_match =>
              parseModuleInterfaces root (Regex.str interfaces_match 1)
                (BuildTarget.mk target_name (Regex.str m 1) [] ∅)
                (Fs.parent_path build_file_path)
          | None => BuildTarget.mk target_name (Regex.str m 1) [] ∅
          end.
Proof.
  revert build_targets. induction matches as [|m matches IH]; intros build_targets.
  - by left.
  - cbn [foldl]. intros [Hhere|(m' & pos & target_content & Hin & Hrest)]%IH.
    + unfold parse_target in Hhere.
      destruct (target_extent content (Regex.position m)) as [[pos target_content]|] eqn:E;
        [|by left].
      apply lookup_insert_Some in Hhere as [[Hname Htarget]|[_ Hold]]; [|by left].
      right. exists m, pos, target_content. rewrite <- Hname.
      split_and!; [left|done|done|by rewrite <- Htarget].
    + right. exists m', pos, target_content. split; [by right|done].
Qed.

(** C5, as stated, fails: with the descriptor file in [src], the path the
    expansion of [m/*.ixx] records for [/p/src/m/a.ixx] is [m/a.ixx], while
    the path of that file relative to the project root [/p] is
    [src/m/a.ixx]. *)
Lemma glob_path_is_not_relative_to_project_root :
  find_build_file glob_tree "/p" = Some "/p/src/BUILD"
  ∧ BuildTarget.module_interfaces
      (processGlobExpression glob_tree "m/*.ixx" empty_target
         (Fs.parent_path "/p/src/BUILD"))
    = ["m/a.ixx"]
  ∧ Fs.directory_iterator glob_tree "/p/src/m" = [Fs.mk_entry "/p/src/m/a.ixx" true]
  ∧ Fs.relative "/p/src/m/a.ixx" "/p" = "src/m/a.ixx"
  ∧ Fs.exists_ glob_tree (Fs.append "/p" "m/a.ixx") = false.
Proof. split_and!; vm_compute; reflexivity. Qed.

(** The same through the reader: the target [parseBuildFile] stores for
    the descriptor [glob_build] lists [m/a.ixx]. *)
Example parseBuildFile_glob_scenario :
  parseBuildFile glob_build_tree "/p/src/BUILD" ∅
  = {[ "lib" := BuildTarget.mk "lib" "cc_module_library" ["m/a.ixx"] ∅ ]}.
Proof. vm_compute. reflexivity. Qed.

(** C5, amended.  The paths glob expansion records are relative to the
    directory of the descriptor file, which is [src] under the project
    root or the project root itself.  Every target [parseBuildFile] stores
    is the parse of the text of a target of the descriptor with the name
    it is stored under; when the [module_interfaces] field of that text
    holds [glob(], every path in the interface list of the stored target
    is the path of an enumerated entry with the extension of interface
    files, relative to the directory of the descriptor file, and joined to
    that directory it leads to the entry. *)
Theorem glob_paths_relative_to_descriptor_directory
    (root : Fs.node) (project_root build_file_path target_name : string)
    (target : BuildTarget.t) :
  find_build_file root project_root = Some build_file_path →
  parseBuildFile root build_file_path ∅ !! target_name = Some target →
  (Fs.weakly_canonical (Fs.parent_path build_file_path)
   = (Fs.weakly_canonical project_root ++ ["src"])%list
   ∨ Fs.weakly_canonical (Fs.parent_path build_file_path)
     = Fs.weakly_canonical project_root)
  ∧ ∃ content m pos target_content,
      Fs.read root build_file_path = Some content
      ∧ m ∈ Regex.sregex_iterator Regex.build_target_regex content
      ∧ Regex.str m 2 = target_name
      ∧ target_extent content (Regex.position m) = Some (pos, target_content)
      ∧ ∀ interfaces_match,
          Regex.regex_search Regex.module_interfaces_regex target_content
          = Some interfaces_match →
          (∃ a b, Regex.str interfaces_match 1 = a ++ "glob(" ++ b) →
          ∀ f, f ∈ BuildTarget.module_interfaces target →
               ∃ dir entry,
                 (entry ∈ Fs.directory_iterator root dir
                  ∨ entry ∈ Fs.recursive_directory_iterator root dir)
                 ∧ Fs.extension (Fs.path entry) = ".ixx"
                 ∧ f = Fs.relative (Fs.path entry) (Fs.parent_path build_file_path)
                 ∧ Fs.weakly_canonical (Fs.append (Fs.parent_path build_file_path) f)
                   = Fs.weakly_canonical (Fs.path entry).
Proof.
  intros Hbuild Htarget. split; [by eapply find_build_file_directory|].
  unfold parseBuildFile in Htarget.
  destruct (Fs.read root build_file_path) as [content|]; [|done].
  apply foldl_parse_target in Htarget
    as [Hempty|(m & pos & target_content & Hin & Hname & Hextent & Hparse)]; [done|].
  exists content, m, pos, target_content. split_and!; [done..|].
  intros interfaces_match Hfield Hglob f Hf.
  rewrite Hfield in Hparse. rewrite Hparse in Hf. clear Hparse.
  unfold parseModuleInterfaces in Hf.
  apply find_str_Some in Hglob as [n Hglob]. rewrite Hglob in Hf.
  destruct (Regex.regex_search Regex.glob_pattern _); [|by inversion Hf].
  apply foldl_globs_interfaces in Hf as [Hf|(glob & _ & Hf)]; [by inversion Hf|].
  apply elem_of_glob_expansion in Hf as (dir & entry & Hentry & Hext & ->).
  exists dir, entry. split_and!; [done..|]. apply relative_roundtrip.
Qed.

Lemma glob_paths_relative_to_descriptor_directory_witness :
  (Fs.weakly_canonical (Fs.parent_path "/p/src/BUILD") = ["p"; "src"]
   ∨ Fs.weakly_canonical (Fs.parent_path "/p/src/BUILD") = ["p"])
  ∧ ∃ content m pos target_content,
      Fs.read glob_build_tree "/p/src/BUILD" = Some content
      ∧ m ∈ Regex.sregex_iterator Regex.build_target_regex content
      ∧ Regex.str m 2 = "lib"
      ∧ target_extent content (Regex.position m) = Some (pos, target_content)
      ∧ ∀ interfaces_match,
          Regex.regex_search Regex.module_interfaces_regex target_content
          = Some interfaces_match →
          (∃ a b, Regex.str interfaces_match 1 = a ++ "glob(" ++ b) →
          ∀ f, f ∈ ["m/a.ixx"] →
               ∃ dir entry,
                 (entry ∈ Fs.directory_iterator glob_build_tree dir
                  ∨ entry ∈ Fs.recursive_directory_iterator glob_build_tree dir)
                 ∧ Fs.extension (Fs.path entry) = ".ixx"
                 ∧ f = Fs.relative (Fs.path entry) (Fs.parent_path "/p/src/BUILD")
                 ∧ Fs.weakly_canonical (Fs.append (Fs.parent_path "/p/src/BUILD") f)
                   = Fs.weakly_canonical (Fs.path entry).
Proof.
  apply (glob_paths_relative_to_descriptor_directory glob_build_tree "/p" "/p/src/BUILD"
           "lib" (BuildTarget.mk "lib" "cc_module_library" ["m/a.ixx"] ∅)).
  - vm_compute. reflexivity.
  - vm_compute. reflexivity.
Defined.

(** ** The names the scan stores *)
Section ScannedNames.

Lemma search_from_Some (r : Regex.matcher) (pos : nat) (s : string) (m : Regex.smatch) :
  Regex.search_from r pos s = Some m →
  ∃ pos' s', Regex.match_at r pos' s' = Some m.
Proof.
  revert pos. induction s as [|a s IH]; intros pos; cbn [Regex.search_from].
  - destruct (Regex.match_at r pos "") eqn:E; [|done]. intros [= <-]. eauto.
  - destruct (Regex.match_at r pos (String a s)) eqn:E; [intros [= <-]; eauto|].
    apply IH.
Qed.

Lemma export_module_regex_name (s : string) (res : list string * string) :
  Regex.export_module_regex s = Some res →
  ∃ a t, res.1 = [String a t] ∧ Regex.is_name_start a = true.
Proof.
  unfold Regex.export_module_regex. intros H.
  do 4 (apply bind_Some in H as (? & _ & H)).
  apply bind_Some in H as ([a rest] & Hone & H).
  apply bind_Some in H as (? & _ & [= <-]).
  unfold Regex.one in Hone.
  match type of Hone with match ?u with _ => _ end = _ => destruct u as [|c u'] end;
    [done|].
  destruct (Regex.is_name_start c) eqn:E; [|done].
  injection Hone as -> ->. eauto.
Qed.

Lemma is_name_start_not_colon (a : ascii) :
  Regex.is_name_start a = true → Ascii.eqb a ":" = false.
Proof.
  intros H. destruct (Ascii.eqb_spec a ":") as [->|]; [|done].
  vm_compute in H. discriminate.
Qed.

(** The name [extractModuleInfo] answers is empty or is like a module
    name. *)
Lemma extractModuleInfo_name (root : Fs.node) (file_path : string) :
  ModuleInfo.name (extractModuleInfo root file_path) = ""
  ∨ module_name_like (ModuleInfo.name (extractModuleInfo root file_path)).
Proof.
  unfold extractModuleInfo. destruct (Fs.read root file_path); [|by left].
  destruct (Regex.regex_search _ _) as [m|] eqn:E; [|by left]. right.
  apply search_from_Some in E as (pos & rest & E).
  unfold Regex.match_at in E. apply bind_Some in E as (res & Hres & [= <-]).
  apply export_module_regex_name in Hres as (a & t & Hg & Ha).
  cbn [ModuleInfo.name]. unfold Regex.str. cbn [Regex.groups pred]. rewrite Hg.
  split; [done|]. cbn. by rewrite is_name_start_not_colon.
Qed.

(** Every name of a scanned table is like a module name, when the names
    the scan started with are. *)
Lemma scan_sequential_names (root : Fs.node) (ixx_files : list string)
    (modules : gmap string ModuleInfo.t) :
  (∀ name, is_Some (modules !! name) → module_name_like name) →
  ∀ name, is_Some (scan_sequential root ixx_files modules !! name) →
          module_name_like name.
Proof.
  unfold scan_sequential. revert modules.
  induction ixx_files as [|file files IH]; intros modules Hm; [done|].
  cbn [foldl]. apply IH. intros name.
  destruct (String.eqb_spec (ModuleInfo.name (extractModuleInfo root file)) "")
    as [E|E]; cbn [negb]; [apply Hm|].
  rewrite lookup_insert_is_Some. intros [<-|[_ H]]; [|by apply Hm].
  by destruct (extractModuleInfo_name root file).
Qed.

(** The tables [scanProjectModules] fills do not depend on the number of
    hardware threads, as long as a worker is started. *)
Lemma scanProjectModules_any_hardware (hardware_concurrency : N) (root : Fs.node)
    (project_root : string)
    (modules : gmap string ModuleInfo.t) (module_deps : gmap string (list string)) :
  worker_count hardware_concurrency (collect_ixx_files root project_root) ≠ 0%N →
  scanProjectModules hardware_concurrency root project_root modules module_deps
  = Some (scan_sequential root (collect_ixx_files root project_root) modules,
          processModuleDependencies
            (scan_sequential root (collect_ixx_files root project_root) modules)
            module_deps).
Proof.
  intros Hw. unfold scanProjectModules.
  by rewrite (scan_files_eq_sequential root (collect_ixx_files root project_root)
                (worker_count hardware_concurrency (collect_ixx_files root project_root))
                modules Hw).
Qed.

End ScannedNames.

(** ** The exit of the program *)
Section Exit.

Import Fs.

Lemma resolve_from_app (root : node) (cur : cpath) (a b : list string) :
  resolve_from root cur (a ++ b)
  = resolve_from root cur a ≫= fun cur' => resolve_from root cur' b.
Proof.
  revert cur. induction a as [|c a IH]; intros cur; [done|].
  cbn [app resolve_from]. destruct (lookup cur root) as [[]|]; [done| |done].
  destruct (lookup (step cur c) root); [apply IH|done].
Qed.

(** A name is looked up in a directory only. *)
Lemma resolve_from_name (root : node) (cur cur' : cpath) (c : string) :
  resolve_from root cur [c] = Some cur' →
  ∃ name entries, lookup cur root = Some (Dir name entries).
Proof.
  cbn [resolve_from]. destruct (lookup cur root) as [[|name entries]|]; [done| |done].
  eauto.
Qed.

Lemma resolve_from_here (root : node) (cur : cpath) (name : string) (entries : list node) :
  lookup cur root = Some (Dir name entries) →
  resolve_from root cur [""] = Some cur.
Proof. intros H. cbn [resolve_from]. rewrite H. unfold step. cbn. by rewrite H. Qed.

Lemma is_directory_exists (root : node) (p : string) :
  is_directory root p = true → exists_ root p = true.
Proof.
  unfold is_directory, exists_, node_at. by destruct (resolve root p).
Qed.

(** What a name is appended to is a directory, when the result exists. *)
Lemma exists_append_is_directory (root : node) (dir name : string) :
  proper_name name = true → dir ≠ "" →
  exists_ root (append dir name) = true → is_directory root dir = true.
Proof.
  intros Hname Hdir. pose proof (proper_name_slash_free name Hname) as Hfree.
  assert (Str.starts_with name "/" = false) as Hstart.
  { rewrite <- (app_nil_r_str name). apply starts_with_slash_app; [|done].
    intros ->. done. }
  unfold append. rewrite Hstart.
  destruct (String.eqb_spec dir "") as [|_]; [done|]. cbn [orb].
  unfold exists_, is_directory, node_at, resolve.
  destruct (String.eqb_spec dir "") as [|_]; [done|].
  destruct (Str.ends_with dir "/") eqn:E.
  - apply ends_with_spec in E as [x ->].
    rewrite app_assoc_str. change ("/" ++ name) with (String "/" name).
    change (x ++ "/") with (x ++ String "/" "").
    destruct (String.eqb _ ""); [done|].
    unfold split_path. rewrite !split_path_aux_app, !resolve_from_app.
    rewrite (split_path_aux_single "" name) by done.
    destruct (resolve_from root [] (split_path_aux "" x)) as [cur|]; [|done].
    cbn [mbind option_bind split_path_aux].
    destruct (resolve_from root cur ["" ++ name]) as [cur'|] eqn:R; [|done].
    apply resolve_from_name in R as (n & entries & R).
    rewrite (resolve_from_here root cur n entries R). cbn. by rewrite R.
  - change ("/" ++ name) with (String "/" name).
    destruct (String.eqb _ ""); [done|].
    unfold split_path. rewrite split_path_aux_app, resolve_from_app.
    rewrite (split_path_aux_single "" name) by done.
    destruct (resolve_from root [] (split_path_aux "" dir)) as [cur|]; [|done].
    cbn [mbind option_bind].
    destruct (resolve_from root cur ["" ++ name]) as [cur'|] eqn:R; [|done].
    apply resolve_from_name in R as (n & entries & R). by rewrite R.
Qed.

Lemma append_not_empty (dir name : string) : dir ≠ "" → append dir name ≠ "".
Proof.
  destruct dir as [|a dir]; [done|]. intros _. unfold append.
  destruct (Str.starts_with name "/") eqn:E.
  - destruct name; [done|]. done.
  - destruct (_ || _); by rewrite app_cons.
Qed.

(** The project root is a directory once a descriptor file has been found
    below it: the scan of the project does not throw. *)
Lemma find_build_file_scan (root : node) (project_root build_file_path : string) :
  exists_ root project_root = true →
  find_build_file root project_root = Some build_file_path →
  scanProjectModules_throws root project_root = false.
Proof.
  intros Hroot. assert (project_root ≠ "") as Hne by (by intros ->).
  unfold find_build_file, scanProjectModules_throws, iterator_throws.
  destruct (exists_ root (append (append project_root "src") "BUILD")) eqn:E1.
  - intros _. apply exists_append_is_directory in E1; [|done|by apply append_not_empty].
    apply is_directory_exists, exists_append_is_directory in E1; [|done..].
    by rewrite E1.
  - destruct (exists_ root (append project_root "BUILD")) eqn:E2; [|done].
    intros _. apply exists_append_is_directory in E2; [|done..]. by rewrite E2.
Qed.

Lemma read_not_open (root : node) (p : string) :
  is_open root p = false → read root p = None.
Proof.
  unfold is_open, read. destruct (node_at root p) as [[name [] w content|]|]; done.
Qed.

(** A descriptor that is a directory makes the reader throw. *)
Lemma directory_descriptor_throws (root : node) (argv : list string)
    (program project_root build_file_path : string) (rest : list string) :
  argv = program :: project_root :: rest →
  find_build_file root project_root = Some build_file_path →
  is_directory root build_file_path = true →
  reader_throws root argv = true.
Proof.
  intros -> Hbuild Hdir. unfold reader_throws, parseBuildFile_throws, read_fails.
  by rewrite Hbuild, Hdir.
Qed.

(** A glob pattern that makes the reader throw names a path that is there
    and is not a directory. *)
Lemma processGlobExpression_throws_spec (root : node) (glob_expr project_root : string) :
  processGlobExpression_throws root glob_expr project_root = true →
  ∃ full_dir_path,
    exists_ root full_dir_path = true ∧ is_directory root full_dir_path = false.
Proof.
  unfold processGlobExpression_throws, iterator_throws.
  destruct (Str.ends_with glob_expr suffix_recursive).
  - intros [? ?%negb_true_iff]%andb_prop. eauto.
  - destruct (Str.ends_with glob_expr suffix); [|done].
    intros [? ?%negb_true_iff]%andb_prop. eauto.
Qed.

End Exit.

(** C4, as stated, fails: with a descriptor file that exists and cannot be
    read the program ends with exit code 0. *)
Lemma unreadable_descriptor_exits_with_0 :
  descriptor_unreadable unreadable_tree argv_p = true
  ∧ main 2 unreadable_tree argv_p = Finished (mk_run 0 None unreadable_tree).
Proof. split; vm_compute; reflexivity. Qed.

(** With a descriptor that is a directory the program does not reach an
    exit code: the stream opens, the read throws and nothing catches the
    exception. *)
Example directory_descriptor_scenario :
  find_build_file directory_descriptor_tree "/p" = Some "/p/src/BUILD"
  ∧ Fs.is_open directory_descriptor_tree "/p/src/BUILD" = true
  ∧ main 4 directory_descriptor_tree argv_p = UncaughtException.
Proof. split_and!; vm_compute; reflexivity. Qed.

(** The same with a glob pattern over a regular file: [fs::exists] answers
    yes and the constructor of the iterator throws. *)
Example glob_of_file_scenario :
  Fs.exists_ glob_of_file_tree "/p/src/lit.ixx" = true
  ∧ Fs.iterator_throws glob_of_file_tree "/p/src/lit.ixx" = true
  ∧ main 4 glob_of_file_tree argv_p = UncaughtException.
Proof. split_and!; vm_compute; reflexivity. Qed.

(** Without an interface file under the project root no worker would be
    started, and the program divides by zero. *)
Example no_interface_file_scenario :
  main 4 (project [Fs.File "BUILD" true true ""]) argv_p = DivisionByZero.
Proof. vm_compute. reflexivity. Qed.

(** C4, amended.  For a descriptor whose target names hold no character
    special to regular expressions: on a setup error (no project root on
    the command line, no such directory, no descriptor file in [src] or in
    the root) the program ends with exit code 1 and writes nothing.
    Otherwise it is ended by an uncaught exception exactly when the reader
    throws (the descriptor is a directory, or a glob pattern names
    something that is there and is not a directory); else it divides by
    zero exactly when it would start no worker; else it ends with exit
    code 0, and when the descriptor file cannot be read it writes nothing
    either. *)
Theorem main_exit_code (hardware_concurrency : N) (root : Fs.node) (argv : list string) :
  plain_target_names root argv = true →
  match main hardware_concurrency root argv with
  | Finished r =>
      (if fatal_setup root argv
       then exit_code r = 1%Z ∧ write_attempt r = None ∧ final r = root
       else reader_throws root argv = false
            ∧ workers_of hardware_concurrency root argv ≠ 0%N
            ∧ exit_code r = 0%Z
            ∧ if descriptor_unreadable root argv
              then write_attempt r = None ∧ final r = root
              else True)
  | UncaughtException =>
      fatal_setup root argv = false
      ∧ reader_throws root argv = true
  | DivisionByZero =>
      fatal_setup root argv = false
      ∧ reader_throws root argv = false
      ∧ workers_of hardware_concurrency root argv = 0%N
  end.
Proof.
  intros _.
  unfold main, fatal_setup, descriptor_unreadable, reader_throws, workers_of.
  destruct argv as [|program [|project_root rest]]; [done..|].
  destruct (Fs.exists_ root project_root) eqn:Hroot; cbn [negb orb]; [|done].
  assert (match find_build_file root project_root with Some _ => false | None => true end
          = negb (Fs.exists_ root (Fs.append (Fs.append project_root "src") "BUILD"))
            && negb (Fs.exists_ root (Fs.append project_root "BUILD"))) as <-.
  { unfold find_build_file.
    destruct (Fs.exists_ root (Fs.append (Fs.append project_root "src") "BUILD"));
      [done|].
    by destruct (Fs.exists_ root (Fs.append project_root "BUILD")). }
  destruct (find_build_file root project_root) as [build_file_path|] eqn:Hbuild; [|done].
  rewrite (find_build_file_scan root project_root build_file_path Hroot Hbuild).
  destruct (parseBuildFile_throws root build_file_path) eqn:Hthrows; [done|].
  assert (updateBuildFile_throws root build_file_path = false) as Hupdate.
  { unfold parseBuildFile_throws in Hthrows. by apply orb_false_elim in Hthrows as [? _]. }
  unfold scanner_state, scanProjectModules, scan_files.
  destruct (N.eqb_spec (worker_count hardware_concurrency
                          (collect_ixx_files root project_root)) 0) as [Hz|Hnz].
  { done. }
  cbn. rewrite Hupdate. cbn. split_and!; [done..|].
  destruct (Fs.is_open root build_file_path) eqn:Hopen; [done|]. cbn [negb].
  unfold updateBuildFile, text_to_write. by rewrite (read_not_open _ _ Hopen).
Qed.

Lemma main_exit_code_witness :
  plain_target_names synced_tree argv_p = true
  ∧ match main 2 synced_tree argv_p with
  | Finished r =>
      (if fatal_setup synced_tree argv_p
       then exit_code r = 1%Z ∧ write_attempt r = None ∧ final r = synced_tree
       else reader_throws synced_tree argv_p = false
            ∧ workers_of 2 synced_tree argv_p ≠ 0%N
            ∧ exit_code r = 0%Z
            ∧ if descriptor_unreadable synced_tree argv_p
              then write_attempt r = None ∧ final r = synced_tree
              else True)
  | UncaughtException =>
      fatal_setup synced_tree argv_p = false
      ∧ reader_throws synced_tree argv_p = true
  | DivisionByZero =>
      fatal_setup synced_tree argv_p = false
      ∧ reader_throws synced_tree argv_p = false
      ∧ workers_of 2 synced_tree argv_p = 0%N
    end.
Proof.
  split; [vm_compute; reflexivity|].
  apply (main_exit_code 2 synced_tree argv_p). vm_compute. reflexivity.
Defined.

(** * Further properties *)

(** ** The interface-file parser *)
Section Parser.

Lemma drop_app_length (x y : string) : Str.drop (String.length x) (x ++ y) = y.
Proof. induction x; [done|]. rewrite app_cons. cbn. done. Qed.

Lemma ends_with_app (x p : string) : Str.ends_with (x ++ p) p = true.
Proof.
  unfold Str.ends_with. rewrite str_length_app.
  replace (String.length x + String.length p - String.length p)%nat
    with (String.length x) by lia.
  rewrite drop_app_length, String.eqb_refl.
  apply andb_true_intro. split; [|done]. apply Nat.leb_le. lia.
Qed.

Lemma app_inv_tail_str (x y p : string) : x ++ p = y ++ p → x = y.
Proof.
  intros H. assert (String.length x = String.length y) as Hlen.
  { apply (f_equal String.length) in H. rewrite !str_length_app in H. lia. }
  revert y H Hlen. induction x as [|a x IH]; intros [|b y] H Hlen; try done.
  rewrite !app_cons in H. injection H as -> H. f_equal. apply IH; [done|].
  cbn in Hlen. lia.
Qed.

Lemma substr_app_length (x p : string) :
  Str.substr (x ++ p) 0 (String.length (x ++ p) - String.length p) = x.
Proof.
  unfold Str.substr. cbn [Str.drop]. rewrite str_length_app.
  replace (String.length x + String.length p - String.length p)%nat
    with (String.length x) by lia.
  apply take_app_length.
Qed.

(** The file name a module is expected in is its name with every colon
    turned into a hyphen, followed by [.ixx]; a file name is accepted when
    it is that name, or when it is that name without the extension and does
    not itself end with [.ixx]. *)
Theorem validateFilenameModuleName_spec (filename module_name : string) :
  (validateFilenameModuleName filename module_name).2
  = Str.replace_char ":" "-" module_name ++ ".ixx"
  ∧ ((validateFilenameModuleName filename module_name).1 = true
     ↔ filename = Str.replace_char ":" "-" module_name ++ ".ixx"
       ∨ filename = Str.replace_char ":" "-" module_name
         ∧ Str.ends_with filename ".ixx" = false).
Proof.
  unfold validateFilenameModuleName. cbn [fst snd]. split; [done|].
  set (expected := Str.replace_char ":" "-" module_name).
  change 4%nat with (String.length ".ixx").
  rewrite (substr_app_length expected ".ixx"), String.eqb_eq.
  destruct (Str.ends_with filename ".ixx") eqn:E.
  - apply ends_with_spec in E as [x ->]. rewrite substr_app_length. split.
    + intros ->. by left.
    + intros [H|[_ ?]]; [|done]. by apply app_inv_tail_str in H.
  - split; [by right|]. intros [->|[? _]]; [|done].
    by rewrite ends_with_app in E.
Qed.


Lemma iterate_from_elem (r : Regex.matcher) (s : string) (skip pos : nat)
    (m : Regex.smatch) :
  m ∈ Regex.iterate_from r skip pos s →
  ∃ pos' s', Regex.match_at r pos' s' = Some m.
Proof.
  revert skip pos. induction s as [|a s IH]; intros skip pos.
  - destruct skip; cbn [Regex.iterate_from]; [|by inversion 1].
    destruct (Regex.match_at r pos "") eqn:E; [|by inversion 1].
    intros ->%list_elem_of_singleton. eauto.
  - destruct skip; cbn [Regex.iterate_from]; [|apply IH].
    destruct (Regex.match_at r pos (String a s)) eqn:E; [|apply IH].
    intros [->|H]%elem_of_cons; [eauto|]. by eapply IH.
Qed.

Lemma match_at_groups (r : Regex.matcher) (pos : nat) (s : string) (m : Regex.smatch) :
  Regex.match_at r pos s = Some m →
  ∃ res, r s = Some res ∧ Regex.groups m = res.1
         ∧ Regex.position m = pos
         ∧ Regex.length m = (String.length s - String.length res.2)%nat.
Proof.
  unfold Regex.match_at. intros (res & Hres & [= <-])%bind_Some. by exists res.
Qed.

Lemma span_all_in (cls : ascii → bool) (s : string) :
  all_in cls (Regex.span cls s).1 = true.
Proof.
  induction s as [|a s IH]; [done|]. cbn [Regex.span].
  destruct (cls a) eqn:E; [|done].
  destruct (Regex.span cls s) as [x r]. cbn in *. by rewrite E.
Qed.

Lemma import_tail_group (s : string) (res : list string * string) :
  Regex.import_tail s = Some res → ∃ name, res.1 = [name] ∧ import_like name.
Proof.
  unfold Regex.import_tail. intros H.
  apply bind_Some in H as ([a rest] & Hone & H).
  apply bind_Some in H as (? & _ & [= <-]).
  unfold Regex.one in Hone. destruct s as [|c u]; [done|].
  destruct (Regex.is_import_start c) eqn:E; [|done].
  injection Hone as -> ->. eexists. split; [done|].
  exists a, (Regex.span Regex.is_name_char rest).1. split_and!; [done..|].
  apply span_all_in.
Qed.

Lemma import_module_regex_group (s : string) (res : list string * string) :
  Regex.import_module_regex s = Some res → ∃ name, res.1 = [name] ∧ import_like name.
Proof.
  unfold Regex.import_module_regex. intros H.
  do 2 (apply bind_Some in H as (? & _ & H)). by apply import_tail_group in H.
Qed.

Lemma export_import_regex_group (s : string) (res : list string * string) :
  Regex.export_import_regex s = Some res → ∃ name, res.1 = [name] ∧ import_like name.
Proof.
  unfold Regex.export_import_regex. intros H.
  do 4 (apply bind_Some in H as (? & _ & H)). by apply import_tail_group in H.
Qed.

Lemma elem_of_imports_by (r : Regex.matcher) (content name : string) :
  (∀ s res, r s = Some res → ∃ n, res.1 = [n] ∧ import_like n) →
  name ∈ imports_by r content →
  import_like name ∧ is_module_import name = true.
Proof.
  intros Hr. unfold imports_by.
  rewrite list_elem_of_In, filter_In, <- list_elem_of_In, list_elem_of_fmap.
  intros [(m & -> & Hm) Hok]. split; [|done].
  apply iterate_from_elem in Hm as (pos & s & Hm).
  apply match_at_groups in Hm as (res & Hres & Hg & _).
  apply Hr in Hres as (n & Hn & Hlike).
  unfold Regex.str. cbn [pred]. by rewrite Hg, Hn.
Qed.

(** The imports of a parsed file are in strictly increasing order, so
    without repetition; each is a captured name (not empty, starting with a
    letter, an underscore or a colon) that ends neither with [.h] nor with
    [.hpp]. *)
Theorem extractModuleInfo_imports (root : Fs.node) (file_path : string) :
  StronglySorted Str.lt (ModuleInfo.imports (extractModuleInfo root file_path))
  ∧ ∀ name, name ∈ ModuleInfo.imports (extractModuleInfo root file_path) →
            import_like name
            ∧ Str.ends_with name ".h" = false
            ∧ Str.ends_with name ".hpp" = false.
Proof.
  unfold extractModuleInfo.
  destruct (Fs.read root file_path) as [bytes|]; [|split; [constructor|by inversion 1]].
  set (content := read_prefix MAX_READ_SIZE bytes).
  assert (∀ l, ModuleInfo.imports
                 match Regex.regex_search Regex.export_module_regex content with
                 | Some m =>
                     ModuleInfo.mk (Regex.str m 1) l file_path
                       (validateFilenameModuleName (Fs.filename file_path) (Regex.str m 1)).1
                       (validateFilenameModuleName (Fs.filename file_path) (Regex.str m 1)).2
                 | None => ModuleInfo.mk "" l file_path true ""
                 end = l) as ->.
  { intros l. by destruct (Regex.regex_search _ _). }
  split; [apply sort_unique_StronglySorted|].
  intros name [Hin|Hin]%elem_of_sort_unique%elem_of_app.
  - apply elem_of_imports_by in Hin as [Hlike Hok];
      [|apply import_module_regex_group].
    unfold is_module_import in Hok.
    apply andb_prop in Hok as [[_ H1]%andb_prop H2]. apply negb_true_iff in H1, H2. done.
  - apply elem_of_imports_by in Hin as [Hlike Hok];
      [|apply export_import_regex_group].
    unfold is_module_import in Hok.
    apply andb_prop in Hok as [[_ H1]%andb_prop H2]. apply negb_true_iff in H1, H2. done.
Qed.

Lemma read_prefix_app (c d : string) :
  read_prefix (N.of_nat (String.length c)) (c ++ d) = c.
Proof.
  induction c as [|a c IH].
  - cbn. by destruct d.
  - rewrite app_cons. cbn [read_prefix String.length].
    destruct (N.eqb_spec (N.of_nat (S (String.length c))) 0) as [E|_]; [lia|].
    replace (N.pred (N.of_nat (S (String.length c)))) with (N.of_nat (String.length c))
      by lia.
    by rewrite IH.
Qed.

(** Only the first [MAX_READ_SIZE] bytes of a file are looked at: two
    files that agree on them give the same module information. *)
Theorem extractModuleInfo_reads_a_prefix (root root' : Fs.node)
    (file_path head tail tail' : string) :
  N.of_nat (String.length head) = MAX_READ_SIZE →
  Fs.read root file_path = Some (head ++ tail) →
  Fs.read root' file_path = Some (head ++ tail') →
  extractModuleInfo root file_path = extractModuleInfo root' file_path.
Proof.
  intros Hlen H H'. unfold extractModuleInfo. rewrite H, H', <- Hlen.
  by rewrite !read_prefix_app.
Qed.

Lemma extractModuleInfo_reads_a_prefix_witness :
  extractModuleInfo (long_tree "import late;") "/p/src/m.ixx"
  = extractModuleInfo (long_tree "") "/p/src/m.ixx".
Proof.
  apply (extractModuleInfo_reads_a_prefix _ _ "/p/src/m.ixx" long_head "import late;" "").
  - vm_compute. reflexivity.
  - vm_compute. reflexivity.
  - vm_compute. reflexivity.
Defined.

End Parser.

(** ** The module table *)
Section ModuleTable.

Variable root : Fs.node.

Lemma export_module_regex_group (s : string) (res : list string * string) :
  Regex.export_module_regex s = Some res →
  ∃ name, res.1 = [name] ∧ declared_name_like name.
Proof.
  unfold Regex.export_module_regex. intros H.
  do 4 (apply bind_Some in H as (? & _ & H)).
  apply bind_Some in H as ([a rest] & Hone & H).
  apply bind_Some in H as (? & _ & [= <-]).
  unfold Regex.one in Hone.
  match type of Hone with match ?u with _ => _ end = _ => destruct u as [|c u'] end;
    [done|].
  destruct (Regex.is_name_start c) eqn:E; [|done].
  injection Hone as -> ->. eexists. split; [done|].
  exists a, (Regex.span Regex.is_name_char rest).1. split_and!; [done..|].
  apply span_all_in.
Qed.

Lemma extractModuleInfo_declared (file_path : string) :
  ModuleInfo.name (extractModuleInfo root file_path) ≠ "" →
  declared_name_like (ModuleInfo.name (extractModuleInfo root file_path))
  ∧ ModuleInfo.file_path (extractModuleInfo root file_path) = file_path.
Proof.
  unfold extractModuleInfo. destruct (Fs.read root file_path); [|done].
  destruct (Regex.regex_search _ _) as [m|] eqn:E; [|done]. intros _. split; [|done].
  apply search_from_Some in E as (pos & rest & E).
  apply match_at_groups in E as (res & Hres & Hg & _).
  apply export_module_regex_group in Hres as (n & Hn & Hlike).
  cbn [ModuleInfo.name]. unfold Regex.str. cbn [pred]. by rewrite Hg, Hn.
Qed.

(** A file that declares no module of name [name] leaves the entry of
    [name] as it is. *)
Lemma scan_sequential_other (files : list string) (modules : gmap string ModuleInfo.t)
    (name : string) :
  (∀ file, file ∈ files → ModuleInfo.name (extractModuleInfo root file) ≠ name) →
  scan_sequential root files modules !! name = modules !! name.
Proof.
  unfold scan_sequential. revert modules.
  induction files as [|file files IH]; intros modules Hfiles; [done|].
  cbn [foldl]. rewrite IH by (intros f Hf; apply Hfiles; by right).
  destruct (negb _); [|done]. apply lookup_insert_ne, Hfiles. left.
Qed.

Lemma scan_sequential_entry (files : list string) (modules : gmap string ModuleInfo.t)
    (name : string) (info : ModuleInfo.t) :
  scan_sequential root files modules !! name = Some info →
  modules !! name = Some info
  ∨ ∃ file, file ∈ files ∧ info = extractModuleInfo root file
            ∧ ModuleInfo.name info = name ∧ name ≠ "".
Proof.
  unfold scan_sequential. revert modules.
  induction files as [|file files IH]; intros modules; [by left|].
  cbn [foldl]. intros [H|(f & Hf & ?)]%IH; [|right; exists f; split; [by right|done]].
  destruct (String.eqb_spec (ModuleInfo.name (extractModuleInfo root file)) "")
    as [E|E]; cbn [negb] in H; [by left|].
  apply lookup_insert_Some in H as [[<- <-]|[_ H]]; [|by left].
  right. exists file. split; [left|done].
Qed.

(** Every entry of the table the scan fills is the module information of
    one of the files, stored under the declared name of that file, and
    that name is what the module declaration captures. *)
Theorem scan_files_entries (num_threads : N) (files : list string)
    (modules : gmap string ModuleInfo.t) (name : string) (info : ModuleInfo.t) :
  scan_files root num_threads files ∅ = Some modules →
  modules !! name = Some info →
  ∃ file, file ∈ files
          ∧ info = extractModuleInfo root file
          ∧ ModuleInfo.name info = name
          ∧ ModuleInfo.file_path info = file
          ∧ declared_name_like name.
Proof.
  intros Hscan Hinfo.
  assert (num_threads ≠ 0%N) as Hk.
  { intros ->. by unfold scan_files in Hscan. }
  rewrite scan_files_eq_sequential in Hscan by done. injection Hscan as <-.
  apply scan_sequential_entry in Hinfo as [?|(file & Hf & -> & Hn & Hne)]; [done|].
  rewrite <- Hn in Hne. destruct (extractModuleInfo_declared file Hne) as [Hd Hp].
  exists file. split_and!; try done. by rewrite <- Hn.
Qed.

(** When several files declare the same module, the table holds the one
    that is last in the file list. *)
Theorem scan_files_last_writer_wins (num_threads : N)
    (before after : list string) (file : string)
    (modules modules' : gmap string ModuleInfo.t) :
  scan_files root num_threads (before ++ file :: after)%list modules = Some modules' →
  ModuleInfo.name (extractModuleInfo root file) ≠ "" →
  (∀ later, later ∈ after →
            ModuleInfo.name (extractModuleInfo root later)
            ≠ ModuleInfo.name (extractModuleInfo root file)) →
  modules' !! ModuleInfo.name (extractModuleInfo root file)
  = Some (extractModuleInfo root file).
Proof.
  intros Hscan Hname Hafter.
  assert (num_threads ≠ 0%N) as Hk.
  { intros ->. by unfold scan_files in Hscan. }
  rewrite scan_files_eq_sequential in Hscan by done. injection Hscan as <-.
  unfold scan_sequential. rewrite foldl_app. cbn [foldl].
  fold (scan_sequential root before modules).
  match goal with |- foldl ?f ?init after !! _ = _ =>
    change (foldl f init after) with (scan_sequential root after init) end.
  rewrite scan_sequential_other by done.
  apply String.eqb_neq in Hname. rewrite Hname. cbn [negb].
  apply lookup_insert_eq.
Qed.

End ModuleTable.

Lemma scan_files_entries_witness :
  ∃ file, file ∈ ["/p/src/a.ixx"; "/p/src/b.ixx"]
          ∧ extractModuleInfo twice_tree "/p/src/b.ixx" = extractModuleInfo twice_tree file
          ∧ ModuleInfo.name (extractModuleInfo twice_tree "/p/src/b.ixx") = "m"
          ∧ ModuleInfo.file_path (extractModuleInfo twice_tree "/p/src/b.ixx") = file
          ∧ declared_name_like "m".
Proof.
  apply (scan_files_entries twice_tree 2 ["/p/src/a.ixx"; "/p/src/b.ixx"]
           {[ "m" := extractModuleInfo twice_tree "/p/src/b.ixx" ]}).
  - vm_compute. reflexivity.
  - vm_compute. reflexivity.
Defined.

Lemma scan_files_last_writer_wins_witness :
  ({[ "m" := extractModuleInfo twice_tree "/p/src/b.ixx" ]} : gmap string ModuleInfo.t)
    !! ModuleInfo.name (extractModuleInfo twice_tree "/p/src/b.ixx")
  = Some (extractModuleInfo twice_tree "/p/src/b.ixx").
Proof.
  apply (scan_files_last_writer_wins twice_tree 2 ["/p/src/a.ixx"] [] "/p/src/b.ixx" ∅).
  - vm_compute. reflexivity.
  - vm_compute. discriminate.
  - intros later Hlater. inversion Hlater.
Defined.

(** ** More on the dependency resolver *)
Section ResolverEntries.

Implicit Types (modules : gmap string ModuleInfo.t).

Lemma sort_unique_nil (l : list string) : Str.sort_unique l = [] → l = [].
Proof.
  intros H. destruct l as [|x l]; [done|].
  assert (x ∈ Str.sort_unique (x :: l)) as Hx by (apply elem_of_sort_unique; left).
  rewrite H in Hx. inversion Hx.
Qed.

Lemma processModuleDependencies_Some modules (module_name : string) (deps : list string) :
  processModuleDependencies modules ∅ !! module_name = Some deps →
  ∃ info, modules !! module_name = Some info
          ∧ clean_imports modules module_name info ≠ []
          ∧ deps = Str.sort_unique (clean_imports modules module_name info).
Proof.
  rewrite processModuleDependencies_lookup.
  destruct (modules !! module_name) as [info|]; [|rewrite lookup_empty; intros [=]].
  destruct (clean_imports modules module_name info) as [|x l] eqn:E;
    [rewrite lookup_empty; intros [=]|].
  intros [= <-]. exists info. rewrite E. split_and!; [done| |done]. intros [=].
Qed.

(** The resolver stores a list only for a module of the table, never an
    empty one, and what it stores is in strictly increasing order; the
    entries of names that are not in the table stay as they were. *)
Theorem processModuleDependencies_entries modules
    (module_deps : gmap string (list string)) (module_name : string) :
  (modules !! module_name = None →
   processModuleDependencies modules module_deps !! module_name
   = module_deps !! module_name)
  ∧ (∀ deps,
       processModuleDependencies modules ∅ !! module_name = Some deps →
       is_Some (modules !! module_name) ∧ deps ≠ [] ∧ StronglySorted Str.lt deps).
Proof.
  split.
  - intros H. by rewrite processModuleDependencies_lookup, H.
  - intros deps (info & Hm & Hne & ->)%processModuleDependencies_Some.
    split_and!; [by eexists| |apply sort_unique_StronglySorted].
    by intros ?%sort_unique_nil.
Qed.

(** A member of a stored list comes from an import or, for a main module,
    is one of its partitions. *)
Lemma module_deps_member modules (module_name : string)
    (info : ModuleInfo.t) (deps : list string) (x : string) :
  modules !! module_name = Some info →
  processModuleDependencies modules ∅ !! module_name = Some deps →
  x ∈ deps →
  (∃ import, import ∈ ModuleInfo.imports info
             ∧ import ≠ "" ∧ import ≠ module_name
             ∧ x = if Str.starts_with import ":"
                   then main_module module_name ++ import else import)
  ∨ Str.starts_with x (module_name ++ ":") = true.
Proof.
  intros Hm (info' & Hm' & _ & ->)%processModuleDependencies_Some.
  assert (info' = info) as -> by congruence.
  rewrite elem_of_sort_unique, elem_of_clean_imports, elem_of_partitions_of.
  intros [(i & Hi & (? & ? & H)%elem_of_clean_import)|(_ & _ & ?)]; [left|by right].
  exists i. split_and!; try done. by destruct (Str.starts_with i ":").
Qed.

(** What the stored list of a module holds: its imports other than the
    empty one and its own name, a bare partition with the main module in
    front, every other import as it is written, whether or not a module of
    that name exists; and, for a main module, the modules of the table whose
    name starts with its name and a colon. *)
Theorem processModuleDependencies_members modules (module_name : string)
    (info : ModuleInfo.t) (deps : list string) :
  modules !! module_name = Some info →
  processModuleDependencies modules ∅ !! module_name = Some deps →
  ∀ x, x ∈ deps ↔
       (∃ import, import ∈ ModuleInfo.imports info
                  ∧ import ≠ "" ∧ import ≠ module_name
                  ∧ x = if Str.starts_with import ":"
                        then main_module module_name ++ import else import)
       ∨ (Str.find_char ":" module_name = None
          ∧ is_Some (modules !! x)
          ∧ Str.starts_with x (module_name ++ ":") = true).
Proof.
  intros Hm (info' & Hm' & _ & ->)%processModuleDependencies_Some x.
  assert (info' = info) as -> by congruence.
  rewrite elem_of_sort_unique, elem_of_clean_imports, elem_of_partitions_of.
  setoid_rewrite elem_of_clean_import.
  split; (intros [(i & Hi & H)|H]; [left; exists i|by right]).
  - destruct H as (? & ? & H). split_and!; try done. by destruct (Str.starts_with i ":").
  - destruct H as (? & ? & ->). split_and!; try done. by destruct (Str.starts_with i ":").
Qed.

Lemma app_eq_self (x y : string) : x ++ y = x → y = "".
Proof.
  intros H%(f_equal String.length). rewrite str_length_app in H.
  destruct y; [done|]. cbn in H. lia.
Qed.

(** A module is among its own dependencies only through an import of a
    bare partition that names the module itself; a main module never
    is. *)
Theorem processModuleDependencies_self modules (module_name : string)
    (info : ModuleInfo.t) (deps : list string) :
  modules !! module_name = Some info →
  processModuleDependencies modules ∅ !! module_name = Some deps →
  (module_name ∈ deps →
   ∃ import, import ∈ ModuleInfo.imports info
             ∧ Str.starts_with import ":" = true
             ∧ main_module module_name ++ import = module_name)
  ∧ (Str.find_char ":" module_name = None → module_name ∉ deps).
Proof.
  intros Hm Hd.
  assert (module_name ∈ deps →
          ∃ import, import ∈ ModuleInfo.imports info
                    ∧ import ≠ ""
                    ∧ Str.starts_with import ":" = true
                    ∧ main_module module_name ++ import = module_name) as Hself.
  { intros Hin.
    apply (module_deps_member _ _ _ _ _ Hm Hd) in Hin
      as [(i & Hi & Hne & Hnm & Heq)|Hs].
    - destruct (Str.starts_with i ":") eqn:E; [by exists i|done].
    - rewrite starts_with_longer in Hs; done. }
  split.
  - intros (i & ? & _ & ? & ?)%Hself. by exists i.
  - intros Hmain (i & _ & Hne & _ & Heq)%Hself.
    rewrite main_module_parent in Heq by done. by apply app_eq_self in Heq.
Qed.

End ResolverEntries.

Lemma processModuleDependencies_members_witness :
  "app:ui" ∈ ["app:ui"; "missing"] ↔
    (∃ import, import ∈ ["app"; "missing"; ":ui"]
               ∧ import ≠ "" ∧ import ≠ "app"
               ∧ "app:ui" = if Str.starts_with import ":"
                            then main_module "app" ++ import else import)
    ∨ (Str.find_char ":" "app" = None
       ∧ is_Some (mixed_modules !! "app:ui")
       ∧ Str.starts_with "app:ui" ("app" ++ ":") = true).
Proof.
  refine (processModuleDependencies_members mixed_modules "app"
            (ModuleInfo.mk "app" ["app"; "missing"; ":ui"] "/p/src/app.ixx" true "app.ixx")
            ["app:ui"; "missing"] _ _ "app:ui").
  - vm_compute. reflexivity.
  - vm_compute. reflexivity.
Defined.

Lemma processModuleDependencies_self_witness :
  ("app" ∈ ["app:ui"; "missing"] →
   ∃ import, import ∈ ["app"; "missing"; ":ui"]
             ∧ Str.starts_with import ":" = true
             ∧ main_module "app" ++ import = "app")
  ∧ (Str.find_char ":" "app" = None → "app" ∉ ["app:ui"; "missing"]).
Proof.
  apply (processModuleDependencies_self mixed_modules "app"
           (ModuleInfo.mk "app" ["app"; "missing"; ":ui"] "/p/src/app.ixx" true "app.ixx")).
  - vm_compute. reflexivity.
  - vm_compute. reflexivity.
Defined.

(** ** More on the descriptor reader *)
Section ReaderEntries.

Lemma scan_parens_spec (s : string) (pos : nat) (paren_count : Z) (found_open : bool)
    (pos' : nat) (paren_count' : Z) :
  scan_parens s pos paren_count found_open = (pos', paren_count') →
  ∃ k, pos' = (pos + k)%nat
       ∧ (k <= String.length s)%nat
       ∧ paren_count' = (paren_count + paren_depth (Str.take (S k) s))%Z
       ∧ ((k < String.length s)%nat →
          paren_count' = 0%Z ∧ ∃ body, Str.take (S k) s = body ++ ")").
Proof.
  revert pos paren_count found_open.
  induction s as [|c s IH]; intros pos paren_count found_open; cbn [scan_parens].
  - intros [= <- <-]. exists 0%nat. cbn. split_and!; [lia..|]. lia.
  - assert (∀ pc fo,
              scan_parens s (S pos) pc fo = (pos', paren_count') →
              pc = (paren_count
                    + (if Ascii.eqb c "(" then 1 else if Ascii.eqb c ")" then -1 else 0))%Z →
              ∃ k, pos' = (pos + k)%nat
                   ∧ (k <= String.length (String c s))%nat
                   ∧ paren_count'
                     = (paren_count + paren_depth (Str.take (S k) (String c s)))%Z
                   ∧ ((k < String.length (String c s))%nat →
                      paren_count' = 0%Z
                      ∧ ∃ body, Str.take (S k) (String c s) = body ++ ")")) as Hrec.
    { intros pc fo (k & -> & Hk & -> & Hstop)%IH ->. exists (S k).
      change (Str.take (S (S k)) (String c s)) with (String c (Str.take (S k) s)).
      cbn [String.length paren_depth]. split_and!; [lia..|].
      intros Hlt. destruct Hstop as [? [body Hb]]; [lia|]. split; [done|].
      exists (String c body). by rewrite Hb. }
    destruct (Ascii.eqb c "(") eqn:Eo; [intros H; eapply Hrec; [exact H|lia]|].
    destruct (Ascii.eqb_spec c ")") as [->|Ec].
    + destruct (found_open && (paren_count - 1 =? 0)%Z) eqn:Estop.
      * intros [= <- <-]. apply andb_prop in Estop as [_ Hz%Z.eqb_eq].
        exists 0%nat. cbn. split_and!; [lia..|]. intros _. split; [lia|by exists ""].
      * intros H. eapply Hrec; [exact H|]. cbn. lia.
    + intros H. eapply Hrec; [exact H|]. cbn. lia.
Qed.


(** The text of a target has as many closing as opening parentheses; it
    starts where the target starts and, unless it runs to the end of the
    file, it ends with a closing parenthesis. *)
Theorem target_extent_balanced (content : string) (start_pos pos : nat)
    (target_content : string) :
  target_extent content start_pos = Some (pos, target_content) →
  paren_depth target_content = 0%Z
  ∧ (start_pos <= pos)%nat
  ∧ target_content = Str.substr content start_pos (pos - start_pos + 1)
  ∧ ((pos < start_pos + String.length (Str.drop start_pos content))%nat →
     ∃ body, target_content = body ++ ")").
Proof.
  unfold target_extent.
  destruct (scan_parens (Str.drop start_pos content) start_pos 0 false)
    as [p pc] eqn:E.
  apply scan_parens_spec in E as (k & -> & Hk & -> & Hstop).
  destruct (Z.eqb_spec (0 + paren_depth (Str.take (S k) (Str.drop start_pos content))) 0)
    as [Hz|]; [|done].
  intros [= <- <-]. unfold Str.substr.
  replace (start_pos + k - start_pos + 1)%nat with (S k) by lia.
  split_and!; [lia|lia|done|]. intros Hlt. apply Hstop. lia.
Qed.

Lemma add_interface_fields (target : BuildTarget.t) (file : string) :
  BuildTarget.name (add_interface target file) = BuildTarget.name target
  ∧ BuildTarget.type (add_interface target file) = BuildTarget.type target
  ∧ BuildTarget.module_dependencies (add_interface target file)
    = BuildTarget.module_dependencies target.
Proof. done. Qed.

Lemma foldl_same_fields {A : Type} (f : BuildTarget.t → A → BuildTarget.t)
    (l : list A) (target : BuildTarget.t) :
  (∀ t x, same_fields (f t x) t) → same_fields (foldl f target l) target.
Proof.
  intros Hf. revert target. induction l as [|x l IH]; intros target; [done|].
  cbn [foldl]. destruct (IH (f target x)) as (? & ? & ?).
  destruct (Hf target x) as (? & ? & ?). unfold same_fields. split_and!; congruence.
Qed.

Lemma processGlobExpression_same_fields (root : Fs.node) (glob_expr project_root : string)
    (target : BuildTarget.t) :
  same_fields (processGlobExpression root glob_expr target project_root) target.
Proof.
  unfold processGlobExpression.
  destruct (Str.ends_with glob_expr suffix_recursive).
  - destruct (Fs.exists_ root _); [|done].
    apply foldl_same_fields. intros t x. by destruct (_ && _).
  - destruct (Str.ends_with glob_expr suffix); [|done].
    destruct (Fs.exists_ root _); [|done].
    apply foldl_same_fields. intros t x. by destruct (String.eqb _ _).
Qed.

Lemma parseModuleInterfaces_same_fields (root : Fs.node)
    (interfaces_str project_root : string) (target : BuildTarget.t) :
  same_fields (parseModuleInterfaces root interfaces_str target project_root) target.
Proof.
  unfold parseModuleInterfaces. destruct (Str.find_str _ _).
  - destruct (Regex.regex_search _ _); [|done].
    apply foldl_same_fields. intros t x. apply processGlobExpression_same_fields.
  - by apply foldl_same_fields.
Qed.

Lemma plus_all_in (cls : ascii → bool) (s : string) (r : string * string) :
  Regex.plus cls s = Some r → r.1 ≠ "" ∧ all_in cls r.1 = true.
Proof.
  unfold Regex.plus. pose proof (span_all_in cls s) as Hall.
  destruct (Regex.span cls s) as [[|a x] rest]; [done|].
  intros [= <-]. done.
Qed.

Lemma build_target_regex_groups (s : string) (res : list string * string) :
  Regex.build_target_regex s = Some res →
  ∃ type name, res.1 = [type; name]
               ∧ (type = "cc_module_library" ∨ type = "cc_module_binary")
               ∧ name ≠ "" ∧ all_in (Regex.is_not Regex.dquote) name = true.
Proof.
  unfold Regex.build_target_regex. intros H.
  apply bind_Some in H as (k & Hk & H).
  apply bind_Some in H as (? & _ & H).
  apply bind_Some in H as (n & Hn & H).
  apply bind_Some in H as (? & _ & [= <-]).
  apply plus_all_in in Hn as [? ?].
  exists k.1, n.1. split_and!; try done.
  destruct (Regex.lit "cc_module_library" s).
  - injection Hk as <-. by left.
  - apply bind_Some in Hk as (? & _ & [= <-]). by right.
Qed.

(** Every target the reader stores is stored under its name; the name is a
    non-empty string without a double quote, the type is one of the two rule
    names, and no dependency is recorded yet. *)
Theorem parseBuildFile_targets (root : Fs.node) (build_file_path target_name : string)
    (target : BuildTarget.t) :
  parseBuildFile root build_file_path ∅ !! target_name = Some target →
  BuildTarget.name target = target_name
  ∧ (BuildTarget.type target = "cc_module_library"
     ∨ BuildTarget.type target = "cc_module_binary")
  ∧ BuildTarget.module_dependencies target = ∅
  ∧ target_name ≠ ""
  ∧ all_in (Regex.is_not Regex.dquote) target_name = true.
Proof.
  unfold parseBuildFile.
  destruct (Fs.read root build_file_path) as [content|];
    [|rewrite lookup_empty; intros [=]].
  unfold Regex.sregex_iterator.
  assert (∀ m, m ∈ Regex.iterate_from Regex.build_target_regex 0 0 content →
               ∃ pos s, Regex.match_at Regex.build_target_regex pos s = Some m) as Hm
    by (intros m; apply iterate_from_elem).
  revert Hm. generalize (Regex.iterate_from Regex.build_target_regex 0 0 content).
  intros matches Hm.
  set (ok := fun (k : string) (t : BuildTarget.t) =>
               BuildTarget.name t = k
               ∧ (BuildTarget.type t = "cc_module_library"
                  ∨ BuildTarget.type t = "cc_module_binary")
               ∧ BuildTarget.module_dependencies t = ∅
               ∧ k ≠ ""
               ∧ all_in (Regex.is_not Regex.dquote) k = true).
  assert (∀ targets : gmap string BuildTarget.t,
            (∀ k t, targets !! k = Some t → ok k t) →
            ∀ k t, foldl (parse_target root build_file_path content) targets matches !! k
                   = Some t → ok k t) as Hfold.
  { induction matches as [|m matches IH]; intros targets Hok; [done|].
    cbn [foldl]. apply IH; [intros m' Hm'; apply Hm; by right|].
    intros k t. unfold parse_target.
    destruct (target_extent content (Regex.position m)) as [[pos text]|]; [|apply Hok].
    intros [[<- <-]|[_ H]]%lookup_insert_Some; [|by apply Hok].
    destruct (Hm m) as (pos' & s & Hmatch); [left|].
    apply match_at_groups in Hmatch as (res & Hres & Hg & _).
    apply build_target_regex_groups in Hres as (type & name & Hres & Htype & Hne & Hq).
    unfold Regex.str. rewrite Hg, Hres. cbn [pred nth].
    assert (∀ t', same_fields t' (BuildTarget.mk name type [] ∅) → ok name t') as Hsame.
    { intros t' (Hn & Ht & Hd). unfold ok. rewrite Hn, Ht, Hd. done. }
    apply Hsame. destruct (Regex.regex_search _ text); [|done].
    apply parseModuleInterfaces_same_fields. }
  apply Hfold. intros k t. rewrite lookup_empty. intros [=].
Qed.

Lemma file_pattern_group (s : string) (res : list string * string) :
  Regex.file_pattern s = Some res →
  ∃ file, res.1 = [file]
          ∧ Str.ends_with file ".ixx" = true
          ∧ (5 <= String.length file)%nat
          ∧ all_in (Regex.is_not Regex.dquote) file = true.
Proof.
  unfold Regex.file_pattern. intros H.
  apply bind_Some in H as (s1 & _ & H).
  apply bind_Some in H as (s2 & _ & H).
  destruct (Str.ends_with _ ".ixx" && _) eqn:E; [|done]. injection H as <-.
  apply andb_prop in E as [E1 E2%Nat.leb_le].
  eexists. split_and!; [done..|]. apply span_all_in.
Qed.

Lemma parseModuleInterfaces_literal_interfaces (root : Fs.node)
    (interfaces_str project_root : string) (target : BuildTarget.t) :
  Str.find_str "glob(" interfaces_str = None →
  BuildTarget.module_interfaces
    (parseModuleInterfaces root interfaces_str target project_root)
  = (BuildTarget.module_interfaces target
     ++ ((fun m => Regex.str m 1) <$>
           Regex.sregex_iterator Regex.file_pattern interfaces_str))%list.
Proof.
  intros Hnone. unfold parseModuleInterfaces. rewrite Hnone.
  generalize (Regex.sregex_iterator Regex.file_pattern interfaces_str).
  intros files. revert target.
  induction files as [|m files IH]; intros target; [by rewrite app_nil_r|].
  cbn [foldl]. rewrite IH, add_interface_interfaces, fmap_cons, <- app_assoc. done.
Qed.

(** From a field without [glob(] the reader takes the quoted strings that
    end with [.ixx] and have a character before it; every file name it adds
    is of that kind and holds no double quote. *)
Theorem parseModuleInterfaces_literals (root : Fs.node)
    (interfaces_str project_root file : string) (target : BuildTarget.t) :
  Str.find_str "glob(" interfaces_str = None →
  file ∈ BuildTarget.module_interfaces
           (parseModuleInterfaces root interfaces_str target project_root) →
  file ∈ BuildTarget.module_interfaces target
  ∨ Str.ends_with file ".ixx" = true
    ∧ (5 <= String.length file)%nat
    ∧ all_in (Regex.is_not Regex.dquote) file = true.
Proof.
  intros Hnone. rewrite parseModuleInterfaces_literal_interfaces by done.
  intros [?|Hin]%elem_of_app; [by left|]. right.
  apply list_elem_of_fmap in Hin as (m & -> & Hm).
  apply iterate_from_elem in Hm as (pos & s & Hm).
  apply match_at_groups in Hm as (res & Hres & Hg & _).
  apply file_pattern_group in Hres as (f & Hf & ? & ? & ?).
  unfold Regex.str. rewrite Hg, Hf. done.
Qed.

End ReaderEntries.

Lemma target_extent_balanced_witness :
  paren_depth synced_target = 0%Z
  ∧ (0 <= 146)%nat
  ∧ synced_target = Str.substr synced_build 0 (146 - 0 + 1)
  ∧ ((146 < 0 + String.length (Str.drop 0 synced_build))%nat →
     ∃ body, synced_target = body ++ ")").
Proof.
  apply (target_extent_balanced synced_build 0 146 synced_target).
  vm_compute. reflexivity.
Defined.

Lemma parseBuildFile_targets_witness :
  BuildTarget.name (BuildTarget.mk "lib" "cc_module_library" ["math.ixx"; "app.ixx"] ∅)
  = "lib"
  ∧ (BuildTarget.type (BuildTarget.mk "lib" "cc_module_library" ["math.ixx"; "app.ixx"] ∅)
     = "cc_module_library"
     ∨ BuildTarget.type (BuildTarget.mk "lib" "cc_module_library" ["math.ixx"; "app.ixx"] ∅)
       = "cc_module_binary")
  ∧ BuildTarget.module_dependencies
      (BuildTarget.mk "lib" "cc_module_library" ["math.ixx"; "app.ixx"] ∅) = ∅
  ∧ "lib" ≠ ""
  ∧ all_in (Regex.is_not Regex.dquote) "lib" = true.
Proof.
  apply (parseBuildFile_targets synced_tree "/p/src/BUILD").
  vm_compute. reflexivity.
Defined.

Lemma parseModuleInterfaces_literals_witness :
  "lit.ixx" ∈ BuildTarget.module_interfaces empty_target
  ∨ Str.ends_with "lit.ixx" ".ixx" = true
    ∧ (5 <= String.length "lit.ixx")%nat
    ∧ all_in (Regex.is_not Regex.dquote) "lit.ixx" = true.
Proof.
  apply (parseModuleInterfaces_literals glob_tree literal_field "/p/src" "lit.ixx"
           empty_target).
  - vm_compute. reflexivity.
  - vm_compute. left.
Defined.

(** ** More on the target-dependency calculator *)
Section Calculator.

Variable root : Fs.node.
Variable project_root : string.
Variable module_deps : gmap string (list string).

Local Notation "'visit'" := (visit_interface root project_root module_deps).

Lemma visit_cases (target : BuildTarget.t) (file : string) :
  visit target file = target
  ∨ ∃ module_name deps,
      declares root project_root file module_name
      ∧ module_deps !! module_name = Some deps
      ∧ visit target file = set_dependency target module_name deps.
Proof.
  unfold visit_interface, declares.
  destruct (Fs.exists_ root _) eqn:Ex; [|by left].
  destruct (String.eqb_spec (ModuleInfo.name (extractModuleInfo root
              (Fs.append (Fs.append project_root "src") file))) "") as [E|E];
    cbn [negb]; [by left|].
  destruct (module_deps !! _) as [deps|] eqn:Ed; [|by left].
  right. eexists _, deps. done.
Qed.

Lemma visit_declared (target : BuildTarget.t) (file module_name : string)
    (deps : list string) :
  declares root project_root file module_name →
  module_deps !! module_name = Some deps →
  visit target file = set_dependency target module_name deps.
Proof.
  intros (Hex & Hname & Hne) Hd. unfold visit_interface. rewrite Hex, Hname.
  apply String.eqb_neq in Hne. by rewrite Hne, Hd.
Qed.

Lemma foldl_visit_fields (files : list string) (target : BuildTarget.t) :
  BuildTarget.name (foldl visit target files) = BuildTarget.name target
  ∧ BuildTarget.type (foldl visit target files) = BuildTarget.type target
  ∧ BuildTarget.module_interfaces (foldl visit target files)
    = BuildTarget.module_interfaces target.
Proof.
  revert target. induction files as [|file files IH]; intros target; [done|].
  cbn [foldl]. destruct (IH (visit target file)) as (-> & -> & ->).
  by destruct (visit_cases target file) as [->|(m & d & _ & _ & ->)].
Qed.

(** What the loop records comes from the dependency table. *)
Lemma foldl_visit_sound (files : list string) (target : BuildTarget.t)
    (module_name : string) (deps : list string) :
  BuildTarget.module_dependencies (foldl visit target files) !! module_name = Some deps →
  BuildTarget.module_dependencies target !! module_name = Some deps
  ∨ module_deps !! module_name = Some deps
    ∧ ∃ file, file ∈ files ∧ declares root project_root file module_name.
Proof.
  revert target. induction files as [|file files IH]; intros target; [by left|].
  cbn [foldl]. intros [H|[? (f & Hf & ?)]]%IH.
  - destruct (visit_cases target file) as [Hv|(m & d & Hdecl & Hd & Hv)];
      rewrite Hv in H; [by left|].
    cbn [set_dependency BuildTarget.module_dependencies] in H.
    apply lookup_insert_Some in H as [[<- <-]|[_ H]]; [|by left].
    right. split; [done|]. exists file. split; [left|done].
  - right. split; [done|]. exists f. split; [by right|done].
Qed.

(** An entry that agrees with the dependency table stays. *)
Lemma foldl_visit_keeps (files : list string) (target : BuildTarget.t)
    (module_name : string) (deps : list string) :
  module_deps !! module_name = Some deps →
  BuildTarget.module_dependencies target !! module_name = Some deps →
  BuildTarget.module_dependencies (foldl visit target files) !! module_name = Some deps.
Proof.
  intros Hd. revert target. induction files as [|file files IH]; intros target H; [done|].
  cbn [foldl]. apply IH.
  destruct (visit_cases target file) as [->|(m & d & _ & Hm & ->)]; [done|].
  cbn [set_dependency BuildTarget.module_dependencies].
  destruct (decide (m = module_name)) as [->|Hne].
  - rewrite lookup_insert_eq. congruence.
  - by rewrite lookup_insert_ne.
Qed.

Lemma foldl_visit_complete (files : list string) (target : BuildTarget.t)
    (file module_name : string) (deps : list string) :
  file ∈ files →
  declares root project_root file module_name →
  module_deps !! module_name = Some deps →
  BuildTarget.module_dependencies (foldl visit target files) !! module_name = Some deps.
Proof.
  intros Hin Hdecl Hd. revert target.
  induction files as [|f files IH]; intros target; [by inversion Hin|].
  cbn [foldl]. apply elem_of_cons in Hin as [<-|Hin]; [|by apply IH].
  apply foldl_visit_keeps; [done|].
  rewrite (visit_declared _ _ _ _ Hdecl Hd).
  cbn [set_dependency BuildTarget.module_dependencies]. apply lookup_insert_eq.
Qed.

(** The calculator keeps the targets, their names, types and interfaces.
    A target read from the descriptor file gets exactly the entries of the
    dependency table for the modules that its interface files declare, the
    files being looked for under [src] in the project root. *)
Theorem calculateTargetDependencies_projection
    (build_targets : gmap string BuildTarget.t) (target_name : string)
    (target : BuildTarget.t) :
  build_targets !! target_name = Some target →
  BuildTarget.module_dependencies target = ∅ →
  ∃ target',
    calculateTargetDependencies root project_root module_deps build_targets !! target_name
    = Some target'
    ∧ BuildTarget.name target' = BuildTarget.name target
    ∧ BuildTarget.type target' = BuildTarget.type target
    ∧ BuildTarget.module_interfaces target' = BuildTarget.module_interfaces target
    ∧ ∀ module_name deps,
        BuildTarget.module_dependencies target' !! module_name = Some deps ↔
        module_deps !! module_name = Some deps
        ∧ ∃ file, file ∈ BuildTarget.module_interfaces target
                  ∧ declares root project_root file module_name.
Proof.
  intros Ht Hempty. unfold calculateTargetDependencies. rewrite lookup_fmap, Ht.
  eexists. split; [done|]. unfold target_dependencies.
  change (foldl _ target (BuildTarget.module_interfaces target))
    with (foldl visit target (BuildTarget.module_interfaces target)).
  destruct (foldl_visit_fields (BuildTarget.module_interfaces target) target)
    as (-> & -> & ->).
  split_and!; [done..|]. intros m d. split.
  - intros [H|H]%foldl_visit_sound; [|done]. by rewrite Hempty, lookup_empty in H.
  - intros [Hd (f & Hf & Hdecl)]. by eapply foldl_visit_complete.
Qed.

End Calculator.

Lemma calculateTargetDependencies_projection_witness :
  ∃ target',
    calculateTargetDependencies synced_tree "/p" {[ "app" := ["math"] ]}
      {[ "lib" := BuildTarget.mk "lib" "cc_module_library" ["math.ixx"; "app.ixx"] ∅ ]}
      !! "lib"
    = Some target'
    ∧ BuildTarget.name target' = "lib"
    ∧ BuildTarget.type target' = "cc_module_library"
    ∧ BuildTarget.module_interfaces target' = ["math.ixx"; "app.ixx"]
    ∧ ∀ module_name deps,
        BuildTarget.module_dependencies target' !! module_name = Some deps ↔
        ({[ "app" := ["math"] ]} : gmap string (list string)) !! module_name = Some deps
        ∧ ∃ file, file ∈ ["math.ixx"; "app.ixx"]
                  ∧ declares synced_tree "/p" file module_name.
Proof.
  apply (calculateTargetDependencies_projection synced_tree "/p" {[ "app" := ["math"] ]}
           {[ "lib" := BuildTarget.mk "lib" "cc_module_library" ["math.ixx"; "app.ixx"] ∅ ]}
           "lib" (BuildTarget.mk "lib" "cc_module_library" ["math.ixx"; "app.ixx"] ∅)).
  - vm_compute. reflexivity.
  - reflexivity.
Defined.

(** ** More on the descriptor patcher *)
Section PatcherEdits.

Lemma take_nil_str (n : nat) : Str.take n "" = "".
Proof. by destruct n. Qed.

Lemma drop_nil_str (n : nat) : Str.drop n "" = "".
Proof. by destruct n. Qed.

Lemma take_cons_str (n : nat) (a : ascii) (s : string) :
  Str.take (S n) (String a s) = String a (Str.take n s).
Proof. done. Qed.

Lemma drop_cons_str (n : nat) (a : ascii) (s : string) :
  Str.drop (S n) (String a s) = Str.drop n s.
Proof. done. Qed.

Lemma take_take_drop_str (n m : nat) (s : string) :
  Str.take n s ++ Str.take m (Str.drop n s) = Str.take (n + m) s.
Proof.
  revert s. induction n as [|n IH]; intros s; [done|].
  destruct s as [|a s]; [by rewrite drop_nil_str, !take_nil_str|].
  cbn [Nat.add]. rewrite !take_cons_str, drop_cons_str, app_cons. by rewrite IH.
Qed.

Lemma drop_drop_str (n m : nat) (s : string) :
  Str.drop m (Str.drop n s) = Str.drop (n + m) s.
Proof.
  revert s. induction n as [|n IH]; intros s; [done|].
  destruct s as [|a s]; [by rewrite !drop_nil_str|].
  cbn [Nat.add]. by rewrite !drop_cons_str.
Qed.


Lemma find_char_spec (c : ascii) (s : string) (i : nat) :
  Str.find_char c s = Some i → ∃ y, Str.drop i s = String c y.
Proof.
  revert i. induction s as [|a s IH]; intros i; [done|]. cbn [Str.find_char].
  destruct (Ascii.eqb_spec a c) as [->|_].
  - intros [= <-]. by eexists.
  - destruct (Str.find_char c s) as [j|]; [|done]. intros [= <-]. by apply IH.
Qed.

Lemma scan_field_spec (s : string) (line_pos : nat) (depth : Z) (found : nat) :
  scan_field s line_pos depth = Some found →
  ∃ k y, found = (line_pos + k)%nat ∧ Str.drop k s = String "," y.
Proof.
  revert line_pos depth. induction s as [|c s IH]; intros line_pos depth; [done|].
  cbn [scan_field].
  assert (∀ d, scan_field s (S line_pos) d = Some found →
               ∃ k y, found = (line_pos + k)%nat
                      ∧ Str.drop k (String c s) = String "," y) as Hrec.
  { intros d (k & y & -> & Hy)%IH. exists (S k), y. split; [lia|done]. }
  destruct (_ || _); [apply Hrec|].
  destruct (_ || _); [apply Hrec|].
  destruct (Ascii.eqb_spec c ",") as [->|_]; cbn [andb]; [|apply Hrec].
  destruct (depth =? 0)%Z; [|apply Hrec].
  intros [= <-]. exists 0%nat, s. split; [lia|done].
Qed.

Lemma take_S_drop (k : nat) (s y : string) (c : ascii) :
  Str.drop k s = String c y → Str.take (S k) s = Str.take k s ++ String c "".
Proof.
  revert s. induction k as [|k IH]; intros [|a s]; cbn [Str.drop]; try done.
  - by intros [= -> ->].
  - intros H. rewrite !take_cons_str, app_cons. by rewrite (IH _ H).
Qed.

(** Adding the block to the text of a target removes nothing of it: the
    block goes, on a line of its own, behind a comma of the text, and what
    stood before and after that comma stands there still. *)
Theorem insert_deps_adds (target_content deps new_target_content : string) :
  insert_deps target_content deps = Some new_target_content →
  ∃ before after,
    target_content = before ++ "," ++ after
    ∧ new_target_content = before ++ "," ++ NL ++ "    " ++ deps ++ after.
Proof.
  unfold insert_deps. intros H.
  apply bind_Some in H as (interfaces_pos & _ & H).
  apply bind_Some in H as (equals_pos & Heq & H).
  apply bind_Some in H as (line_pos & Hline & [= <-]).
  unfold Str.find_char_from in Heq.
  apply fmap_Some in Heq as (i & _ & ->).
  apply scan_field_spec in Hline as (k & y & -> & Hy).
  rewrite drop_drop_str in Hy.
  set (p := (interfaces_pos + i + 1 + k)%nat) in *.
  replace (p - interfaces_pos + 1)%nat with (S (i + 1 + k)) by lia.
  exists (Str.take p target_content), y.
  unfold Str.replace, Str.substr.
  assert (Str.drop (S p) target_content = y) as Hrest.
  { replace (S p) with (p + 1)%nat by lia. rewrite <- drop_drop_str, Hy. done. }
  split.
  - pose proof (drop_take_str p target_content) as Ht. rewrite Hy in Ht. exact Ht.
  - rewrite !app_assoc_str.
    rewrite <- (app_assoc_str (Str.take interfaces_pos target_content)).
    rewrite take_take_drop_str.
    replace (interfaces_pos + S (i + 1 + k))%nat with (S p) by lia.
    rewrite (take_S_drop p _ _ _ Hy), Hrest, !app_assoc_str. done.
Qed.



(** When no target has a recorded dependency, the text is left as it is
    and nothing is handed to the output stream. *)
Theorem patched_content_without_dependencies (root : Fs.node) (build_file_path : string)
    (modules : gmap string ModuleInfo.t) (build_targets : gmap string BuildTarget.t)
    (content : string) :
  (∀ target_name target,
     build_targets !! target_name = Some target →
     BuildTarget.module_dependencies target = ∅) →
  patched_content modules build_targets content = content
  ∧ text_to_write root build_file_path modules build_targets = None.
Proof.
  intros Hempty.
  assert (∀ text, patched_content modules build_targets text = text) as Hsame.
  { intros text. unfold patched_content.
    assert (∀ entry, entry ∈ map_to_list build_targets →
                     BuildTarget.module_dependencies entry.2 = ∅) as Hall.
    { intros [k t] Hin%elem_of_map_to_list. by eapply Hempty. }
    revert Hall. generalize (map_to_list build_targets). intros l.
    induction l as [|entry l IH]; intros Hall; [done|]. cbn [foldl].
    unfold patch_target at 2. rewrite decide_True by (apply Hall; left).
    apply IH. intros e He. apply Hall. by right. }
  split; [apply Hsame|]. unfold text_to_write.
  destruct (Fs.read root build_file_path); [|done].
  by rewrite Hsame, String.eqb_refl.
Qed.

End PatcherEdits.

(** ** Writing the descriptor file and reading it back *)
Section WriteBack.

Import Fs.

Lemma write_at_name (p : cpath) (content : string) (n : node) :
  node_name (write_at p content n) = node_name n.
Proof. by destruct p, n. Qed.

Lemma write_at_kind (p : cpath) (content : string) (n : node) :
  is_regular_file (write_at p content n) = is_regular_file n.
Proof. by destruct p, n. Qed.

Lemma child_update_child (c c' : string) (f : node → node) (entries : list node) :
  (∀ e, node_name (f e) = node_name e) →
  child c (update_child c' f entries)
  = if String.eqb c' c then f <$> child c entries else child c entries.
Proof.
  intros Hf. unfold child. induction entries as [|e entries IH].
  - by destruct (String.eqb c' c).
  - cbn [update_child List.find].
    destruct (String.eqb_spec (node_name e) c') as [He|He].
    + cbn [List.find]. rewrite Hf, He.
      by destruct (String.eqb_spec c' c) as [->|Hne].
    + cbn [List.find]. destruct (String.eqb_spec (node_name e) c) as [Hc|Hc].
      * destruct (String.eqb_spec c' c) as [->|_]; [done|done].
      * apply IH.
Qed.

(** Writing a file changes the kind of no node. *)
Lemma lookup_write_at_kind (q p : cpath) (content : string) (n : node) :
  is_regular_file <$> lookup q (write_at p content n) = is_regular_file <$> lookup q n.
Proof.
  revert p n. induction q as [|c q IH]; intros p n.
  - cbn. by rewrite write_at_kind.
  - destruct n as [name r w old|name entries]; [by destruct p|].
    destruct p as [|c' p]; [done|]. cbn [write_at lookup].
    rewrite child_update_child by (intros e; apply write_at_name).
    destruct (String.eqb c' c); [|done].
    destruct (child c entries) as [e|]; [|done]. cbn. apply IH.
Qed.

Lemma resolve_from_write_at (p : cpath) (content : string) (root : node)
    (cs : list string) (cur : cpath) :
  resolve_from (write_at p content root) cur cs = resolve_from root cur cs.
Proof.
  revert cur. induction cs as [|c cs IH]; intros cur; [done|]. cbn [resolve_from].
  pose proof (lookup_write_at_kind cur p content root) as Hcur.
  pose proof (lookup_write_at_kind (step cur c) p content root) as Hnext.
  destruct (lookup cur (write_at p content root)) as [[]|],
           (lookup cur root) as [[]|]; try done.
  destruct (lookup (step cur c) (write_at p content root)),
           (lookup (step cur c) root); try done.
Qed.

Lemma lookup_write_at_self (p : cpath) (content : string) (n : node)
    (name : string) (r w : bool) (old : string) :
  lookup p n = Some (File name r w old) →
  lookup p (write_at p content n) = Some (File name r w content).
Proof.
  revert n. induction p as [|c p IH]; intros n.
  - cbn. by intros [= ->].
  - destruct n as [|dir entries]; [done|]. cbn [lookup write_at].
    rewrite child_update_child by (intros e; apply write_at_name).
    rewrite String.eqb_refl. destruct (child c entries) as [e|]; [|done]. cbn.
    apply IH.
Qed.

Lemma read_write (root : node) (p old content : string) :
  read root p = Some old → read (write root p content) p = Some content.
Proof.
  unfold read, write, node_at, resolve.
  destruct (String.eqb p ""); [done|].
  destruct (resolve_from root [] (split_path p)) as [c|] eqn:E; [|done]. cbn.
  rewrite resolve_from_write_at, E. cbn.
  destruct (lookup c root) as [[name [] w x|]|] eqn:El; try done.
  intros _. by rewrite (lookup_write_at_self _ _ _ _ _ _ _ El).
Qed.

(** What [updateBuildFile] hands to the output stream is what the
    descriptor file holds afterwards, when the stream opens; when it does
    not, the file system is left as it is. *)
Theorem updateBuildFile_read_back (root : node) (build_file_path : string)
    (modules : gmap string ModuleInfo.t) (build_targets : gmap string BuildTarget.t)
    (content : string) :
  text_to_write root build_file_path modules build_targets = Some content →
  (can_write root build_file_path = true →
   read (updateBuildFile root build_file_path modules build_targets) build_file_path
   = Some content)
  ∧ (can_write root build_file_path = false →
     updateBuildFile root build_file_path modules build_targets = root).
Proof.
  intros Htext. unfold updateBuildFile. rewrite Htext.
  unfold text_to_write in Htext.
  destruct (read root build_file_path) as [original_content|] eqn:Hread; [|done].
  split; intros ->; [|done]. by eapply read_write.
Qed.

End WriteBack.

Lemma updateBuildFile_read_back_witness :
  (Fs.can_write (warning_tree warning_build) "/p/src/BUILD" = true →
   Fs.read (updateBuildFile (warning_tree warning_build) "/p/src/BUILD"
              warning_modules warning_targets) "/p/src/BUILD"
   = Some warning_build_1)
  ∧ (Fs.can_write (warning_tree warning_build) "/p/src/BUILD" = false →
     updateBuildFile (warning_tree warning_build) "/p/src/BUILD"
       warning_modules warning_targets
     = warning_tree warning_build).
Proof.
  apply (updateBuildFile_read_back (warning_tree warning_build) "/p/src/BUILD"
           warning_modules warning_targets warning_build_1).
  vm_compute. reflexivity.
Defined.

Lemma insert_deps_adds_witness :
  ∃ before after,
    plain_target = before ++ "," ++ after
    ∧ synced_target = before ++ "," ++ NL ++ "    " ++ synced_block ++ after.
Proof.
  apply (insert_deps_adds plain_target synced_block synced_target).
  vm_compute. reflexivity.
Defined.


Lemma patched_content_without_dependencies_witness :
  patched_content ∅ {[ "lib" := empty_target ]} synced_build = synced_build
  ∧ text_to_write synced_tree "/p/src/BUILD" ∅ {[ "lib" := empty_target ]} = None.
Proof.
  apply (patched_content_without_dependencies synced_tree "/p/src/BUILD" ∅
           {[ "lib" := empty_target ]} synced_build).
  intros target_name target [_ <-]%lookup_singleton_Some. reflexivity.
Defined.
